(** * Primal VEM stiffness kernel and upwind interface coupling (porepy)

    Shallow embedding of
      - [porepy/numerics/vem/primal.py]            (class [PrimalVEM])
      - [porepy/numerics/fv/transport/upwind_coupling.py]
                                                 (class [UpwindCoupling])

    Conventions of the embedding.
      - NumPy floats are read in exact arithmetic: every definition is made
        over an arbitrary real field [R] (instantiated at [rat] for the
        concrete evaluations).  Rounding is therefore not modelled; the
        tolerances of [np.isclose] and [np.allclose] are kept as they are;
        a division by zero (NumPy: [inf] or [nan] and a warning) is
        modelled at the places where the source can reach it.
      - Dense NumPy arrays of a fixed shape are MathComp matrices; index
        arrays and one-dimensional data arrays are [seq]s; SciPy sparse
        matrices are coordinate lists in the order [scipy.sparse.find]
        enumerates them.
      - A Python exception is a value [Raise e] of the type [result]. *)

From HB Require Import structures.
From mathcomp Require Import boot order algebra.

Set Implicit Arguments.
Unset Strict Implicit.
Unset Printing Implicit Defensive.

Import Order.TTheory GRing.Theory Num.Theory.
Local Open Scope ring_scope.

(** ** Exceptions *)

Inductive exn : Type :=
  | AssertionError
  | LinAlgError
  | IndexError
  | ValueError
  | TypeError
  | KeyError.

Inductive result (T : Type) : Type :=
  | Ok of T
  | Raise of exn.

Arguments Raise {T} e.

Definition bind {T U : Type} (x : result T) (f : T -> result U) : result U :=
  match x with
  | Ok v => f v
  | Raise e => Raise e
  end.

Notation "'do' x <- e1 ; e2" := (bind e1 (fun x => e2))
  (at level 200, x pattern, e1 at level 100, e2 at level 200,
   right associativity).

Definition assert (b : bool) : result unit :=
  if b then Ok tt else Raise AssertionError.

(** ** NumPy index arrays *)

Section NumPy.

Variable T : Type.
Variable x0 : T.

(** [a[idx]] for an integer index array: [IndexError] when an index is out
    of bounds (the indices of this development are never negative). *)
Definition take_idx (a : seq T) (idx : seq nat) : result (seq T) :=
  if all (fun i => (i < size a)%N) idx then Ok [seq nth x0 a i | i <- idx]
  else Raise IndexError.

(** [a[msk]] for a boolean index array: NumPy requires the mask to have the
    length of the array, [IndexError] otherwise. *)
Definition take_mask (a : seq T) (msk : seq bool) : result (seq T) :=
  if size msk == size a then Ok (mask msk a) else Raise IndexError.

(** [a[idx] = vals] for an integer index array and values of the same
    length; on a repeated index the last assignment wins. *)
Definition set_idx (a : seq T) (idx : seq nat) (vals : seq T) :
  result (seq T) :=
  if size vals != size idx then Raise ValueError
  else if all (fun i => (i < size a)%N) idx
  then Ok (foldl (fun acc p => set_nth x0 acc p.1 p.2) a (zip idx vals))
  else Raise IndexError.

(** Broadcasting of a one-dimensional array to a given length. *)
Definition broadcast_to (a : seq T) (k : nat) : result (seq T) :=
  if size a == k then Ok a
  else if size a == 1%N then Ok (nseq k (head x0 a))
  else Raise ValueError.

(** An entry-wise binary operation on two arrays of any one type, with
    broadcasting. *)
Definition map2 (f : T -> T -> T) (a b : seq T) : result (seq T) :=
  if size a == size b then Ok [seq f p.1 p.2 | p <- zip a b]
  else if size a == 1%N then Ok [seq f (head x0 a) y | y <- b]
  else if size b == 1%N then Ok [seq f x (head x0 b) | x <- a]
  else Raise ValueError.

End NumPy.

(** [np.unique(s, return_index=True)[1]]: for each distinct value, in
    increasing order, the position of its first occurrence. *)
Definition unique_index (s : seq nat) : seq nat :=
  [seq index v s | v <- sort leq (undup s)].

(** [np.where(b)[0]] *)
Definition np_where (b : seq bool) : seq nat :=
  [seq i <- iota 0 (size b) | nth false b i].

(** [np.any(b)] *)
Definition np_any (b : seq bool) : bool := has id b.

(** ** NumPy arithmetic on arrays *)

Section Arith.

Variable R : realFieldType.

(** [a.clip(min=0)] and [a.clip(max=0)], entry by entry *)
Definition clip_min0 (x : R) : R := Num.max x 0.
Definition clip_max0 (x : R) : R := Num.min x 0.

(** An entry-wise binary operation on two arrays, with broadcasting. *)
Definition zip_with (f : R -> R -> R) (a b : seq R) : result (seq R) :=
  if size a == size b then Ok [seq f p.1 p.2 | p <- zip a b]
  else if size a == 1%N then Ok [seq f (head 0 a) y | y <- b]
  else if size b == 1%N then Ok [seq f x (head 0 b) | x <- a]
  else Raise ValueError.

(** A floating-point value that may not be a number: a number, [inf],
    [-inf] or [nan].  The arrays of the input hold numbers; the other values
    arise from a division by zero, where NumPy warns and goes on.  A zero
    carries no sign here: a zero divisor is read as [+0.0]. *)
Inductive float64 : Type :=
  | Finite of R
  | Inf
  | NegInf
  | NaN.

Definition floats (a : seq R) : seq float64 := [seq Finite x | x <- a].

(** The quotient of IEEE 754: [x / 0] is an infinity with the sign of [x],
    [0 / 0] and [inf / inf] are [nan], a number over an infinity is 0. *)
Definition fdiv (x y : float64) : float64 :=
  match x, y with
  | NaN, _ | _, NaN => NaN
  | Finite a, Finite b =>
      if b != 0 then Finite (a / b)
      else if a == 0 then NaN else if 0 < a then Inf else NegInf
  | Finite _, _ => Finite 0
  | Inf, Finite b => if 0 <= b then Inf else NegInf
  | NegInf, Finite b => if 0 <= b then NegInf else Inf
  | _, _ => NaN
  end.

(** The product of IEEE 754: [0 * inf] is [nan]. *)
Definition fmul (x y : float64) : float64 :=
  match x, y with
  | NaN, _ | _, NaN => NaN
  | Finite a, Finite b => Finite (a * b)
  | Finite a, Inf | Inf, Finite a =>
      if a == 0 then NaN else if 0 < a then Inf else NegInf
  | Finite a, NegInf | NegInf, Finite a =>
      if a == 0 then NaN else if 0 < a then NegInf else Inf
  | Inf, Inf | NegInf, NegInf => Inf
  | _, _ => NegInf
  end.

(** [np.abs] *)
Definition fabs (x : float64) : float64 :=
  match x with
  | Finite a => Finite `|a|
  | NaN => NaN
  | _ => Inf
  end.

(** The smaller of two values; [nan] propagates, as in [np.minimum]. *)
Definition fmin (x y : float64) : float64 :=
  match x, y with
  | NaN, _ | _, NaN => NaN
  | NegInf, _ | _, NegInf => NegInf
  | Inf, z | z, Inf => z
  | Finite a, Finite b => Finite (Num.min a b)
  end.

(** [np.divide(a, b)] and [a * b] on arrays of floating-point values: no
    exception on a zero divisor. *)
Definition np_divide (a b : seq float64) : result (seq float64) :=
  map2 NaN fdiv a b.

Definition np_multiply (a b : seq float64) : result (seq float64) :=
  map2 NaN fmul a b.

(** [np.isclose(a, b, atol=atol)] with the default [rtol = 1e-05], and
    [np.allclose(A, B)] with the defaults [rtol = 1e-05], [atol = 1e-08]:
    [|a - b| <= atol + rtol * |b|], entry by entry. *)
Definition rtol : R := (10 ^ 5)%:R^-1.
Definition atol : R := (10 ^ 8)%:R^-1.

Definition isclose (tol a b : R) : bool := `|a - b| <= tol + rtol * `|b|.

Definition allclose (p q : nat) (A B : 'M[R]_(p, q)) : bool :=
  [forall i, forall j, isclose atol (A i j) (B i j)].

(** [np.add.at(a, idx, vals)]: unbuffered [a[idx] += vals]; the values are
    broadcast to the shape of the indices. *)
Definition add_at (a : seq R) (idx : seq nat) (vals : seq R) : result (seq R) :=
  do vs <- broadcast_to 0 vals (size idx);
  if all (fun i => (i < size a)%N) idx
  then Ok (foldl (fun acc p => set_nth 0 acc p.1 (nth 0 acc p.1 + p.2))
                 a (zip idx vs))
  else Raise IndexError.

(** [np.amin(a)]: [ValueError] on an empty array; [nan] when an entry is
    [nan]. *)
Definition amin (a : seq float64) : result float64 :=
  if a is x :: a' then Ok (foldr fmin x a') else Raise ValueError.

End Arith.

Arguments fdiv : simpl never.
Arguments fmul : simpl never.
Arguments fabs : simpl never.
Arguments fmin : simpl never.

(** ** SciPy sparse matrices

    A sparse matrix is its shape and its coordinate list; an entry of the
    matrix is the sum of the stored values at that coordinate, as SciPy sums
    duplicates. *)

Section Sparse.

Variable R : realFieldType.

Definition triplet : Type := (nat * nat * R)%type.

Record spmatrix : Type := SpMatrix {
  nrows : nat;
  ncols : nat;
  entries : seq triplet
}.

Definition coeff (M : spmatrix) (i j : nat) : R :=
  \sum_(e <- entries M | (e.1.1 == i) && (e.1.2 == j)) e.2.

(** [sps.csr_matrix((n, n))]: the empty matrix of a given shape. *)
Definition sp_zeros (r c : nat) : spmatrix := SpMatrix r c [::].

(** [sps.csr_matrix((data, (I, J)))]: the shape is inferred from the largest
    indices; SciPy refuses to infer it from empty index arrays. *)
Definition csr_matrix (t : seq triplet) : result spmatrix :=
  if t is [::] then Raise ValueError
  else Ok (SpMatrix (\max_(e <- t) e.1.1).+1 (\max_(e <- t) e.1.2).+1 t).

(** [sps.coo_matrix((data, (row, col)), shape=(r, c))]: the three arrays
    must have one length and every index must lie inside the shape. *)
Definition coo_matrix (data : seq R) (row col : seq nat) (r c : nat) :
  result spmatrix :=
  if (size row != size data) || (size col != size data) then Raise ValueError
  else if all (fun i => (i < r)%N) row && all (fun j => (j < c)%N) col
  then Ok (SpMatrix r c (zip (zip row col) data))
  else Raise ValueError.

(** [sps.dia_matrix((diag, 0), shape=(r, c))]: the main diagonal is read from
    the front of [diag]; entries beyond the shape are ignored. *)
Definition dia_matrix (diag : seq R) (r c : nat) : spmatrix :=
  SpMatrix r c [seq (i, i, nth 0 diag i)
               | i <- iota 0 (minn (size diag) (minn r c))].

(** [sps.linalg.norm(M, np.inf)]: the largest absolute row sum. *)
Definition norm_inf (M : spmatrix) : R :=
  \big[Num.max/0]_(i < nrows M) \sum_(j < ncols M) `|coeff M i j|.

(** [M[idx, :] *= 0]: the selected rows are read ([IndexError] when a row
    does not exist), scaled by zero and written back. *)
Definition zero_rows (M : spmatrix) (idx : seq nat) : result spmatrix :=
  if all (fun i => (i < nrows M)%N) idx
  then Ok (SpMatrix (nrows M) (ncols M)
             [seq e <- entries M | e.1.1 \notin idx])
  else Raise IndexError.

(** [M[idx, idx] = v]: the entries [(i, i)], [i] in [idx], are overwritten. *)
Definition set_diag (M : spmatrix) (idx : seq nat) (v : R) : result spmatrix :=
  if all (fun i => (i < nrows M)%N && (i < ncols M)%N) idx
  then Ok (SpMatrix (nrows M) (ncols M)
             ([seq (i, i, v) | i <- idx] ++
              [seq e <- entries M | ~~ ((e.1.1 == e.1.2) && (e.1.1 \in idx))]))
  else Raise IndexError.

End Sparse.

(** ** The per-cell kernel [PrimalVEM.stiffH1] *)

Module PrimalVEM.

Section StiffH1.

Variable R : realFieldType.

(** [d = coord.shape[0]], [n = coord.shape[1]] (the nodes of the cell) and
    [m] the number of faces of the cell. *)
Variables (d n m : nat).

Variable c_center : 'rV[R]_d.
Variable c_volume : R.
Variable normals : 'M[R]_(d, m).
Variable diam : R.
Variable coord : 'M[R]_(d, n).
Variable node_faces : 'M[bool]_(n, m).

(** [mono = np.r_[[lambda _: 1], [lambda pt, i=i: (pt[i] - c_center[i])/diam
    for i in np.arange(dim)]]] *)
Definition mono (k : 'I_(1 + d)) (pt : 'cV[R]_d) : R :=
  match split k with
  | inl _ => 1
  | inr i => (pt i ord0 - c_center ord0 i) / diam
  end.

(** [grad = np.block([[np.zeros(dim)], [np.eye(num_mono-1)/diam]])] *)
Definition grad : 'M[R]_(1 + d, d) :=
  col_mx (0 : 'rV[R]_d) (diam^-1 *: 1%:M).

(** [D = np.array([[m(c) for m in mono] for c in coord.T])] *)
Definition matD : 'M[R]_(n, 1 + d) :=
  \matrix_(j, k) mono k (col j coord).

(** [Gtilde = np.zeros((num_mono, num_mono));
     Gtilde[1:, 1:] = np.dot(grad[1:, :], grad[1:, :].T)*c_volume] *)
Definition Gtilde : 'M[R]_(1 + d) :=
  block_mx 0 0 0 (c_volume *: (dsubmx grad *m (dsubmx grad)^T)).

(** [G = Gtilde.copy(); G[0, :] = D.sum(axis=0)/num_nodes] *)
Definition matG : 'M[R]_(1 + d) :=
  col_mx (n%:R^-1 *: \sum_j row j matD) (dsubmx Gtilde).

(** [prod = np.dot(grad[1:, :], normals)/2.**(dim-1)] *)
Definition prod : 'M[R]_(d, m) :=
  (2%:R ^ (d%:Z - 1))^-1 *: (dsubmx grad *m normals).

(** [F = np.zeros((num_mono, num_nodes));
     F[0, :] = np.ones(num_nodes)/num_nodes;
     F[i, j] = np.sum(prod[i-1, node_faces[j, :]])] for [1 <= i < num_mono] *)
Definition matF : 'M[R]_(1 + d, n) :=
  col_mx (const_mx (1 / n%:R))
         (\matrix_(i, j) \sum_(f < m | node_faces j f) prod i f).

(** NumPy divides by zero without raising: the quotient is [inf] or [nan].
    With [num_nodes = 0] the row [G[0, :]] is [0./0 = nan].  With [diam = 0]
    and [dim > 0] the entries of [grad], [D] and [prod] are [inf] or [nan],
    and row 1 of [np.dot(F, D)] holds a [nan], or an infinite value where
    [G[1, 0]] is 0.  In both cases [np.allclose] answers [False]. *)
Definition has_nan : bool := (n == 0%N) || ((0 < d)%N && (diam == 0)).

(** [assert np.allclose(G, np.dot(F, D))] *)
Definition consistent : bool := ~~ has_nan && allclose matG (matF *m matD).

(** [np.linalg.solve(G, F)]: the solution of [G X = F], [LinAlgError] when
    [G] is singular. *)
Definition linalg_solve (p q : nat) (A : 'M[R]_p) (B : 'M[R]_(p, q)) :
  result 'M[R]_(p, q) :=
  if A \in unitmx then Ok (invmx A *m B) else Raise LinAlgError.

(** local H1-stiff matrix:
    [np.dot(Pi_s.T, np.dot(Gtilde, Pi_s)) + np.dot(I_Pi.T, I_Pi)] *)
Definition stiffH1_local : result 'M[R]_n :=
  do _ <- assert consistent;
  do Pi_s <- linalg_solve matG matF;
  let I_Pi := 1%:M - matD *m Pi_s in
  Ok (Pi_s^T *m (Gtilde *m Pi_s) + I_Pi^T *m I_Pi).

End StiffH1.

(** [def stiffH1(self, K, c_center, c_volume, normals, diam, coord,
    node_faces)]: the permeability [K] is received and never read. *)
Definition stiffH1 (R : realFieldType) (kd d n m : nat) (K : 'M[R]_kd)
    (c_center : 'rV[R]_d) (c_volume : R) (normals : 'M[R]_(d, m)) (diam : R)
    (coord : 'M[R]_(d, n)) (node_faces : 'M[bool]_(n, m)) : result 'M[R]_n :=
  stiffH1_local c_center c_volume normals diam coord node_faces.

(** ** The per-cell kernel [PrimalVEM.massH1] *)

(** The outcome of a call that can also stop on a name that is not bound:
    [NameError] is raised by none of the other methods. *)
Inductive outcome (T : Type) : Type :=
  | Returns of T
  | Raises of exn
  | NameError.

Arguments Raises {T} e.
Arguments NameError {T}.

(** [def massH1(self, K, c_center, c_volume, normals, diam, coord,
    node_faces)]: the statements of [stiffH1] up to [I_Pi]; the return
    expression [np.dot(Pi_s.T, np.dot(H, Pi_s)) + c_volume*np.dot(I_Pi.T,
    I_Pi)] then reads [H], a name bound neither in the method nor in the
    module. *)
Definition massH1 (R : realFieldType) (kd d n m : nat) (K : 'M[R]_kd)
    (c_center : 'rV[R]_d) (c_volume : R) (normals : 'M[R]_(d, m)) (diam : R)
    (coord : 'M[R]_(d, n)) (node_faces : 'M[bool]_(n, m)) :
  outcome 'M[R]_n :=
  match (do _ <- assert (consistent c_center c_volume normals diam coord
                                    node_faces);
         linalg_solve (matG c_center c_volume diam coord)
                      (matF normals diam node_faces)) with
  | Ok Pi_s => NameError
  | Raise e => Raises e
  end.

(** The blocks of the local matrices and the quadratic form of a matrix, as
    the properties of the kernel are stated with them: [D = (1 | matDr)],
    [F = (matF0 / matF1)], [Gtilde = diag(0, gcoef I)]. *)
Section Blocks.

Variable R : realFieldType.
Variables (d n m : nat).
Variable c_center : 'rV[R]_d.
Variable c_volume : R.
Variable normals : 'M[R]_(d, m).
Variable diam : R.
Variable coord : 'M[R]_(d, n).
Variable node_faces : 'M[bool]_(n, m).

Definition matDr : 'M[R]_(n, d) :=
  \matrix_(j, i) ((coord i j - c_center ord0 i) / diam).

Definition matF0 : 'rV[R]_n := const_mx (1 / n%:R).

Definition matF1 : 'M[R]_(d, n) :=
  \matrix_(i, j) \sum_(f < m | node_faces j f) prod normals diam i f.

Definition gcoef : R := c_volume * (diam^-1 * diam^-1).

Definition quad (p : nat) (A : 'M[R]_p) (v : 'cV[R]_p) : R :=
  (v^T *m A *m v) ord0 ord0.

Definition e0 : 'cV[R]_(1 + d) := col_mx 1%:M 0.

End Blocks.

(** ** Global assembly: [PrimalVEM.matrix], [rhs] and [matrix_rhs] *)

Section Assembly.

Variable R : realFieldType.

(** [d] is the number of rows of the arrays returned by [cg.map_grid]; [kd]
    is the size of the permeability block of a cell. *)
Variables (d kd : nat).

(** The grid, as the methods read it.  [cell_faces] lists, cell by cell, the
    pairs (face, orientation sign) that [sps.find(g.cell_faces)] returns once
    sorted by cell; [cell_nodes] and [face_nodes] are the columns of
    [g.cell_nodes()] and [g.face_nodes]; [c_centers], [f_normals] and
    [node_coords] are the columns of the arrays returned by
    [cg.map_grid(g)]. *)
Record grid : Type := Grid {
  dim : nat;
  num_nodes : nat;
  num_cells : nat;
  cell_faces : seq (seq (nat * R));
  cell_nodes : seq (seq nat);
  face_nodes : seq (seq nat);
  cell_volumes : seq R;
  cell_diameters : seq R;
  c_centers : seq 'rV[R]_d;
  f_normals : seq 'cV[R]_d;
  node_coords : seq 'cV[R]_d
}.

(** [bc.is_dir] *)
Record boundary_condition : Type := BoundaryCondition {
  is_dir : seq bool
}.

(** [data['param']]: [get_source], [get_bc] and [get_bc_val] (either of the
    last two may be [None]), [get_aperture], and the tensor [k.perm] after
    the rotation into the tangential frame, one block per cell. *)
Record parameters : Type := Parameters {
  source : seq R;
  bc : option boundary_condition;
  bc_val : option (seq R);
  aperture : seq R;
  perm : seq 'M[R]_kd
}.

(** [ndof]: the number of nodes (the argument is always a [grid.Grid]
    here, so the [ValueError] branch is not reached). *)
Definition ndof (g : grid) : nat := num_nodes g.

Section Cell.

Variables (g : grid) (c : nat).

(** [faces[loc]], [sign[loc]] and [nodes[loc]] for the cell [c] *)
Definition faces_loc : seq (nat * R) := nth [::] (cell_faces g) c.
Definition nodes_loc : seq nat := nth [::] (cell_nodes g) c.

(** [normals = sign[loc]*f_normals[:, faces_loc]] *)
Definition cell_normals : 'M[R]_(d, size faces_loc) :=
  \matrix_(i, f) ((nth (0%N, 0) faces_loc f).2
                  * nth 0 (f_normals g) (nth (0%N, 0) faces_loc f).1 i ord0).

(** [node_coords[:, nodes_loc]] *)
Definition cell_coord : 'M[R]_(d, size nodes_loc) :=
  \matrix_(i, j) nth 0 (node_coords g) (nth 0%N nodes_loc j) i ord0.

(** [nodes_map = dict(zip(nodes_loc, np.arange(nodes_loc.size)))]: a node
    that occurs twice keeps its last position. *)
Definition nodes_map (x : nat) : option nat :=
  if x \in nodes_loc
  then Some ((size nodes_loc).-1 - index x (rev nodes_loc))%N
  else None.

(** [node_faces[nodes_l, f_loc] = True] for the nodes of each face *)
Definition cell_node_faces : 'M[bool]_(size nodes_loc, size faces_loc) :=
  \matrix_(j, f)
    has (fun x => nodes_map x == Some (j : nat))
        (nth [::] (face_nodes g) (nth (0%N, 0) faces_loc f).1).

(** The look-ups of the loop body that can fail: [nodes_map[n]] raises
    [KeyError] for a node of a face that is not a node of the cell, an index
    outside an array raises [IndexError]. *)
Definition cell_lookups : result unit :=
  if ~~ all (fun fs => (fs.1 < size (face_nodes g))%N
                       && (fs.1 < size (f_normals g))%N) faces_loc
  then Raise IndexError
  else if ~~ all (fun fs => all (fun x => x \in nodes_loc)
                                (nth [::] (face_nodes g) fs.1)) faces_loc
  then Raise KeyError
  else if [&& all (fun x => (x < size (node_coords g))%N) nodes_loc,
              (c < size (c_centers g))%N, (c < size (cell_volumes g))%N &
              (c < size (cell_diameters g))%N]
  then Ok tt
  else Raise IndexError.

End Cell.

(** The body of the loop [for c in np.arange(g.num_cells)]: the local matrix
    [A] of the cell and its entries [(I, J, dataIJ)], row by row. *)
Definition cell_triplets (g : grid) (p : parameters) (c : nat) :
  result (seq (triplet R)) :=
  do _ <- cell_lookups g c;
  do _ <- (if (c < size (aperture p))%N && (c < size (perm p))%N
           then Ok tt else Raise IndexError);
  do A <- stiffH1 (nth 0 (aperture p) c *: nth 0 (perm p) c)
                  (nth 0 (c_centers g) c) (nth 0 (cell_volumes g) c)
                  (cell_normals g c) (nth 0 (cell_diameters g) c)
                  (cell_coord g c) (cell_node_faces g c);
  Ok (allpairs (fun i j : 'I_(size (nodes_loc g c)) =>
                  (nth 0%N (nodes_loc g c) i, nth 0%N (nodes_loc g c) j, A i j))
               (enum 'I_(size (nodes_loc g c)))
               (enum 'I_(size (nodes_loc g c)))).

(** The loop over the cells, then [M = sps.csr_matrix((dataIJ, (I, J)))]. *)
Fixpoint loop_cells (g : grid) (p : parameters) (cells : seq nat) :
  result (seq (triplet R)) :=
  if cells is c :: cells'
  then do t <- cell_triplets g p c;
       do ts <- loop_cells g p cells';
       Ok (t ++ ts)
  else Ok [::].

Definition assemble (g : grid) (p : parameters) : result (spmatrix R) :=
  do t <- loop_cells g p (iota 0 (num_cells g));
  csr_matrix t.

(** The Dirichlet nodes: the positions flagged in [bc.is_dir], none when
    there is no boundary condition object. *)
Definition dirichlet (p : parameters) : seq nat :=
  if bc p is Some b then np_where (is_dir b) else [::].

(** [def matrix(self, g, data, bc_weight=False)]: the matrix, and the weight
    when [bc_weight] is set. *)
Definition matrix (g : grid) (p : parameters) (bc_weight : bool) :
  result (spmatrix R * option R) :=
  if dim g == 0%N
  then Ok (sp_zeros R (ndof g) (ndof g), if bc_weight then Some 1 else None)
  else
    do M <- assemble g p;
    let norm := if bc_weight then norm_inf M else 1 in
    do M <- match bc p with
            | Some b =>
                if np_any (is_dir b)
                then let is_dir := np_where (is_dir b) in
                     do M0 <- zero_rows M is_dir;
                     set_diag M0 is_dir norm
                else Ok M
            | None => Ok M
            end;
    Ok (M, if bc_weight then Some norm else None).

(** [def rhs(self, g, data, bc_weight=1)] *)
Definition rhs (g : grid) (p : parameters) (bc_weight : R) : result (seq R) :=
  if dim g == 0%N then Ok (source p)
  else
    do _ <- assert (~~ (~~ isSome (bc p) != ~~ isSome (bc_val p)));
    let rhs0 := nseq (ndof g) 0 in
    match bc p, bc_val p with
    | None, _ => Ok rhs0
    | Some b, Some v =>
        if np_any (is_dir b)
        then do vals <- take_idx 0 v (np_where (is_dir b));
             set_idx 0 rhs0 (np_where (is_dir b))
                     [seq bc_weight * x | x <- vals]
        else Ok rhs0
    | Some b, None => Raise TypeError
    end.

(** [def matrix_rhs(self, g, data)] *)
Definition matrix_rhs (g : grid) (p : parameters) :
  result (spmatrix R * seq R) :=
  do Mw <- matrix g p true;
  do b <- rhs g p (odflt 1 Mw.2);
  Ok (Mw.1, b).

End Assembly.

End PrimalVEM.

(** ** The interface coupling [UpwindCoupling] *)

Module UpwindCoupling.

Section Coupling.

Variable R : realFieldType.

(** The grid, as the two methods read it: [cell_faces] is the list of the
    entries (face, cell, sign) of the sparse matrix [g.cell_faces] in the
    order of [sps.find], that is by cell and then by face. *)
Record grid : Type := Grid {
  dim : nat;
  num_cells : nat;
  num_faces : nat;
  cell_faces : seq (nat * nat * R);
  face_areas : seq R
}.

(** [data_edge]: the flux [beta_n] (possibly [None]) and the rows and
    columns of the entries of [data_edge['face_cells']] as [sps.find]
    returns them. *)
Record edge_data : Type := EdgeData {
  beta_n : option (seq R);
  face_cells : seq (nat * nat)
}.

(** [data_h] and [data_l]: the optional keys ['a'] and ['phi']. *)
Record grid_data : Type := GridData {
  a : option (seq R);
  phi : option (seq R)
}.

(** The four blocks of [cc]. *)
Record block_matrix : Type := BlockMatrix {
  cc00 : spmatrix R;
  cc01 : spmatrix R;
  cc10 : spmatrix R;
  cc11 : spmatrix R
}.

(** [self.solver.ndof], used by [create_block_matrix] for the shape of the
    blocks. *)
Variable ndof : grid -> nat.

(** [faces, _, sgn = sps.find(g.cell_faces);
     sgn = sgn[np.unique(faces, return_index=True)[1]]] *)
Definition face_signs (g : grid) : seq R :=
  let faces := [seq e.1.1 | e <- cell_faces g] in
  let sgn := [seq e.2 | e <- cell_faces g] in
  [seq nth 0 sgn i | i <- unique_index faces].

(** [g.cell_faces.tocsr()[faces, :].nonzero()[1]]: the cells of the selected
    faces, face after face. *)
Definition cells_of_faces (g : grid) (faces : seq nat) : result (seq nat) :=
  if all (fun f => (f < num_faces g)%N) faces
  then Ok (flatten [seq [seq e.1.2 | e <- cell_faces g & e.1.1 == f]
                   | f <- faces])
  else Raise IndexError.

(** [sgn[faces] * beta_n[faces_h]] *)
Definition signed_flux (sgn b : seq R) (faces faces_h : seq nat) :
  result (seq R) :=
  do s <- take_idx 0 sgn faces;
  do q <- take_idx 0 b faces_h;
  zip_with *%R s q.

(** The orientation-corrected flux at the face [f_h] of the higher grid:
    the entry of [sgn[faces_h] * beta_n[faces_h]] for that face. *)
Definition pair_flux (g_h : grid) (b : seq R) (f_h : nat) : R :=
  nth 0 (face_signs g_h) f_h * nth 0 b f_h.

(** [np.sign(q.clip(min=0)) * q] and [np.sign(q.clip(max=0)) * q] *)
Definition outflow (q : R) : R := Num.sg (clip_min0 q) * q.
Definition inflow (q : R) : R := Num.sg (clip_max0 q) * q.

(** [def matrix_rhs(self, g_h, g_l, data_h, data_l, data_edge)] *)
Definition matrix_rhs (g_h g_l : grid) (data_h data_l : grid_data)
    (data_edge : edge_data) : result block_matrix :=
  do b <- (if beta_n data_edge is Some b then Ok b else Raise AssertionError);
  let dof := (ndof g_h, ndof g_l) in
  do diags_offs <-
    (if dim g_h == dim g_l then
       let faces_h := [seq e.1 | e <- face_cells data_edge] in
       let faces_l := [seq e.2 | e <- face_cells data_edge] in
       do beta_n_h <- signed_flux (face_signs g_h) b faces_h faces_h;
       do beta_n_l <- signed_flux (face_signs g_l) b faces_l faces_h;
       do cells_h <- cells_of_faces g_h faces_h;
       do cells_l <- cells_of_faces g_l faces_l;
       let diag_cc11 := nseq (num_cells g_l) 0 in
       do diag_cc11 <- add_at diag_cc11 cells_l [seq outflow q | q <- beta_n_l];
       let diag_cc00 := nseq (num_cells g_h) 0 in
       (* line 69 of the source: [np.add.at(diag_cc11, cells_h, ...)] *)
       do diag_cc11 <- add_at diag_cc11 cells_h [seq outflow q | q <- beta_n_h];
       do c10 <- coo_matrix [seq clip_max0 q | q <- beta_n_l] cells_l cells_h
                            dof.2 dof.1;
       do c01 <- coo_matrix [seq clip_max0 q | q <- beta_n_h] cells_h cells_l
                            dof.1 dof.2;
       Ok (diag_cc00, diag_cc11, c10, c01)
     else
       let cells_l := [seq e.1 | e <- face_cells data_edge] in
       let faces_h := [seq e.2 | e <- face_cells data_edge] in
       do beta_n <- signed_flux (face_signs g_h) b faces_h faces_h;
       do cells_h <- cells_of_faces g_h faces_h;
       let diag_cc11 := nseq (num_cells g_l) 0 in
       do diag_cc11 <- add_at diag_cc11 cells_l [seq inflow q | q <- beta_n];
       let diag_cc00 := nseq (num_cells g_h) 0 in
       do diag_cc00 <- add_at diag_cc00 cells_h [seq outflow q | q <- beta_n];
       do c10 <- coo_matrix [seq - clip_min0 q | q <- beta_n] cells_l cells_h
                            dof.2 dof.1;
       do c01 <- coo_matrix [seq clip_max0 q | q <- beta_n] cells_h cells_l
                            dof.1 dof.2;
       Ok (diag_cc00, diag_cc11, c10, c01));
  let: (diag_cc00, diag_cc11, c10, c01) := diags_offs in
  Ok (BlockMatrix (dia_matrix diag_cc00 dof.1 dof.1) c01 c10
                  (dia_matrix diag_cc11 dof.2 dof.2)).

(** The value of [cfl]: a floating-point value, [np.inf] when there is no
    flux. *)
Definition time_step : Type := float64 R.

(** [data.get(key, np.ones(n))] *)
Definition get_default (v : option (seq R)) (n : nat) : seq R :=
  if v is Some x then x else nseq n 1.

(** [def cfl(self, g_h, g_l, data_h, data_l, data_edge)] *)
Definition cfl (g_h g_l : grid) (data_h data_l : grid_data)
    (data_edge : edge_data) : result time_step :=
  do b <- (if beta_n data_edge is Some b then Ok b else Raise TypeError);
  let cells_l := [seq e.1 | e <- face_cells data_edge] in
  let faces_h := [seq e.2 | e <- face_cells data_edge] in
  do bf <- take_idx 0 b faces_h;
  let not_zero := [seq ~~ isclose 0 0 x | x <- bf] in
  if ~~ np_any not_zero then Ok (Inf R)
  else
    do cells_l <- take_mask cells_l not_zero;
    do faces_h <- take_mask faces_h not_zero;
    do cells_h <- cells_of_faces g_h faces_h;
    (* line 152 of the source: [cell_faces_h.nonzero()[1][not_zero]] *)
    do cells_h <- take_mask cells_h not_zero;
    do apertures_h <-
      take_idx 0 (get_default (a data_h) (num_cells g_h)) cells_h;
    do apertures_l <-
      take_idx 0 (get_default (a data_l) (num_cells g_l)) cells_l;
    do phi_l <-
      take_idx 0 (get_default (phi data_l) (num_cells g_l)) cells_l;
    do ratio <- np_divide (floats apertures_l) (floats apertures_h);
    let dist := [seq fmul (Finite 2%:R^-1) x | x <- ratio] in
    do bf <- take_idx 0 b faces_h;
    do areas <- take_idx 0 (face_areas g_h) faces_h;
    do den <- zip_with *%R areas apertures_h;
    do beta <- np_divide (floats bf) (floats den);
    do quot <- np_divide dist beta;
    do scaled <- np_multiply [seq fabs x | x <- quot] (floats phi_l);
    amin scaled.

End Coupling.

End UpwindCoupling.

(** ** A concrete cell and a concrete grid *)

Module Interval.
Import PrimalVEM.

Section Cell.

Variable R : realFieldType.

(** A one-dimensional cell: the interval [0, 1] with its two end points as
    nodes and as faces, centre 1/2, diameter 1.  [s = 1] is the regular cell
    (outward normals [-1] and [1], volume 1); [s = -1] has the normals
    pointing inward and the volume [-1]. *)
Definition coord : 'M[R]_(1, 2) := \row_(j < 2) j%:R.
Definition c_center : 'rV[R]_1 := const_mx (1 / 2%:R).
Definition normals (s : R) : 'M[R]_(1, 2) :=
  \row_(f < 2) (if f == 0%N :> nat then - s else s).
Definition node_faces : 'M[bool]_(2, 2) := \matrix_(j, f) (j == f :> nat).

(** The normals of the regular cell with the right one longer by the absolute
    tolerance of [np.allclose]: [-1] and [1 + 1e-8]. *)
Definition normals_tol : 'M[R]_(1, 2) :=
  \row_(f < 2) (if f == 0%N :> nat then - 1 else 1 + atol R).
Definition K : 'M[R]_1 := 1%:M.

(** The grid made of this cell alone, as [PrimalVEM.matrix] reads it, with a
    Dirichlet condition of value 5 at the node 0. *)
Definition g1 : grid R 1 :=
  Grid 1 2 1
       [:: [:: (0%N, -1); (1%N, 1)]]
       [:: [:: 0%N; 1%N]]
       [:: [:: 0%N]; [:: 1%N]]
       [:: 1] [:: 1]
       [:: const_mx (1 / 2%:R)]
       [:: const_mx 1; const_mx 1]
       [:: const_mx 0; const_mx 1].

Definition p1 : parameters R 1 :=
  Parameters [:: 0] (Some (BoundaryCondition [:: true; false]))
             (Some [:: 5%:R; 0]) [:: 1] [:: 1%:M].

(** The same parameters without the boundary values. *)
Definition p1_no_values : parameters R 1 :=
  Parameters [:: 0] (Some (BoundaryCondition [:: true; false]))
             None [:: 1] [:: 1%:M].

(** A grid of dimension 0: one point. *)
Definition g0 : grid R 1 :=
  Grid 0 1 1 [:: [::]] [:: [:: 0%N]] [::] [:: 1] [:: 0] [::] [::] [::].

Definition p0_no_values : parameters R 1 :=
  Parameters [:: 7%:R] (Some (BoundaryCondition [:: true])) None
             [:: 1] [:: 1%:M].

(** The parameters of the one-cell grid without boundary conditions, and
    with a source term that is not zero. *)
Definition p1_free : parameters R 1 :=
  Parameters [:: 0] None None [:: 1] [:: 1%:M].

Definition p1_source : parameters R 1 :=
  Parameters [:: 3%:R; 4%:R] (Some (BoundaryCondition [:: true; false]))
             (Some [:: 5%:R; 0]) [:: 2%:R] [:: 1%:M].

(** The interval [[x0, x0 + h]]: centre [x0 + h/2]; as a cell of a
    one-dimensional grid it has the volume and the diameter [h]. *)
Definition coord_at (x0 h : R) : 'M[R]_(1, 2) := \row_(j < 2) (x0 + j%:R * h).
Definition center_at (x0 h : R) : 'rV[R]_1 := const_mx (x0 + h / 2%:R).

End Cell.

End Interval.

Module Rectangle.
Import PrimalVEM.

Section Cell.

Variable R : realFieldType.

(** A two-dimensional cell: the rectangle [[0, 3] x [0, 4]], nodes (0, 0),
    (3, 0), (3, 4), (0, 4) in this order, face [f] from the node [f] to the
    next one, centre (3/2, 2), area 12, diameter 5; the normals point
    outward and have the lengths of the faces. *)
Definition coord : 'M[R]_(2, 4) :=
  \matrix_(i, j) (if (i : nat) == 0%N
                  then (if ((j : nat) == 1%N) || ((j : nat) == 2%N)
                        then 3%:R else 0)
                  else (if ((j : nat) == 2%N) || ((j : nat) == 3%N)
                        then 4%:R else 0)).

Definition c_center : 'rV[R]_2 :=
  \row_i (if (i : nat) == 0%N then 3%:R / 2%:R else 2%:R).

Definition normals : 'M[R]_(2, 4) :=
  \matrix_(i, f) (if (i : nat) == 0%N
                  then (if (f : nat) == 1%N then 4%:R
                        else if (f : nat) == 3%N then - 4%:R else 0)
                  else (if (f : nat) == 0%N then - 3%:R
                        else if (f : nat) == 2%N then 3%:R else 0)).

Definition node_faces : 'M[bool]_(4, 4) :=
  \matrix_(j, f) (((f : nat) == j) || ((f : nat) == (j + 3) %% 4)%N).

Definition c_volume : R := 12%:R.
Definition diam : R := 5%:R.
Definition K : 'M[R]_2 := 1%:M.

End Cell.

End Rectangle.

(** ** Concrete interfaces *)

Module Scenario.
Import UpwindCoupling.

Section Inputs.

Variable R : realFieldType.

Definition no_data : grid_data R := GridData None None.

(** Two intervals that meet at a point: the right end (face 1) of the left
    interval [left] is matched with the left end (face 0) of the right
    interval [right]; the flux through the matched face of [left] is 2. *)
Definition left : grid R :=
  Grid 1 1 2 [:: (0%N, 0%N, -1); (1%N, 0%N, 1)] [:: 1; 1].
Definition right : grid R :=
  Grid 1 1 2 [:: (0%N, 0%N, -1); (1%N, 0%N, 1)] [:: 1; 1].
Definition meet : edge_data R := EdgeData (Some [:: 0; 2%:R]) [:: (1%N, 0%N)].

(** A two-dimensional grid of two cells, each with one face on a fracture;
    the fracture is a one-dimensional grid of one cell. *)
Definition matrix2d : grid R :=
  Grid 2 2 2 [:: (0%N, 0%N, 1); (1%N, 1%N, -1)] [:: 1; 1].
Definition fracture : grid R := Grid 1 1 0 [::] [::].

(** Both faces are matched with the cell of the fracture. *)
Definition both_faces : seq (nat * nat) := [:: (0%N, 0%N); (0%N, 1%N)].

(** Flux through face 1 only, through both faces, through none, and through
    the face 0 alone. *)
Definition flux_one_face : edge_data R := EdgeData (Some [:: 0; 1]) both_faces.
Definition flux_none : edge_data R := EdgeData (Some [:: 0; 0]) both_faces.
Definition single_pair : edge_data R :=
  EdgeData (Some [:: 3%:R; 0]) [:: (0%N, 0%N)].

(** Flux through both faces: out of the cell 0 of the matrix grid (face 0,
    flux 3) and into its cell 1 (face 1, whose sign is -1, flux 2). *)
Definition flux_two_way : edge_data R :=
  EdgeData (Some [:: 3%:R; 2%:R]) both_faces.

(** The matrix grid with a face 0 of area 0, and a fracture of aperture 2
    and porosity 1/2. *)
Definition matrix2d_flat : grid R :=
  Grid 2 2 2 [:: (0%N, 0%N, 1); (1%N, 1%N, -1)] [:: 0; 1].
Definition porous : grid_data R :=
  GridData (Some [:: 2%:R]) (Some [:: 2%:R^-1]).

(** The data of the matrix grid when its cell 0 has the aperture 0. *)
Definition sealed : grid_data R := GridData (Some [:: 0; 1]) None.

End Inputs.

End Scenario.

(** * Properties of the array and sparse-matrix operations *)

Module SparseTheory.

Section Theory.

Variable R : realFieldType.

(** Entries of the sparse blocks. *)
Lemma coeff_single r c i j (v : R) :
  coeff (SpMatrix r c [:: (i, j, v)]) i j = v.
Proof. by rewrite /coeff /= big_cons big_nil /= !eqxx addr0. Qed.

Lemma sum_pred1_seq (s : seq nat) (F : nat -> R) i :
  uniq s -> i \in s -> \sum_(k <- s | k == i) F k = F i.
Proof.
move=> uniq_s i_s; rewrite big_mkcond (bigD1_seq i) //= eqxx big1 ?addr0 //.
by move=> k /negbTE->.
Qed.

Lemma coeff_dia (diag : seq R) r i :
  (i < size diag)%N -> (i < r)%N ->
  coeff (dia_matrix diag r r) i i = nth 0 diag i.
Proof.
move=> i_diag i_r; rewrite /coeff /dia_matrix /= big_map /=.
under eq_bigl => k do rewrite andbb.
rewrite sum_pred1_seq ?iota_uniq //.
by rewrite mem_iota /= add0n minnn leq_min i_diag.
Qed.

(** [np.where] lists the positions that hold [True], once each. *)
Lemma mem_np_where (b : seq bool) i : (i \in np_where b) = nth false b i.
Proof.
rewrite /np_where mem_filter mem_iota /= add0n.
by case: ltnP => [|le_b]; rewrite ?andbT // nth_default ?andbF.
Qed.

Lemma uniq_np_where (b : seq bool) : uniq (np_where b).
Proof. by rewrite filter_uniq ?iota_uniq. Qed.

(** A Dirichlet row after [M[idx, :] *= 0] and [M[idx, idx] = v]. *)
Lemma coeff_dirichlet (M M0 M1 : spmatrix R) (idx : seq nat) (v : R) i j :
  uniq idx -> i \in idx ->
  zero_rows M idx = Ok M0 -> set_diag M0 idx v = Ok M1 ->
  coeff M1 i j = if i == j then v else 0.
Proof.
move=> uniq_idx i_idx; rewrite /zero_rows /set_diag.
case: ifP => // _ [<-] /=; case: ifP => // _ [<-].
rewrite /coeff /= big_cat /= big_map /=.
set rest := (X in _ + X); have -> : rest = 0.
  apply: big1_seq => e /andP [/andP [/eqP e_i _]]; rewrite !mem_filter e_i.
  by rewrite i_idx /= andbF.
rewrite addr0.
case: (eqVneq i j) => [<-|i_neq_j].
  under eq_bigl => k do rewrite andbb.
  exact: sum_pred1_seq.
rewrite big1 // => k /andP [/eqP-> /eqP ij].
by rewrite ij eqxx in i_neq_j.
Qed.

(** Assignment through an index array without repetition. *)
Lemma nth_foldl_set_nth_notin (a : seq R) (idx : seq nat) (vals : seq R) i :
  i \notin idx ->
  nth 0 (foldl (fun acc p => set_nth 0 acc p.1 p.2) a (zip idx vals)) i
  = nth 0 a i.
Proof.
elim: idx vals a => [|k idx IH] [|v vals] a //=.
rewrite inE negb_or => /andP [i_neq_k i_notin].
by rewrite IH // nth_set_nth /= (negbTE i_neq_k).
Qed.

Lemma nth_set_idx (a b : seq R) (idx : seq nat) (vals : seq R) i :
  uniq idx -> i \in idx -> set_idx 0 a idx vals = Ok b ->
  nth 0 b i = nth 0 vals (index i idx).
Proof.
rewrite /set_idx; case: eqP => //= size_vals uniq_idx i_idx.
case: ifP => // _ [<-].
elim: idx vals a size_vals uniq_idx i_idx => [|k idx IH] [|v vals] a //=.
case=> size_vals /andP [k_notin uniq_idx]; rewrite inE.
case: (eqVneq i k) => [-> _|i_neq_k /= i_idx].
  by rewrite nth_foldl_set_nth_notin // nth_set_nth /= eqxx.
exact: IH.
Qed.

End Theory.

End SparseTheory.

(** * Properties of the per-cell kernel *)

Module StiffTheory.
Import PrimalVEM.

Section Theory.

Variable R : realFieldType.
Variables (d n m : nat).
Variable c_center : 'rV[R]_d.
Variable c_volume : R.
Variable normals : 'M[R]_(d, m).
Variable diam : R.
Variable coord : 'M[R]_(d, n).
Variable node_faces : 'M[bool]_(n, m).

Local Notation D := (matD c_center diam coord).
Local Notation G := (matG c_center c_volume diam coord).
Local Notation F := (matF normals diam node_faces).
Local Notation Gt := (Gtilde d c_volume diam).
Local Notation e0 := (PrimalVEM.e0 R d).
Local Notation matDr := (PrimalVEM.matDr c_center diam coord).
Local Notation matF0 := (PrimalVEM.matF0 R n).
Local Notation matF1 := (PrimalVEM.matF1 normals diam node_faces).
Local Notation gcoef := (PrimalVEM.gcoef c_volume diam).
Local Notation ones := (const_mx 1 : 'cV[R]_n).

(** [Gtilde] is [gcoef] times the identity on the linear monomials. *)
Lemma Gtilde_scalar : Gt = block_mx 0 0 0 (c_volume * (diam^-1 * diam^-1))%:M.
Proof.
rewrite /Gtilde /grad col_mxKd; congr block_mx.
by rewrite -scalemxAl mul1mx scalemx1 tr_scalar_mx !scale_scalar_mx.
Qed.

Lemma trmx_Gtilde : Gt^T = Gt.
Proof. by rewrite Gtilde_scalar tr_block_mx !trmx0 tr_scalar_mx. Qed.

Lemma Gtilde_e0 : Gt *m e0 = 0.
Proof.
by rewrite Gtilde_scalar /e0 mul_block_col !mul0mx !mulmx0 !addr0 col_mx0.
Qed.

(** The first column of [D] is the constant nodal vector. *)
Lemma matD_e0 : D *m e0 = ones.
Proof.
rewrite -[D]hsubmxK /e0 mul_row_col mulmx0 addr0 mulmx1.
apply/matrixP=> j k; rewrite !mxE /mono.
by rewrite (unsplitK (inl k)).
Qed.

(** Quadratic forms of the two terms of the local matrix. *)
Lemma quad_sqr (p : nat) (S : 'M[R]_p) (v : 'cV[R]_p) :
  quad (S^T *m S) v = \sum_i ((S *m v) i ord0) ^+ 2.
Proof.
rewrite /quad mulmxA -trmx_mul -mulmxA mxE.
by apply: eq_bigr => i _; rewrite mxE expr2.
Qed.

Lemma quad_Gtilde (x : 'cV[R]_(1 + d)) :
  quad Gt x
  = c_volume * (diam^-1 * diam^-1) * \sum_i ((dsubmx x) i ord0) ^+ 2.
Proof.
rewrite /quad Gtilde_scalar -{1 2}[x]vsubmxK tr_col_mx -mulmxA mul_block_col.
rewrite !mul0mx !addr0 add0r mul_row_col mulmx0 add0r mul_scalar_mx.
rewrite -scalemxAr mxE; congr (_ * _); rewrite mxE.
by apply: eq_bigr => i _; rewrite !mxE expr2.
Qed.

(** Block form of the local matrices; row 0 of [G] and row 0 of [F D] are
    the same by construction, so that the consistency identity is about the
    rows of the linear monomials only. *)
Lemma matD_block : D = row_mx ones matDr.
Proof.
rewrite -[LHS]hsubmxK; congr row_mx; apply/matrixP=> j k; rewrite !mxE /mono.
  by rewrite (unsplitK (inl k)).
by rewrite (unsplitK (inr k)) !mxE.
Qed.

Lemma matG_row0 : n%:R^-1 *: \sum_j row j D = matF0 *m D.
Proof.
apply/matrixP=> i k; rewrite !mxE summxE big_distrr /=.
by apply: eq_bigr => j _; rewrite !mxE mul1r.
Qed.

Lemma matG_col : G = col_mx (matF0 *m D) (row_mx 0 gcoef%:M).
Proof.
by rewrite /matG matG_row0 Gtilde_scalar /block_mx col_mxKd.
Qed.

Lemma matFD_col :
  F *m D
  = col_mx (matF0 *m D) (row_mx (matF1 *m ones) (matF1 *m matDr)).
Proof. by rewrite /matF mul_col_mx -mul_mx_row -matD_block. Qed.

Lemma matG_eq_FD :
  (G == F *m D) = (matF1 *m ones == 0) && (matF1 *m matDr == gcoef%:M).
Proof.
rewrite matG_col matFD_col; apply/eqP/andP=> [/eq_col_mx [_]|].
  by case/eq_row_mx=> <- <-.
by case=> /eqP-> /eqP->.
Qed.

Lemma matF0_ones : (0 < n)%N -> matF0 *m ones = 1%:M :> 'M_1.
Proof.
move=> n_gt0; apply/matrixP=> i j; rewrite !ord1 !mxE eqxx /=.
under eq_bigr do rewrite !mxE mulr1.
rewrite sumr_const card_ord -[RHS](@divff _ n%:R) ?pnatr_eq0 -?lt0n //.
by rewrite div1r mulr_natl.
Qed.

(** [G] is block triangular: it is nonsingular when [gcoef] is not zero. *)
Lemma matG_unit : (0 < n)%N -> (G \in unitmx) = (d == 0%N) || (gcoef != 0).
Proof.
move=> n_gt0; rewrite matG_col matD_block mul_mx_row matF0_ones //.
rewrite -[col_mx _ _]/(block_mx _ _ _ _) unitmxE det_ublock det1 mul1r.
by rewrite det_scalar unitfE expf_eq0 negb_and lt0n negbK.
Qed.

(** The tolerance test accepts equal matrices. *)
Lemma allclose_refl (p q : nat) (A : 'M[R]_(p, q)) : allclose A A.
Proof.
apply/forallP=> i; apply/forallP=> j; rewrite /isclose subrr normr0.
by rewrite addr_ge0 ?mulr_ge0 ?invr_ge0 ?ler0n.
Qed.

(** A sufficient condition for the kernel to return. *)
Lemma stiffH1_accepts :
  (0 < n)%N -> ((0 < d)%N -> diam != 0) ->
  matF1 *m ones = 0 -> matF1 *m matDr = gcoef%:M ->
  (d == 0%N) || (gcoef != 0) ->
  exists A,
    stiffH1_local c_center c_volume normals diam coord node_faces = Ok A.
Proof.
move=> n_gt0 diam_neq0 F1o F1D g_neq0.
rewrite /stiffH1_local /consistent /has_nan /linalg_solve.
have /eqP <- : G == F *m D by rewrite matG_eq_FD F1o F1D !eqxx.
rewrite -[n == 0%N]negbK -lt0n n_gt0 allclose_refl /=.
have -> /= : (0 < d)%N && (diam == 0) = false.
  by case: (posnP d) => //= /diam_neq0 /negbTE.
by rewrite matG_unit // g_neq0 /=; eexists.
Qed.

(** What an accepted call has checked and computed. *)
Lemma stiffH1_OkE A :
  stiffH1_local c_center c_volume normals diam coord node_faces = Ok A ->
  [/\ (0 < n)%N, ((0 < d)%N -> diam != 0), allclose G (F *m D),
      G \in unitmx &
      A = (invmx G *m F)^T *m (Gt *m (invmx G *m F))
          + (1%:M - D *m (invmx G *m F))^T *m (1%:M - D *m (invmx G *m F))].
Proof.
rewrite /stiffH1_local /consistent /has_nan /linalg_solve.
case: eqP => [//|/eqP]; rewrite -lt0n => n_gt0.
case: (boolP ((0 < d)%N && _)) => //=; rewrite negb_and => /orP dm.
case: (boolP (allclose _ _)) => //= GFD; case: ifP => //= Gu [<-].
split=> // d_gt0.
by case: dm => //; rewrite d_gt0.
Qed.

Section Accepted.

Variable A : 'M[R]_n.

Hypothesis HA :
  stiffH1_local c_center c_volume normals diam coord node_faces = Ok A.

(** The consistency identity, when it holds exactly. *)
Hypothesis GFD : G = F *m D.

Local Notation Pi_s := (invmx G *m F).
Local Notation I_Pi := (1%:M - D *m Pi_s).

(** The projection is exact on the monomials. *)
Lemma Pi_matD : Pi_s *m D = 1%:M.
Proof.
by case: (stiffH1_OkE HA) => _ _ _ Gu _; rewrite -mulmxA -GFD mulVmx.
Qed.

Lemma stiffH1_val : A = Pi_s^T *m (Gt *m Pi_s) + I_Pi^T *m I_Pi.
Proof. by case: (stiffH1_OkE HA). Qed.

Lemma stiffH1_sym : A^T = A.
Proof.
rewrite stiffH1_val linearD /= !trmx_mul !trmxK trmx_Gtilde.
by rewrite !mulmxA.
Qed.

Lemma stiffH1_quad v :
  quad A v = quad Gt (Pi_s *m v) + \sum_i ((I_Pi *m v) i ord0) ^+ 2.
Proof.
rewrite -quad_sqr /quad stiffH1_val mulmxDr mulmxDl mxE; congr (_ + _).
by rewrite (trmx_mul Pi_s v) !mulmxA.
Qed.

(** On the nodal values of a polynomial the energy is the one of
    [Gtilde]. *)
Lemma stiffH1_quad_poly x : quad A (D *m x) = quad Gt x.
Proof.
rewrite stiffH1_quad; move: Pi_matD; move: (invmx G *m F) => P PD.
have Px : P *m (D *m x) = x by rewrite mulmxA PD mul1mx.
rewrite Px mulmxBl mul1mx -[D *m P *m _]mulmxA Px subrr big1 ?addr0 // => i _.
by rewrite mxE expr0n.
Qed.

Lemma stiffH1_ones : A *m ones = 0.
Proof.
rewrite -matD_e0 stiffH1_val; move: Pi_matD; move: (invmx G *m F) => P PD.
have Pe : P *m (D *m e0) = e0 by rewrite mulmxA PD mul1mx.
rewrite mulmxDl -!mulmxA mulmxBl mul1mx -[D *m P *m _]mulmxA Pe subrr.
by rewrite Gtilde_e0 !mulmx0 addr0.
Qed.

Lemma stiffH1_psd v : 0 <= c_volume -> 0 <= quad A v.
Proof.
move=> vol_ge0.
have s_ge0 (p : nat) (x : 'cV[R]_p) : 0 <= \sum_i (x i ord0) ^+ 2.
  by apply: sumr_ge0 => i _; exact: sqr_ge0.
have d_ge0 : 0 <= diam^-1 * diam^-1 by rewrite -expr2 sqr_ge0.
by rewrite stiffH1_quad quad_Gtilde addr_ge0 // mulr_ge0 // mulr_ge0.
Qed.

Lemma stiffH1_kernel (v : 'cV[R]_n) :
  0 < c_volume -> A *m v = 0 -> exists c, v = const_mx c.
Proof.
move=> vol_gt0 Av0.
have q0 : quad A v = 0 by rewrite /quad -mulmxA Av0 mulmx0 mxE.
have sq_ge0 (p : nat) (x : 'cV[R]_p) i : true -> 0 <= (x i ord0) ^+ 2.
  by move=> _; exact: sqr_ge0.
have g_ge0 : 0 <= c_volume * (diam^-1 * diam^-1).
  by rewrite mulr_ge0 ?(ltW vol_gt0) // -expr2 sqr_ge0.
have s_ge0 (p : nat) (x : 'cV[R]_p) : 0 <= \sum_i (x i ord0) ^+ 2.
  by apply: sumr_ge0 => i _; exact: sqr_ge0.
have q1_ge0 : 0 <= c_volume * (diam^-1 * diam^-1)
                   * \sum_i (dsubmx (Pi_s *m v) i ord0) ^+ 2.
  by rewrite mulr_ge0.
move/eqP: q0; rewrite stiffH1_quad quad_Gtilde paddr_eq0 //.
case/andP=> /eqP q1 /eqP q2.
have Sv0 : I_Pi *m v = 0.
  apply/matrixP=> i j; rewrite ord1 [RHS]mxE; apply/eqP; rewrite -sqrf_eq0.
  by apply/eqP; apply: (psumr_eq0P (sq_ge0 _ _) q2).
have x1 : dsubmx (Pi_s *m v) = 0.
  case: (posnP d) => [d0|d_gt0].
    by move: (Pi_s) => P; rewrite d0 in P *; rewrite flatmx0.
  case: (stiffH1_OkE HA) => _ /(_ d_gt0) diam_neq0 _ _ _.
  have g_neq0 : c_volume * (diam^-1 * diam^-1) != 0.
    by rewrite !mulf_neq0 ?invr_eq0 // gt_eqF.
  move/eqP: q1; rewrite mulf_eq0 (negbTE g_neq0) /= => /eqP q1.
  apply/matrixP=> i j; rewrite ord1 [RHS]mxE; apply/eqP; rewrite -sqrf_eq0.
  by apply/eqP; apply: (psumr_eq0P (sq_ge0 _ _) q1).
have vD : v = D *m (Pi_s *m v).
  by apply/eqP; rewrite -subr_eq0 mulmxA -{1}[v]mul1mx -mulmxBl Sv0.
move: x1 vD; move: (Pi_s *m v) => x x1 vD.
pose c := x ord0 ord0; exists c.
have xE : x = c *: e0.
  rewrite -[LHS]vsubmxK x1 /e0 scale_col_mx scaler0 scalemx1; congr col_mx.
  apply/matrixP=> i j; rewrite !ord1 !mxE /= mulr1n /c.
  by congr (x _ _); exact: val_inj.
rewrite vD xE -scalemxAr matD_e0.
by apply/matrixP=> i j; rewrite !mxE mulr1.
Qed.

End Accepted.

End Theory.

End StiffTheory.

Module IntervalTheory.
Import PrimalVEM StiffTheory Interval.

Section Cell.

Variable R : realFieldType.

Implicit Type s : R.

Lemma prod_interval s : prod (normals s) 1 = normals s.
Proof. by rewrite /prod /grad col_mxKd subrr expr0z !invr1 !scale1r mul1mx. Qed.

Lemma matF1_interval s : matF1 (normals s) 1 node_faces = normals s.
Proof.
apply/matrixP=> i j; rewrite mxE prod_interval (big_pred1 j) ?ord1 // => f.
by rewrite /= mxE eq_sym.
Qed.

Lemma gcoef_interval s : gcoef s 1 = s.
Proof. by rewrite /gcoef invr1 !mulr1. Qed.

Lemma matF1_ones s :
  matF1 (normals s) 1 node_faces *m (const_mx 1 : 'cV[R]_2) = 0.
Proof.
rewrite matF1_interval; apply/matrixP=> i j.
rewrite !ord1 !mxE !big_ord_recl !big_ord0 !mxE /=.
by rewrite !mulr1 addr0 addNr.
Qed.

Lemma matF1_matDr s :
  matF1 (normals s) 1 node_faces *m matDr (c_center R) 1 (coord R)
  = (gcoef s 1)%:M.
Proof.
rewrite matF1_interval gcoef_interval; apply/matrixP=> i j.
rewrite !ord1 !mxE !big_ord_recl !big_ord0 !mxE /=.
rewrite /bump /= add1n !divr1 addr0 sub0r mulrNN -mulrDr.
by rewrite [_ + (1 - _)]addrC subrK mulr1.
Qed.

(** The consistency identity holds exactly on the interval cell, whatever
    the orientation [s]. *)
Lemma exact s :
  matG (c_center R) s 1 (coord R)
  = matF (normals s) 1 node_faces *m matD (c_center R) 1 (coord R).
Proof. by apply/eqP; rewrite matG_eq_FD matF1_ones matF1_matDr !eqxx. Qed.

(** The kernel accepts the interval cell as soon as [s] is not zero. *)
Lemma accepted s : s != 0 ->
  exists A,
    stiffH1 (K R) (c_center R) s (normals s) 1 (coord R) node_faces = Ok A.
Proof.
move=> s_neq0; apply: stiffH1_accepts => //.
- by rewrite oner_eq0.
- exact: matF1_ones.
- exact: matF1_matDr.
- by rewrite gcoef_interval s_neq0.
Qed.

End Cell.

End IntervalTheory.

(** * Cells accepted within the tolerance of the consistency test *)

Module ToleranceTheory.
Import PrimalVEM StiffTheory Interval IntervalTheory.

Section Theory.

Variable R : realFieldType.
Variables (d n m : nat).
Variable c_center : 'rV[R]_d.
Variable c_volume : R.
Variable normals : 'M[R]_(d, m).
Variable diam : R.
Variable coord : 'M[R]_(d, n).
Variable node_faces : 'M[bool]_(n, m).

Local Notation D := (matD c_center diam coord).
Local Notation G := (matG c_center c_volume diam coord).
Local Notation F := (matF normals diam node_faces).
Local Notation Gt := (Gtilde d c_volume diam).
Local Notation matDr := (PrimalVEM.matDr c_center diam coord).
Local Notation matF1 := (PrimalVEM.matF1 normals diam node_faces).
Local Notation gcoef := (PrimalVEM.gcoef c_volume diam).
Local Notation ones := (const_mx 1 : 'cV[R]_n).

(** The tolerance test on [G] and [F D], block by block: the rows of the
    constant monomial agree by construction. *)
Lemma allclose_blocks :
  (forall i, isclose (atol R) 0 ((matF1 *m ones) i ord0)) ->
  (forall i j, isclose (atol R) (gcoef%:M i j) ((matF1 *m matDr) i j)) ->
  allclose G (F *m D).
Proof.
move=> close1 closeD; apply/forallP=> i; apply/forallP=> j.
rewrite matG_col matFD_col !(mxE, col_mxEd, col_mxEu).
case: (splitP i) => i' _; first exact: (forallP (forallP (allclose_refl _) _)).
rewrite !mxE; case: (splitP j) => j' _; rewrite ?mxE.
  by have := close1 i'; rewrite mxE (ord1 j').
by have := closeD i' j'; rewrite !mxE.
Qed.

(** When the constant vector is in the null space of an accepted cell of
    positive volume, the rows of the linear monomials of [F] sum to zero:
    row 1 and the following ones of the consistency identity hold exactly in
    their first column. *)
Lemma stiffH1_ones_F1 (A : 'M[R]_n) :
  stiffH1_local c_center c_volume normals diam coord node_faces = Ok A ->
  0 < c_volume -> A *m ones = 0 -> matF1 *m ones = 0.
Proof.
move=> HA vol_gt0 Av0; have [_ diam_neq0 _ Gu _] := stiffH1_OkE HA.
case: (posnP d) => [d0|d_gt0].
  by move: (matF1 *m ones) => X; rewrite d0 in X *; rewrite flatmx0.
have q0 : quad A ones = 0 by rewrite /quad -mulmxA Av0 mulmx0 mxE.
have s_ge0 (p : nat) (x : 'cV[R]_p) : 0 <= \sum_i (x i ord0) ^+ 2.
  by apply: sumr_ge0 => i _; exact: sqr_ge0.
have g_neq0 : gcoef != 0.
  by rewrite !mulf_neq0 ?invr_eq0 ?diam_neq0 // gt_eqF.
have g_gt0 : 0 < gcoef.
  by rewrite lt_def g_neq0 mulr_ge0 ?(ltW vol_gt0) // -expr2 sqr_ge0.
have q1_ge0 : 0 <= c_volume * (diam^-1 * diam^-1)
                   * \sum_i (dsubmx (invmx G *m F *m ones) i ord0) ^+ 2.
  by rewrite mulr_ge0 // ltW.
move/eqP: q0; rewrite (stiffH1_quad HA) quad_Gtilde paddr_eq0 //.
case/andP=> /eqP q1 _.
move/eqP: q1; rewrite mulf_eq0 (negbTE g_neq0) /= => /eqP q1.
have x1 : dsubmx (invmx G *m F *m ones) = 0.
  apply/matrixP=> i j; rewrite ord1 [RHS]mxE; apply/eqP; rewrite -sqrf_eq0.
  apply/eqP.
  exact: (psumr_eq0P (P := xpredT) (fun i _ => sqr_ge0 _) q1).
have GP : G *m (invmx G *m F) = F by rewrite mulmxA mulmxV // mul1mx.
have FE : matF1 = gcoef *: dsubmx (invmx G *m F).
  move: GP; move: (invmx G *m F) => P GP.
  have := congr1 dsubmx GP; rewrite matG_col -{1}[P]vsubmxK.
  rewrite mul_col_mx col_mxKd mul_row_col mul0mx add0r mul_scalar_mx /matF.
  by rewrite col_mxKd.
move: x1 FE; move: (invmx G *m F) => P x1 ->.
by rewrite -scalemxAl mul_dsub_mx x1 scaler0.
Qed.

End Theory.

Section Cell.

Variable R : realFieldType.

Local Notation ones := (const_mx 1 : 'cV[R]_2).

Lemma atol_gt0 : 0 < atol R.
Proof. by rewrite /atol invr_gt0 ltr0n. Qed.

Lemma rtol_gt0 : 0 < rtol R.
Proof. by rewrite /rtol invr_gt0 ltr0n. Qed.

Lemma matF1_tol : matF1 (normals_tol R) 1 node_faces = normals_tol R.
Proof.
have prodE : prod (normals_tol R) 1 = normals_tol R.
  by rewrite /prod /grad col_mxKd subrr expr0z !invr1 !scale1r mul1mx.
apply/matrixP=> i j; rewrite mxE prodE (big_pred1 j) ?ord1 // => f.
by rewrite /= mxE eq_sym.
Qed.

Lemma matF1_tol_ones :
  matF1 (normals_tol R) 1 node_faces *m ones = (atol R)%:M.
Proof.
rewrite matF1_tol; apply/matrixP=> i j.
rewrite !ord1 !mxE !big_ord_recl !big_ord0 !mxE /=.
by rewrite !mulr1 addr0 mulr1n addrA addNr add0r.
Qed.

Lemma matF1_tol_matDr :
  matF1 (normals_tol R) 1 node_faces *m matDr (c_center R) 1 (coord R)
  = (1 + atol R / 2%:R)%:M.
Proof.
rewrite matF1_tol; apply/matrixP=> i j.
rewrite !ord1 !mxE !big_ord_recl !big_ord0 !mxE /=.
rewrite /bump /= add1n !divr1 addr0 sub0r mulr1n.
by field.
Qed.

(** The kernel accepts the cell: [G] and [F D] differ by [1e-8] and by
    [5e-9], inside the tolerance, and [G] is the identity. *)
Lemma accepted_tol :
  exists A,
    stiffH1 (K R) (c_center R) 1 (normals_tol R) 1 (coord R) node_faces = Ok A.
Proof.
have close1 i :
  isclose (atol R) 0
    ((matF1 (normals_tol R) 1 node_faces *m (const_mx 1 : 'cV[R]_2)) i ord0).
  rewrite matF1_tol_ones (ord1 i) !mxE eqxx mulr1n /isclose sub0r normrN.
  move: (atol R) (rtol R) atol_gt0 rtol_gt0 => e r e_gt0 r_gt0.
  by rewrite (gtr0_norm e_gt0) lerDl mulr_ge0 ?(ltW e_gt0) ?(ltW r_gt0).
have closeD i j :
  isclose (atol R) ((gcoef 1 1 : R)%:M i j)
    ((matF1 (normals_tol R) 1 node_faces
      *m matDr (c_center R) 1 (coord R)) i j).
  rewrite matF1_tol_matDr !mxE (ord1 i) (ord1 j) eqxx !mulr1n gcoef_interval.
  rewrite /isclose opprD addrA subrr sub0r normrN.
  move: (atol R) (rtol R) atol_gt0 rtol_gt0 => e r e_gt0 r_gt0.
  have h_gt0 : 0 < e / 2%:R by rewrite divr_gt0 ?e_gt0 ?ltr0n.
  have s_gt0 : 0 < 1 + e / 2%:R by rewrite addr_gt0 ?ltr01 ?h_gt0.
  rewrite (gtr0_norm h_gt0) (gtr0_norm s_gt0).
  have rs_ge0 : 0 <= r * (1 + e / 2%:R).
    by rewrite mulr_ge0 ?(ltW r_gt0) ?(ltW s_gt0).
  by lra.
rewrite /stiffH1 /stiffH1_local /consistent /has_nan /linalg_solve /=.
rewrite oner_eq0 /= (allclose_blocks close1 closeD) /=.
by rewrite matG_unit // gcoef_interval oner_neq0; eexists.
Qed.

(** The constant vector is not in the null space of its matrix. *)
Lemma ones_not_in_kernel_tol A :
  stiffH1 (K R) (c_center R) 1 (normals_tol R) 1 (coord R) node_faces = Ok A ->
  A *m ones != 0.
Proof.
move=> HA; apply/eqP => /(stiffH1_ones_F1 HA ltr01).
rewrite matF1_tol_ones => /matrixP /(_ ord0 ord0); rewrite !mxE eqxx mulr1n.
by move/eqP; rewrite (gt_eqF atol_gt0).
Qed.

End Cell.

End ToleranceTheory.

Module StiffClaims.
Import PrimalVEM StiffTheory Interval IntervalTheory ToleranceTheory.

(** C2, as amended: for a cell of positive volume that the kernel accepts
    ([stiffH1] returns: the consistency assertion passes and [G] is
    nonsingular), the local matrix returned by [stiffH1] is symmetric and
    positive semidefinite, and every vector of its null space is a constant
    nodal vector; when moreover [G = F D] holds exactly, and not within the
    tolerance of [np.allclose] only, the null space is exactly the span of
    the constant nodal vector. *)
Theorem stiffH1_sym_psd_kernel (R : realFieldType) (kd d n m : nat)
    (K : 'M[R]_kd) (c_center : 'rV[R]_d) (c_volume : R)
    (normals : 'M[R]_(d, m)) (diam : R) (coord : 'M[R]_(d, n))
    (node_faces : 'M[bool]_(n, m)) (A : 'M[R]_n) :
  0 < c_volume ->
  stiffH1 K c_center c_volume normals diam coord node_faces = Ok A ->
  [/\ A^T = A,
      forall v : 'cV[R]_n, 0 <= (v^T *m A *m v) ord0 ord0,
      forall v : 'cV[R]_n, A *m v = 0 -> exists c, v = const_mx c
    & matG c_center c_volume diam coord
        = matF normals diam node_faces *m matD c_center diam coord ->
      forall v : 'cV[R]_n, A *m v = 0 <-> exists c, v = const_mx c].
Proof.
move=> vol_gt0 HA; split; first exact: stiffH1_sym HA.
- by move=> v; apply: (stiffH1_psd HA); exact: ltW.
- by move=> v; exact: (stiffH1_kernel HA vol_gt0).
move=> GFD v; split; first exact: (stiffH1_kernel HA vol_gt0).
case=> c ->; have -> : const_mx c = c *: (const_mx 1 : 'cV[R]_n).
  by apply/matrixP=> i j; rewrite !mxE mulr1.
by rewrite -scalemxAr (stiffH1_ones HA GFD) scaler0.
Qed.

(** C2 at the regular interval cell, where [G = F D] holds exactly. *)
Lemma stiffH1_sym_psd_kernel_witness :
  exists A, stiffH1 (K rat) (c_center rat) 1 (normals 1) 1 (coord rat)
                    node_faces = Ok A
  /\ [/\ A^T = A,
         forall v : 'cV[rat]_2, 0 <= (v^T *m A *m v) ord0 ord0,
         forall v : 'cV[rat]_2, A *m v = 0 -> exists c, v = const_mx c
       & forall v : 'cV[rat]_2, A *m v = 0 <-> exists c, v = const_mx c].
Proof.
have [A HA] := @accepted rat 1 (oner_neq0 _); exists A; split; first exact: HA.
have [sym psd ker kerE] :=
  @stiffH1_sym_psd_kernel rat 1 1 2 2 (K rat) (c_center rat) 1
    (normals 1) 1 (coord rat) node_faces A ltr01 HA.
by split; [exact: sym | exact: psd | exact: ker | exact: (kerE (exact 1))].
Defined.

(** On the interval cell with the normals pointing inward and the volume
    [-1], [G = F D] holds, the assertion passes, [G] is nonsingular, and the
    returned matrix has a negative energy on the linear nodal vector, so it
    is not positive semidefinite. *)
Lemma stiffH1_negative_volume_not_psd :
  exists A,
    [/\ matG (c_center rat) (-1) 1 (coord rat)
          = matF (normals (-1)) 1 node_faces
            *m matD (c_center rat) 1 (coord rat),
        stiffH1 (K rat) (c_center rat) (-1) (normals (-1)) 1 (coord rat)
                node_faces = Ok A
      & exists v : 'cV[rat]_2, (v^T *m A *m v) ord0 ord0 < 0].
Proof.
have m1_neq0 : -1 != 0 :> rat by rewrite oppr_eq0 oner_neq0.
have [A HA] := accepted m1_neq0.
exists A; split=> //; first exact: exact.
pose x : 'cV[rat]_(1 + 1) := col_mx 0 1%:M.
exists (matD (c_center rat) 1 (coord rat) *m x).
rewrite -/(quad A _) (stiffH1_quad_poly HA (exact _)) quad_Gtilde col_mxKd.
by rewrite big_ord_recl big_ord0 mxE invr1 !mulr1.
Qed.

(** On the interval cell of volume 1 with the normals [-1] and [1 + 1e-8],
    [G] and [F D] differ by less than the tolerance of [np.allclose]: the
    assertion passes, [G] is nonsingular, and the constant nodal vector is
    not in the null space of the returned matrix. *)
Lemma stiffH1_tolerance_kernel_not_constants :
  exists A,
    stiffH1 (K rat) (c_center rat) 1 (normals_tol rat) 1 (coord rat)
            node_faces = Ok A
    /\ A *m (const_mx 1 : 'cV[rat]_2) != 0.
Proof.
have [A HA] := accepted_tol rat; exists A; split; first exact: HA.
exact: (ones_not_in_kernel_tol HA).
Qed.

(** C2 as stated fails in two ways: an accepted cell whose matrix is not
    positive semidefinite (negative volume, [G = F D] exact), and an accepted
    cell of positive volume whose matrix does not vanish on the constant
    nodal vector ([G = F D] within the tolerance only). *)
Lemma stiffH1_accepted_not_psd_or_kernel :
  (exists A,
     [/\ matG (c_center rat) (-1) 1 (coord rat)
           = matF (normals (-1)) 1 node_faces
             *m matD (c_center rat) 1 (coord rat),
         stiffH1 (K rat) (c_center rat) (-1) (normals (-1)) 1 (coord rat)
                 node_faces = Ok A
       & exists v : 'cV[rat]_2, (v^T *m A *m v) ord0 ord0 < 0])
  /\ (exists A,
        [/\ (0 : rat) < 1,
            stiffH1 (K rat) (c_center rat) 1 (normals_tol rat) 1 (coord rat)
                    node_faces = Ok A
          & ~ (forall v : 'cV[rat]_2,
                 A *m v = 0 <-> exists c, v = const_mx c)]).
Proof.
split; first exact: stiffH1_negative_volume_not_psd.
have [A [HA ones_out]] := stiffH1_tolerance_kernel_not_constants.
exists A; split; [exact: ltr01 | exact: HA |] => kernel.
by move/eqP: ones_out; apply; apply/kernel; exists 1.
Qed.

(** C9: the permeability argument does not influence the result. *)
Theorem stiffH1_permeability_independent (R : realFieldType)
    (kd1 kd2 d n m : nat) (K1 : 'M[R]_kd1) (K2 : 'M[R]_kd2)
    (c_center : 'rV[R]_d) (c_volume : R) (normals : 'M[R]_(d, m)) (diam : R)
    (coord : 'M[R]_(d, n)) (node_faces : 'M[bool]_(n, m)) :
  stiffH1 K1 c_center c_volume normals diam coord node_faces
  = stiffH1 K2 c_center c_volume normals diam coord node_faces.
Proof. by []. Qed.

End StiffClaims.

(** * Properties of the global assembly *)

Module AssemblyTheory.
Import PrimalVEM SparseTheory.

Section Theory.

Variable R : realFieldType.
Variables (d kd : nat).

Implicit Types (g : grid R d) (p : parameters R kd) (M : spmatrix R).

Lemma np_where_none (b : seq bool) : ~~ np_any b -> np_where b = [::].
Proof.
move=> none; apply/eqP; rewrite -[_ == _]negbK -has_filter.
apply: contra none => /hasP [i _ b_i]; apply/hasP; exists true => //.
rewrite -b_i mem_nth //.
by case: ltnP => // le_i; rewrite nth_default in b_i.
Qed.

(** What [matrix] has done when it returns on a grid of positive
    dimension. *)
Lemma matrix_inv g p bc_weight M w :
  dim g != 0%N -> matrix g p bc_weight = Ok (M, w) ->
  exists M0, let norm := if bc_weight then norm_inf M0 else 1 in
    [/\ assemble g p = Ok M0,
        w = (if bc_weight then Some norm else None)
      & (dirichlet p = [::] /\ M = M0)
        \/ (exists2 Mz, zero_rows M0 (dirichlet p) = Ok Mz
                      & set_diag Mz (dirichlet p) norm = Ok M)].
Proof.
move=> /negbTE dimF; rewrite /matrix dimF.
case: (assemble g p) => [M0|] //=; rewrite /dirichlet.
case: (bc p) => [b|] /=; last by case=> <- <-; exists M0; split=> //; left.
case: ifP => [_|/negbT /np_where_none ->] /=; last first.
  by case=> <- <-; exists M0; split=> //; left.
case Ez: (zero_rows _ _) => [Mz|] //=; case Es: (set_diag _ _ _) => [Ms|] //=.
by case=> <- <-; exists M0; split=> //; right; exists Mz.
Qed.

Lemma dirichletE p b : bc p = Some b -> dirichlet p = np_where (is_dir b).
Proof. by rewrite /dirichlet => ->. Qed.

Lemma uniq_dirichlet p : uniq (dirichlet p).
Proof. by rewrite /dirichlet; case: (bc p) => // b; exact: uniq_np_where. Qed.

(** C7: on a grid of positive dimension the weight returned with
    [bc_weight=True] is the infinity norm of the matrix assembled from the
    local matrices, taken before the Dirichlet rows are overwritten; without
    [bc_weight] no weight is returned and the Dirichlet diagonal is set to
    1. *)
Theorem bc_weight_is_norm g p bc_weight M w :
  dim g != 0%N -> matrix g p bc_weight = Ok (M, w) ->
  exists2 M0, assemble g p = Ok M0 &
    if bc_weight then w = Some (norm_inf M0)
    else w = None /\ forall i, i \in dirichlet p -> coeff M i i = 1.
Proof.
move=> dim_neq0 /(matrix_inv dim_neq0) [M0 /= [asm -> HM]]; exists M0 => //.
case: bc_weight HM => // HM; split=> // i i_dir.
case: HM => [[dir0]|[Mz Hz Hs]]; first by rewrite dir0 in i_dir.
by rewrite (coeff_dirichlet i (uniq_dirichlet p) i_dir Hz Hs) eqxx.
Qed.

(** C3: after [matrix_rhs] on a grid of positive dimension, the row of a
    Dirichlet node is zero outside the diagonal, its diagonal entry is the
    weight computed by [matrix], and the entry of the right-hand side is the
    weight times the boundary value of the node. *)
Theorem dirichlet_rows g p M b :
  dim g != 0%N -> matrix_rhs g p = Ok (M, b) ->
  exists2 w, matrix g p true = Ok (M, Some w) &
    forall bcs i, bc p = Some bcs -> nth false (is_dir bcs) i ->
      [/\ forall j, j != i -> coeff M i j = 0,
          coeff M i i = w
        & exists2 v, bc_val p = Some v & nth 0 b i = w * nth 0 v i].
Proof.
move=> dim_neq0; rewrite /matrix_rhs.
case Em: (matrix g p true) => [[M' w']|] //=.
have [M0 /= [asm w'E HM]] := matrix_inv dim_neq0 Em.
rewrite w'E /=; case Er: (rhs g p _) => [b'|] //= [MM bb].
rewrite -{M}MM -{b}bb; exists (norm_inf M0) => //.
move=> bcs i bcE dir_i.
have i_dir : i \in dirichlet p by rewrite (dirichletE bcE) mem_np_where.
case: HM => [[dir0]|[Mz Hz Hs]]; first by rewrite dir0 in i_dir.
have row j := coeff_dirichlet j (uniq_dirichlet p) i_dir Hz Hs.
split=> [j j_neq_i||]; rewrite ?row ?eqxx // 1?eq_sym ?(negbTE j_neq_i) //.
move: Er; rewrite /rhs (negbTE dim_neq0) bcE /=.
case: (bc_val p) => [v|] //= Er; exists v => //.
have i_lt : (i < size (is_dir bcs))%N.
  by case: ltnP => // le_i; rewrite nth_default in dir_i.
have any_dir : np_any (is_dir bcs).
  by apply/hasP; exists true => //; rewrite -dir_i mem_nth.
move: Er; rewrite any_dir /take_idx; case: ifP => //= in_v.
rewrite (dirichletE bcE) in i_dir.
move/(nth_set_idx (uniq_np_where _) i_dir) => ->.
rewrite (nth_map 0) ?size_map ?index_mem // (nth_map 0%N) ?index_mem //.
by rewrite nth_index.
Qed.

(** C8, as amended: on a grid of positive dimension, [rhs] fails on its
    assertion when exactly one of the boundary flags and the boundary values
    is present. *)
Theorem rhs_presence_mismatch g p (bc_weight : R) :
  dim g != 0%N -> isSome (bc p) != isSome (bc_val p) ->
  rhs g p bc_weight = Raise AssertionError.
Proof.
move=> /negbTE dimF; rewrite /rhs dimF.
by case: (bc p) => [b|]; case: (bc_val p) => [v|].
Qed.

(** C10: on a grid of dimension 0, [rhs] returns the source term before the
    presence of the boundary flags and values is compared. *)
Theorem rhs_dim0 g p (bc_weight : R) :
  dim g = 0%N -> rhs g p bc_weight = Ok (source p).
Proof. by rewrite /rhs => ->. Qed.

End Theory.

End AssemblyTheory.

(** * The one-cell grid *)

Module GridTheory.
Import PrimalVEM SparseTheory StiffTheory Interval IntervalTheory.

Section Theory.

Variable R : realFieldType.

Lemma ord2_cases (P : 'I_2 -> Prop) :
  P ord0 -> P (lift ord0 ord0) -> forall j, P j.
Proof.
move=> P0 P1 [[|[|j]] Hj] //.
- by rewrite (_ : Ordinal Hj = ord0) //; apply: val_inj.
- by rewrite (_ : Ordinal Hj = lift ord0 ord0) //; apply: val_inj.
Qed.

Lemma cell_normals_g1 : cell_normals (g1 R) 0 = normals 1.
Proof.
by apply/matrixP=> i; elim/ord2_cases; rewrite !mxE /= ?mulr1.
Qed.

Lemma cell_coord_g1 : cell_coord (g1 R) 0 = coord R.
Proof. by apply/matrixP=> i; elim/ord2_cases; rewrite !mxE. Qed.

Lemma cell_node_faces_g1 : cell_node_faces (g1 R) 0 = node_faces.
Proof.
by apply/matrixP; elim/ord2_cases; elim/ord2_cases; rewrite !mxE.
Qed.

Lemma cell_stiff_g1 :
  exists A,
    stiffH1 (nth 0 (aperture (p1 R)) 0 *: nth 0 (perm (p1 R)) 0)
            (nth 0 (c_centers (g1 R)) 0) (nth 0 (cell_volumes (g1 R)) 0)
            (cell_normals (g1 R) 0) (nth 0 (cell_diameters (g1 R)) 0)
            (cell_coord (g1 R) 0) (cell_node_faces (g1 R) 0) = Ok A.
Proof.
have [A HA] := accepted (oner_neq0 R); exists A; rewrite -HA /stiffH1.
by rewrite cell_normals_g1 cell_coord_g1 cell_node_faces_g1.
Qed.

Lemma cell_triplets_g1 :
  exists e t, cell_triplets (g1 R) (p1 R) 0 = Ok (e :: t).
Proof.
rewrite /cell_triplets /cell_lookups /=; have [A ->] := cell_stiff_g1.
by rewrite /= enum_ordSl /=; eexists; eexists.
Qed.

Lemma assemble_g1 :
  exists2 M0, assemble (g1 R) (p1 R) = Ok M0
            & (0 < nrows M0)%N && (0 < ncols M0)%N.
Proof.
rewrite /assemble /=; have [e [t ->]] := cell_triplets_g1.
by rewrite /=; eexists.
Qed.

Lemma matrix_g1 bc_weight :
  exists M w, matrix (g1 R) (p1 R) bc_weight = Ok (M, w).
Proof.
rewrite /matrix /=; have [M0 -> /andP [rows cols]] := assemble_g1.
by rewrite /= /zero_rows /= rows /= /set_diag /= rows cols /=; eexists; eexists.
Qed.

Lemma matrix_rhs_g1 : exists M b, matrix_rhs (g1 R) (p1 R) = Ok (M, b).
Proof.
rewrite /matrix_rhs; have [M [w ->]] := matrix_g1 true.
by rewrite /= /rhs /= /take_idx /= /set_idx /=; eexists; eexists.
Qed.

End Theory.

End GridTheory.

(** * Properties of the interface coupling *)

Module UpwindTheory.
Import UpwindCoupling Scenario SparseTheory.

Section Theory.

Variable R : realFieldType.

Implicit Types (q x : R) (M : spmatrix R).

(** With [atol = 0] the test [np.isclose(0, x)] holds for [x = 0] only. *)
Lemma isclose0 x : isclose 0 0 x = (x == 0).
Proof.
rewrite /isclose add0r add0r normrN; apply/idP/eqP => [|->]; last first.
  by rewrite normr0 mulr0.
move=> le_x; apply/eqP; rewrite -normr_eq0; apply/eqP/le_anti/andP; split=> //.
have rtol_lt1 : rtol R < 1.
  by rewrite /rtol invf_lt1 ?ltr0n // ltr1n.
have: (1 - rtol R) * `|x| <= 0 by rewrite mulrBl mul1r subr_le0.
by rewrite pmulr_rle0 ?subr_gt0.
Qed.

(** The clipped parts of a flux. *)
Lemma outflow_pos q : 0 < q -> outflow q = q.
Proof.
by move=> q_gt0; rewrite /outflow /clip_min0 max_l ?ltW // gtr0_sg ?mul1r.
Qed.

Lemma outflow_neg q : q <= 0 -> outflow q = 0.
Proof. by move=> q_le0; rewrite /outflow /clip_min0 max_r // sgr0 mul0r. Qed.

Lemma inflow_neg q : q < 0 -> inflow q = `|q|.
Proof.
move=> q_lt0; rewrite /inflow /clip_max0 min_l ?ltW // ltr0_sg // mulN1r.
by rewrite ltr0_norm.
Qed.

Lemma inflow_pos q : 0 <= q -> inflow q = 0.
Proof. by move=> q_ge0; rewrite /inflow /clip_max0 min_r // sgr0 mul0r. Qed.

Lemma add_at_single n i (v : R) :
  add_at (nseq n 0) [:: i] [:: v]
  = if (i < n)%N then Ok (set_nth 0 (nseq n 0) i v) else Raise IndexError.
Proof. by rewrite /add_at /= size_nseq andbT nth_nseq if_same add0r. Qed.

(** With a single matched pair the call returns as soon as the indices of
    the pair are inside the arrays and the face has one cell. *)
Lemma adjacent_pair_returns (ndof : grid R -> nat) (g_h g_l : grid R)
    (data_h data_l : grid_data R) (data_edge : edge_data R)
    (b : seq R) (c_l f_h c_h : nat) :
  dim g_h != dim g_l ->
  beta_n data_edge = Some b ->
  face_cells data_edge = [:: (c_l, f_h)] ->
  (f_h < size b)%N -> (f_h < size (face_signs g_h))%N ->
  cells_of_faces g_h [:: f_h] = Ok [:: c_h] ->
  (c_h < num_cells g_h)%N -> (c_h < ndof g_h)%N ->
  (c_l < num_cells g_l)%N -> (c_l < ndof g_l)%N ->
  exists cc, matrix_rhs ndof g_h g_l data_h data_l data_edge = Ok cc.
Proof.
move=> /negbTE dimF bE fcE f_b f_sgn cellsE ch_lt ch_dof cl_lt cl_dof.
rewrite /matrix_rhs bE dimF fcE /= /signed_flux /take_idx /= f_b f_sgn /=.
rewrite /zip_with /= cellsE /= !add_at_single ch_lt cl_lt /=.
by rewrite /coo_matrix /= ch_dof cl_dof /=; eexists.
Qed.

(** X4: in the equal-dimension branch nothing is ever accumulated in
    [diag_cc00]: whatever the interface, every entry of the block [cc[0,0]]
    is zero. *)
Lemma equal_dim_cc00_zero (ndof : grid R -> nat) (g_h g_l : grid R)
    (data_h data_l : grid_data R) (data_edge : edge_data R)
    (cc : block_matrix R) i j :
  dim g_h = dim g_l ->
  matrix_rhs ndof g_h g_l data_h data_l data_edge = Ok cc ->
  coeff (cc00 cc) i j = 0.
Proof.
move=> dimE; rewrite /matrix_rhs dimE eqxx.
case: (beta_n data_edge) => [b|] //=.
do 2![case: (signed_flux _ _ _ _) => [?|] //=].
do 2![case: (cells_of_faces _ _) => [?|] //=].
do 2![case: (add_at _ _ _) => [?|] //=].
do 2![case: (coo_matrix _ _ _ _ _) => [?|] //=].
case=> <- /=; rewrite /coeff /= big_map big1 // => k _.
by rewrite nth_nseq if_same.
Qed.

(** C6: when the flux is zero on every matched face, [cfl] returns
    [np.inf] and raises nothing. *)
Theorem cfl_zero_flux (g_h g_l : grid R) (data_h data_l : grid_data R)
    (data_edge : edge_data R) (b : seq R) :
  beta_n data_edge = Some b ->
  (forall e, e \in face_cells data_edge ->
     (e.2 < size b)%N /\ nth 0 b e.2 = 0) ->
  cfl g_h g_l data_h data_l data_edge = Ok (Inf R).
Proof.
move=> bE zero; rewrite /cfl bE /= /take_idx.
have -> : all (fun i => (i < size b)%N) [seq e.2 | e <- face_cells data_edge].
  by rewrite all_map; apply/allP => e /zero [].
rewrite /= /np_any -!map_comp has_map.
case: hasP => // -[e /zero [_ zero_e]] /=.
by rewrite zero_e isclose0 eqxx.
Qed.

(** The cells of a list of faces that have one cell each. *)
Lemma size_cells_of_faces (g : grid R) (faces cells : seq nat) :
  (forall f, f \in faces ->
     size [seq t.1.2 | t <- cell_faces g & t.1.1 == f] = 1%N) ->
  cells_of_faces g faces = Ok cells -> size cells = size faces.
Proof.
rewrite /cells_of_faces; case: ifP => // _ one [<-].
elim: faces one => [|f faces IH] //= one.
rewrite size_cat one ?inE ?eqxx // IH // => x x_in.
by apply: one; rewrite inE x_in orbT.
Qed.

Lemma cells_of_faces_error (g : grid R) (faces : seq nat) err :
  cells_of_faces g faces = Raise err -> err = IndexError.
Proof. by rewrite /cells_of_faces; case: ifP => // _ [<-]. Qed.

(** X6, mixed flux: when every matched face has one cell in the higher grid
    and the flux vanishes on some matched faces but not on all, the second
    application of [not_zero] to [cells_h] makes [cfl] raise. *)
Lemma cfl_mixed_flux (g_h g_l : grid R) (data_h data_l : grid_data R)
    (data_edge : edge_data R) (b : seq R) :
  beta_n data_edge = Some b ->
  (forall e, e \in face_cells data_edge ->
     (e.2 < size b)%N
     /\ size [seq t.1.2 | t <- cell_faces g_h & t.1.1 == e.2] = 1%N) ->
  (exists2 e, e \in face_cells data_edge & nth 0 b e.2 = 0) ->
  (exists2 e, e \in face_cells data_edge & nth 0 b e.2 != 0) ->
  cfl g_h g_l data_h data_l data_edge = Raise IndexError.
Proof.
move=> bE wf [e0 e0_in e0_zero] [e1 e1_in e1_nz]; rewrite /cfl bE /= /take_idx.
have -> : all (fun i => (i < size b)%N) [seq e.2 | e <- face_cells data_edge].
  by rewrite all_map; apply/allP => e /wf [].
rewrite /= -!map_comp; set nz := [seq _ | e <- face_cells data_edge].
set faces_h := [seq e.2 | e <- face_cells data_edge].
have size_nz : size nz = size faces_h by rewrite !size_map.
have -> /= : np_any nz.
  apply/hasP; exists true => //; apply/mapP; exists e1 => //=.
  by rewrite isclose0 e1_nz.
have lt_nz : (count id nz < size nz)%N.
  rewrite ltn_neqAle count_size andbT -all_count; apply/allPn.
  exists false => //; apply/mapP; exists e0 => //=.
  by rewrite isclose0 e0_zero eqxx.
rewrite /take_mask size_nz size_map size_map eqxx /=.
case E: (cells_of_faces g_h (mask nz faces_h)) => [cells_h|err] /=; last first.
  by rewrite (cells_of_faces_error E).
have -> : size cells_h = count id nz.
  rewrite (size_cells_of_faces _ E) ?size_mask // => f.
  by case/mem_mask/mapP=> e e_in ->; have [] := wf e e_in.
by rewrite -[size (face_cells _)](size_map snd) -size_nz gtn_eqF.
Qed.

(** Evaluation of the concrete interfaces, over any field. *)
Lemma single_pair_ok :
  exists cc, matrix_rhs (@num_cells R) (matrix2d R) (fracture R)
               (no_data R) (no_data R) (single_pair R) = Ok cc.
Proof.
rewrite /matrix_rhs /= /signed_flux /take_idx /= /zip_with /=.
by eexists.
Qed.

Lemma meet_eval :
  matrix_rhs (@num_cells R) (left R) (right R) (no_data R) (no_data R) (meet R)
  = Ok (BlockMatrix (dia_matrix [:: 0] 1 1)
                    (SpMatrix 1 1 [:: (0%N, 0%N, 0)])
                    (SpMatrix 1 1 [:: (0%N, 0%N, - 2%:R)])
                    (dia_matrix [:: 2%:R] 1 1)).
Proof.
rewrite /matrix_rhs /= /signed_flux /take_idx /= /zip_with /=.
rewrite /add_at /= !mul1r mulN1r (@outflow_neg (- 2%:R)) ?oppr_le0 ?ler0n //.
rewrite (@outflow_pos 2%:R) ?ltr0n // !add0r /clip_max0.
have le02 : 0 <= 2%:R :> R by rewrite ler0n.
have leN20 : - 2%:R <= 0 :> R by rewrite oppr_le0.
by rewrite (min_r le02) (min_l leN20).
Qed.

Lemma flux_one_face_eval :
  cfl (matrix2d R) (fracture R) (no_data R) (no_data R) (flux_one_face R)
  = Raise IndexError.
Proof.
by rewrite /cfl /= /take_idx /= !isclose0 eqxx oner_eq0.
Qed.

End Theory.

(** C1: on two intervals that meet at a point, flux 2 leaving [left], the
    self-term of [left] (block [cc[0,0]]) stays 0 and the outgoing flux of
    [left] is accumulated in the self-term of [right] (block [cc[1,1]]):
    the second [np.add.at] of the equal-dimension branch targets
    [diag_cc11] where [diag_cc00] is meant. *)
Theorem equal_dim_self_terms_merged :
  exists cc, [/\ matrix_rhs (@num_cells rat) (left rat) (right rat)
                   (no_data rat) (no_data rat) (meet rat) = Ok cc,
                 coeff (cc00 cc) 0 0 = 0 & coeff (cc11 cc) 0 0 = 2%:R].
Proof.
eexists; split; first exact: meet_eval.
  by rewrite coeff_dia.
by rewrite coeff_dia.
Qed.

(** C5: a matched face without flux next to one with flux makes [cfl] fail:
    [not_zero] is applied to [cells_h] after [faces_h] has been filtered
    with it. *)
Theorem cfl_mixed_flux_raises :
  cfl (matrix2d rat) (fracture rat) (no_data rat) (no_data rat)
      (flux_one_face rat) = Raise IndexError.
Proof. exact: flux_one_face_eval. Qed.

(** C6 at the interface without flux. *)
Lemma cfl_zero_flux_witness :
  cfl (matrix2d rat) (fracture rat) (no_data rat) (no_data rat) (flux_none rat)
  = Ok (Inf rat).
Proof.
apply: (@cfl_zero_flux rat _ _ _ _ (flux_none rat) [:: 0; 0] erefl) => e.
by rewrite !inE => /orP [] /eqP ->.
Defined.

End UpwindTheory.

(** * The assembly claims on the one-cell grid *)

Module AssemblyClaims.
Import PrimalVEM AssemblyTheory Interval GridTheory.

(** C7 on the one-cell grid. *)
Lemma bc_weight_is_norm_witness :
  exists M w, matrix (g1 rat) (p1 rat) true = Ok (M, w)
  /\ exists2 M0, assemble (g1 rat) (p1 rat) = Ok M0 & w = Some (norm_inf M0).
Proof.
have [M [w Hm]] := matrix_g1 rat true; exists M, w; split=> //.
exact: (@bc_weight_is_norm rat 1 1 (g1 rat) (p1 rat) true M w isT Hm).
Defined.

(** C3 on the one-cell grid, whose node 0 is a Dirichlet node. *)
Lemma dirichlet_rows_witness :
  exists M b, matrix_rhs (g1 rat) (p1 rat) = Ok (M, b)
  /\ exists2 w, matrix (g1 rat) (p1 rat) true = Ok (M, Some w) &
       forall bcs i, bc (p1 rat) = Some bcs -> nth false (is_dir bcs) i ->
         [/\ forall j, j != i -> coeff M i j = 0,
             coeff M i i = w
           & exists2 v, bc_val (p1 rat) = Some v & nth 0 b i = w * nth 0 v i].
Proof.
have [M [b Hmb]] := matrix_rhs_g1 rat; exists M, b; split=> //.
exact: (@dirichlet_rows rat 1 1 (g1 rat) (p1 rat) M b isT Hmb).
Defined.

(** C8 on the one-cell grid with boundary flags and no boundary values. *)
Lemma rhs_presence_mismatch_witness :
  rhs (g1 rat) (p1_no_values rat) 1 = Raise AssertionError.
Proof.
exact: (@rhs_presence_mismatch rat 1 1 (g1 rat) (p1_no_values rat) 1 isT isT).
Defined.

(** C8 as stated fails: on the grid of dimension 0, boundary flags without
    boundary values are not reported; [rhs] returns the source term. *)
Lemma rhs_dim0_mismatch_not_reported :
  [/\ isSome (bc (p0_no_values rat)),
      bc_val (p0_no_values rat) = None
    & rhs (g0 rat) (p0_no_values rat) 1 = Ok [:: 7%:R]].
Proof. by []. Qed.

(** C10 on the grid of dimension 0, with boundary flags and no boundary
    values. *)
Lemma rhs_dim0_witness :
  isSome (bc (p0_no_values rat)) != isSome (bc_val (p0_no_values rat))
  /\ rhs (g0 rat) (p0_no_values rat) 1 = Ok (source (p0_no_values rat)).
Proof.
split; first by [].
exact: (@rhs_dim0 rat 1 1 (g0 rat) (p0_no_values rat) 1 erefl).
Defined.

End AssemblyClaims.

(** * Sums over the interface blocks *)

Module UpwindSums.
Import UpwindCoupling SparseTheory.

Section Theory.

Variable R : realFieldType.

Implicit Types (q x : R) (M : spmatrix R) (a vals : seq R) (idx : seq nat).

(** The clipped parts of a flux, without the sign factor. *)
Lemma outflowE q : outflow q = clip_min0 q.
Proof.
rewrite /outflow /clip_min0; case: (ltP 0 q) => [q_gt0|q_le0].
  by rewrite gtr0_sg ?mul1r.
by rewrite sgr0 mul0r.
Qed.

Lemma inflowE q : inflow q = - clip_max0 q.
Proof.
rewrite /inflow /clip_max0; case: (ltP q 0) => [q_lt0|q_ge0].
  by rewrite ltr0_sg // mulN1r.
by rewrite sgr0 mul0r oppr0.
Qed.

Lemma clip_min0_ge0 q : 0 <= clip_min0 q.
Proof. by rewrite /clip_min0 le_max lexx orbT. Qed.

Lemma clip_max0_le0 q : clip_max0 q <= 0.
Proof. by rewrite /clip_max0 ge_min lexx orbT. Qed.

(** [np.add.at]: every position receives the sum of the values sent to it. *)
Lemma nth_foldl_add (ps : seq (nat * R)) a i :
  nth 0 (foldl (fun acc p => set_nth 0 acc p.1 (nth 0 acc p.1 + p.2)) a ps) i
  = nth 0 a i + \sum_(p <- ps | p.1 == i) p.2.
Proof.
elim: ps a => [|p ps IH] a /=; first by rewrite big_nil addr0.
rewrite IH nth_set_nth /= big_cons eq_sym.
by case: eqP => [->|_] //; rewrite addrA.
Qed.

Lemma size_foldl_add (ps : seq (nat * R)) a :
  all (fun i => (i < size a)%N) [seq p.1 | p <- ps] ->
  size (foldl (fun acc p => set_nth 0 acc p.1 (nth 0 acc p.1 + p.2)) a ps)
  = size a.
Proof.
elim: ps a => [|p ps IH] a //= /andP [p_lt all_lt].
have sz : size (set_nth 0 a p.1 (nth 0 a p.1 + p.2)) = size a.
  by rewrite size_set_nth; apply/maxn_idPr.
by rewrite IH sz.
Qed.

Lemma size_broadcast_to (T : Type) (x0 : T) (s vs : seq T) k :
  broadcast_to x0 s k = Ok vs -> size vs = k.
Proof.
rewrite /broadcast_to; case: eqP => [<- [<-] //|_].
by case: ifP => // _ [<-]; rewrite size_nseq.
Qed.

Lemma all_broadcast_to (T : Type) (x0 : T) (P : pred T) (s vs : seq T) k :
  broadcast_to x0 s k = Ok vs -> all P s -> all P vs.
Proof.
rewrite /broadcast_to; case: eqP => [_ [<-] //|_].
case: s => [|x [|y s]] //= [<-]; rewrite andbT => Px.
by rewrite all_nseq Px orbT.
Qed.

Lemma broadcast_to_size (T : Type) (x0 : T) (s : seq T) :
  broadcast_to x0 s (size s) = Ok s.
Proof. by rewrite /broadcast_to eqxx. Qed.

Lemma add_at_inv a idx vals b :
  add_at a idx vals = Ok b ->
  exists2 vs, broadcast_to 0 vals (size idx) = Ok vs
    & [/\ all (fun i => (i < size a)%N) idx, size b = size a
        & forall i, nth 0 b i
                    = nth 0 a i + \sum_(p <- zip idx vs | p.1 == i) p.2].
Proof.
rewrite /add_at; case Ev: (broadcast_to _ _ _) => [vs|] //=.
case: ifP => // idx_lt [<-]; exists vs => //; split=> //; last first.
  by move=> i; rewrite nth_foldl_add.
rewrite size_foldl_add // -/(unzip1 _) unzip1_zip //.
by rewrite (size_broadcast_to Ev).
Qed.

(** Entries of [sps.dia_matrix((diag, 0), shape=(r, c))]. *)
Lemma coeff_diaE (diag : seq R) r c i j :
  coeff (dia_matrix diag r c) i j
  = if (i == j) && (i < minn (size diag) (minn r c))%N
    then nth 0 diag i else 0.
Proof.
rewrite /coeff /dia_matrix /= big_map /=.
case: (eqVneq i j) => [<-|i_neq_j] /=; last first.
  rewrite big1 // => k /andP [/eqP ki /eqP kj].
  by rewrite -ki kj eqxx in i_neq_j.
under eq_bigl => k do rewrite andbb.
case: ifP => [i_lt|/negbT i_ge].
  by rewrite sum_pred1_seq ?iota_uniq // mem_iota.
rewrite big_seq_cond big1 // => k /andP []; rewrite mem_iota /= add0n => k_lt.
by move/eqP=> ki; rewrite -ki k_lt in i_ge.
Qed.

(** Sums of a sparse matrix along a column. *)
Lemma colsum_entries M j :
  all (fun e => (e.1.1 < nrows M)%N) (entries M) ->
  \sum_(i < nrows M) coeff M i j = \sum_(e <- entries M | e.1.2 == j) e.2.
Proof.
move=> /allP rows_lt; rewrite /coeff.
rewrite (exchange_big_dep (fun e => e.1.2 == j)) /=.
  by move=> i e _ /andP [].
rewrite big_seq_cond [RHS]big_seq_cond; apply: eq_bigr => e /andP [e_in ej].
rewrite (big_pred1 (Ordinal (rows_lt e e_in))) // => i /=.
by rewrite ej andbT -val_eqE /= eq_sym.
Qed.

Lemma colsum_dia (diag : seq R) r j :
  \sum_(i < r) coeff (dia_matrix diag r r) i j
  = if (j < r)%N then nth 0 diag j else 0.
Proof.
under eq_bigr => i _ do rewrite coeff_diaE minnn.
case: ifP => [j_lt|j_ge].
  rewrite (bigD1 (Ordinal j_lt)) //= eqxx big1 ?addr0 /=.
    by move=> i; rewrite -val_eqE /= => /negbTE ->.
  rewrite leq_min j_lt andbT; case: ifP => // /negbT.
  by rewrite -leqNgt => le_j; rewrite nth_default.
rewrite big1 // => i _; case: eqP => //= ij.
by rewrite -ij ltn_ord in j_ge.
Qed.

(** Sums over the coordinate lists built by [zip]. *)
Lemma sum_zip_map (f : R -> R) (P : pred nat) idx (q : seq R) :
  \sum_(p <- zip idx [seq f x | x <- q] | P p.1) p.2
  = \sum_(p <- zip idx q | P p.1) f p.2.
Proof.
elim: idx q => [|k idx IH] [|x q] //=; rewrite ?big_nil //.
by rewrite !big_cons IH.
Qed.

Lemma sum_zip_col (P : pred nat) (row col : seq nat) (v : seq R) :
  size row = size col ->
  \sum_(e <- zip (zip row col) v | P e.1.2) e.2
  = \sum_(p <- zip col v | P p.1) p.2.
Proof.
elim: row col v => [|i row IH] [|j col] [|x v] //=; rewrite ?big_nil //.
by case=> sz; rewrite !big_cons IH.
Qed.

Lemma sum_zip_out (P : pred nat) idx (v : seq R) (F : nat * R -> R) c :
  all P idx -> ~~ P c -> \sum_(p <- zip idx v | p.1 == c) F p = 0.
Proof.
elim: idx v => [|k idx IH] [|x v] //=; rewrite ?big_nil //.
move=> /andP [Pk Pidx] nPc.
rewrite big_cons IH //=; case: eqP => // kc.
by rewrite kc (negbTE nPc) in Pk.
Qed.

Lemma all_zip_rows (P : pred nat) (row col : seq nat) (v : seq R) :
  all P row -> all (fun e => P e.1.1) (zip (zip row col) v).
Proof.
elim: row col v => [|i row IH] [|j col] [|x v] //= /andP [-> /=].
exact: IH.
Qed.

Lemma coo_matrix_inv (data : seq R) (row col : seq nat) r c M :
  coo_matrix data row col r c = Ok M ->
  [/\ size row = size data, size col = size data,
      all (fun i => (i < r)%N) row, all (fun j => (j < c)%N) col
    & M = SpMatrix r c (zip (zip row col) data)].
Proof.
rewrite /coo_matrix; case: ifP => // /negbT; rewrite negb_or !negbK.
case/andP=> /eqP sr /eqP sc; case: ifP => // /andP [row_lt col_lt] [<-].
by split.
Qed.

Lemma size_signed_flux (sgn b : seq R) (f1 f2 : seq nat) (qs : seq R) :
  size f1 = size f2 -> signed_flux sgn b f1 f2 = Ok qs -> size qs = size f2.
Proof.
rewrite /signed_flux /take_idx => sz.
case: ifP => //= _; case: ifP => //= _.
rewrite /zip_with !size_map sz eqxx => -[<-].
by rewrite size_map size_zip !size_map sz minnn.
Qed.

Lemma all_zip_vals (P : pred R) (T : Type) (s : seq T) (v : seq R) :
  all P v -> all (fun e => P e.2) (zip s v).
Proof.
elim: s v => [|i s IH] [|x v] //= /andP [-> /=].
exact: IH.
Qed.

Lemma add_at_ge0 a idx vals b :
  (forall i, 0 <= nth 0 a i) -> all (fun x => 0 <= x) vals ->
  add_at a idx vals = Ok b -> forall i, 0 <= nth 0 b i.
Proof.
move=> a_ge0 vals_ge0 /add_at_inv [vs Ev [_ _ bE]] i.
have /allP vs_ge0 := all_zip_vals idx (all_broadcast_to Ev vals_ge0).
rewrite bE addr_ge0 // big_seq_cond sumr_ge0 // => p /andP [p_in _].
exact: vs_ge0.
Qed.

Lemma coeff_dia_ge0 (diag : seq R) r c i j :
  (forall k, 0 <= nth 0 diag k) -> 0 <= coeff (dia_matrix diag r c) i j.
Proof. by move=> diag_ge0; rewrite coeff_diaE; case: ifP. Qed.

Lemma coeff_coo_le0 (data : seq R) (row col : seq nat) r c M i j :
  all (fun x => x <= 0) data -> coo_matrix data row col r c = Ok M ->
  coeff M i j <= 0.
Proof.
move=> data_le0 /coo_matrix_inv [_ _ _ _ ->]; rewrite /coeff /=.
have /allP vs_le0 := all_zip_vals (zip row col) data_le0.
rewrite big_seq_cond sumr_le0 // => e /andP [e_in _].
exact: vs_le0.
Qed.

Section Branches.

Variable ndof : grid R -> nat.
Variables (g_h g_l : grid R) (data_h data_l : grid_data R).
Variable data_edge : edge_data R.
Variable cc : block_matrix R.

Local Notation fst_cells := [seq e.1 | e <- face_cells data_edge].
Local Notation snd_cells := [seq e.2 | e <- face_cells data_edge].

(** What the dimension-adjacent branch has computed when it returns. *)
Lemma adjacent_inv :
  dim g_h != dim g_l ->
  matrix_rhs ndof g_h g_l data_h data_l data_edge = Ok cc ->
  exists (q : seq R) (cells_h : seq nat) (d00 d11 : seq R),
    [/\ [/\ size q = size fst_cells,
            add_at (nseq (num_cells g_l) 0) fst_cells [seq inflow x | x <- q]
            = Ok d11
          & add_at (nseq (num_cells g_h) 0) cells_h [seq outflow x | x <- q]
            = Ok d00],
        coo_matrix [seq - clip_min0 x | x <- q] fst_cells cells_h
                   (ndof g_l) (ndof g_h) = Ok (cc10 cc),
        coo_matrix [seq clip_max0 x | x <- q] cells_h fst_cells
                   (ndof g_h) (ndof g_l) = Ok (cc01 cc),
        cc00 cc = dia_matrix d00 (ndof g_h) (ndof g_h)
      & cc11 cc = dia_matrix d11 (ndof g_l) (ndof g_l)].
Proof.
move=> /negbTE dimF; rewrite /matrix_rhs dimF.
case: (beta_n data_edge) => [b|] //=.
case Eq: (signed_flux _ _ _ _) => [q|] //=.
case Ec: (cells_of_faces _ _) => [cells_h|] //=.
case E11: (add_at _ _ _) => [d11|] //=.
case E00: (add_at _ _ _) => [d00|] //=.
case E10: (coo_matrix _ _ _ _ _) => [c10|] //=.
case E01: (coo_matrix _ _ _ _ _) => [c01|] //= [<-] /=.
exists q, cells_h, d00, d11; split=> //; split=> //.
by rewrite (size_signed_flux _ Eq) // !size_map.
Qed.

(** What the equal-dimension branch has computed when it returns. *)
Lemma equal_dim_inv :
  dim g_h = dim g_l ->
  matrix_rhs ndof g_h g_l data_h data_l data_edge = Ok cc ->
  exists (q_h q_l : seq R) (cells_h cells_l : seq nat) (d d11 : seq R),
    [/\ add_at (nseq (num_cells g_l) 0) cells_l [seq outflow x | x <- q_l]
        = Ok d
        /\ add_at d cells_h [seq outflow x | x <- q_h] = Ok d11,
        coo_matrix [seq clip_max0 x | x <- q_l] cells_l cells_h
                   (ndof g_l) (ndof g_h) = Ok (cc10 cc),
        coo_matrix [seq clip_max0 x | x <- q_h] cells_h cells_l
                   (ndof g_h) (ndof g_l) = Ok (cc01 cc),
        cc00 cc = dia_matrix (nseq (num_cells g_h) 0) (ndof g_h) (ndof g_h)
      & cc11 cc = dia_matrix d11 (ndof g_l) (ndof g_l)].
Proof.
move=> dimE; rewrite /matrix_rhs dimE eqxx.
case: (beta_n data_edge) => [b|] //=.
case: (signed_flux _ _ _ _) => [q_h|] //=.
case: (signed_flux _ _ _ _) => [q_l|] //=.
case: (cells_of_faces _ _) => [cells_h|] //=.
case: (cells_of_faces _ _) => [cells_l|] //=.
case E1: (add_at _ _ _) => [d|] //=.
case E2: (add_at _ _ _) => [d11|] //=.
case E10: (coo_matrix _ _ _ _ _) => [c10|] //=.
case E01: (coo_matrix _ _ _ _ _) => [c01|] //= [<-] /=.
by exists q_h, q_l, cells_h, cells_l, d, d11.
Qed.

End Branches.

End Theory.
End UpwindSums.

(** * The time step of the interface *)

Module CflTheory.
Import UpwindCoupling SparseTheory UpwindTheory.

Section Arrays.

Variable R : realFieldType.

Lemma take_idx_inv (T : Type) (x0 : T) (s : seq T) idx v :
  take_idx x0 s idx = Ok v ->
  all (fun i => (i < size s)%N) idx /\ v = [seq nth x0 s i | i <- idx].
Proof. by rewrite /take_idx; case: ifP => // ? [<-]. Qed.

Lemma take_mask_all (T : Type) (s : seq T) (msk : seq bool) v :
  all id msk -> take_mask s msk = Ok v -> v = s.
Proof.
rewrite /take_mask => all_msk; case: eqP => // sz [<-].
have -> : msk = nseq (size msk) true.
  by apply/all_pred1P; rewrite (eq_all (a2 := id)) // => x; rewrite /= eqb_id.
by rewrite mask_true // sz.
Qed.

Lemma take_mask_inv (T : Type) (s : seq T) (msk : seq bool) v :
  take_mask s msk = Ok v -> size msk = size s /\ v = mask msk s.
Proof. by rewrite /take_mask; case: eqP => // ? [<-]. Qed.

Lemma zip_with_map (T : Type) (f : R -> R -> R) (F G : T -> R) (s : seq T) :
  zip_with f [seq F e | e <- s] [seq G e | e <- s]
  = Ok [seq f (F e) (G e) | e <- s].
Proof. by rewrite /zip_with !size_map eqxx zip_map -map_comp. Qed.

(** Entry-wise operations on arrays given entry by entry. *)
Lemma map2_map (T U : Type) (x0 : U) (f : U -> U -> U) (F G : T -> U)
    (s : seq T) :
  map2 x0 f [seq F e | e <- s] [seq G e | e <- s]
  = Ok [seq f (F e) (G e) | e <- s].
Proof. by rewrite /map2 !size_map eqxx zip_map -map_comp. Qed.

Lemma np_divide_map (T : Type) (F G : T -> float64 R) (s : seq T) :
  np_divide [seq F e | e <- s] [seq G e | e <- s]
  = Ok [seq fdiv (F e) (G e) | e <- s].
Proof. exact: map2_map. Qed.

Lemma np_multiply_map (T : Type) (F G : T -> float64 R) (s : seq T) :
  np_multiply [seq F e | e <- s] [seq G e | e <- s]
  = Ok [seq fmul (F e) (G e) | e <- s].
Proof. exact: map2_map. Qed.

Lemma floats_map (T : Type) (F : T -> R) (s : seq T) :
  floats [seq F e | e <- s] = [seq Finite (F e) | e <- s].
Proof. by rewrite /floats -map_comp. Qed.

(** The entry of the array [np.abs(np.divide(dist, beta_n)) * phi_l] for one
    matched pair, from the apertures [al] and [ah], the flux [bf], the face
    area and the porosity. *)
Local Notation cfl_entry al ah bf area phi :=
  (fmul (fabs (fdiv (fmul (Finite 2%:R^-1) (fdiv (Finite al) (Finite ah)))
                    (fdiv (Finite bf) (Finite (area * ah)))))
        (Finite phi)).

(** With a flux that is not zero the entry is [nan] when the aperture of the
    higher grid is zero, and a number otherwise, also when the area is zero:
    the flux over the area is then infinite and the quotient is 0. *)
Lemma cfl_entryE (al ah bf area phi : R) :
  bf != 0 ->
  cfl_entry al ah bf area phi
  = if ah == 0 then NaN R else Finite (`|al * area / (2%:R * bf)| * phi).
Proof.
move=> bf_neq0.
have half_neq0 : 2%:R^-1 != 0 :> R by rewrite invr_eq0 pnatr_eq0.
have half_gt0 : 0 < 2%:R^-1 :> R by rewrite invr_gt0 ltr0n.
case: (eqVneq ah 0) => [->|ah_neq0].
  rewrite mulr0 /fdiv /= eqxx /= (negbTE bf_neq0).
  case: (al == 0); case: (0 < al); case: (0 < bf);
    by rewrite /fmul /= ?(negbTE half_neq0) ?half_gt0.
rewrite /fdiv /= mulf_eq0 negb_or ah_neq0 andbT /fmul /=.
case: (eqVneq area 0) => [->|area_neq0] /=.
  rewrite (negbTE bf_neq0) !(mulr0, mul0r, normr0).
  by case: (0 < bf); rewrite /fabs /= normr0 mul0r.
rewrite mulf_eq0 invr_eq0 mulf_eq0 (negbTE bf_neq0) (negbTE area_neq0).
rewrite (negbTE ah_neq0) /fabs /=; congr (Finite (`|_| * _)).
by field; rewrite bf_neq0 ah_neq0 area_neq0 pnatr_eq0.
Qed.

(** The minimum of a list of numbers. *)
Lemma foldr_min_inv (x : R) (s : seq R) :
  foldr Num.min x s \in x :: s
  /\ forall z, z \in x :: s -> foldr Num.min x s <= z.
Proof.
elim: s => [|y s [IHin IHle]] /=.
  by rewrite inE eqxx; split=> // z; rewrite inE => /eqP ->.
split.
  case: (leP y (foldr Num.min x s)) => _; first by rewrite !inE eqxx orbT.
  by move: IHin; rewrite !inE => /orP [->|->] //; rewrite !orbT.
move=> z; rewrite !inE ge_min => /or3P [/eqP ->|/eqP ->|z_in].
- by rewrite IHle ?orbT // inE eqxx.
- by rewrite lexx.
- by rewrite IHle ?orbT // inE z_in orbT.
Qed.

(** [np.amin] of an array whose entries are numbers or [nan]. *)
Lemma foldr_fmin_map (T : Type) (P : pred T) (f : T -> R) (e0 : T)
    (s : seq T) :
  let g e := if P e then NaN R else Finite (f e) in
  foldr (@fmin R) (g e0) [seq g e | e <- s]
  = if has P (e0 :: s) then NaN R
    else Finite (foldr Num.min (f e0) [seq f e | e <- s]).
Proof.
move=> g; elim: s => [|e s IH] /=; first by rewrite orbF.
rewrite IH /g /= orbCA /fmin; case: (P e) => //=.
by case: (_ || _).
Qed.

Lemma amin_inv (T : eqType) (P : pred T) (f : T -> R) (s : seq T) dt :
  amin [seq if P e then NaN R else Finite (f e) | e <- s] = Ok (Finite dt) ->
  [/\ forall e, e \in s -> ~~ P e, dt \in [seq f e | e <- s]
     & forall e, e \in s -> dt <= f e].
Proof.
case: s => [|e0 s] //=; rewrite (foldr_fmin_map P f e0 s).
case: ifP => // /negbT /hasPn no_P [<-].
have [min_in min_le] := foldr_min_inv (f e0) [seq f e | e <- s].
split=> // e e_in; apply: min_le.
by rewrite -[f e0 :: _]/(map f (e0 :: s)); apply/mapP; exists e.
Qed.

Lemma amin_finite (T : Type) (f : T -> R) (s : seq T) :
  (0 < size s)%N ->
  exists dt, amin [seq Finite (f e) | e <- s] = Ok (Finite dt).
Proof.
case: s => [|e0 s] //= _.
have := foldr_fmin_map xpred0 f e0 s; rewrite /= has_pred0 => ->.
by eexists.
Qed.

Lemma flatten_singletons (T : Type) (x0 : T) (U : Type) (f : U -> seq T)
    (s : seq U) :
  all (fun u => size (f u) == 1%N) s ->
  flatten [seq f u | u <- s] = [seq head x0 (f u) | u <- s].
Proof.
elim: s => [|u s IH] //= /andP [/eqP sz /IH ->].
by case: (f u) sz => [|y [|z t]].
Qed.

End Arrays.

Section Cfl.

Variable R : realFieldType.
Variables (g_h g_l : grid R) (data_h data_l : grid_data R).
Variable data_edge : edge_data R.
Variable b : seq R.

Local Notation fc := (face_cells data_edge).
Local Notation cells_at f := [seq t.1.2 | t <- cell_faces g_h & t.1.1 == f].
Local Notation a_h := (get_default (a data_h) (num_cells g_h)).
Local Notation a_l := (get_default (a data_l) (num_cells g_l)).
Local Notation phi_l := (get_default (phi data_l) (num_cells g_l)).

Hypothesis bE : beta_n data_edge = Some b.
Hypothesis one_cell : forall e, e \in fc -> size (cells_at e.2) = 1%N.

Lemma cfl_finite_inv dt :
  cfl g_h g_l data_h data_l data_edge = Ok (Finite dt) ->
  [/\ forall e, e \in fc ->
        nth 0 b e.2 != 0 /\ nth 0 a_h (head 0%N (cells_at e.2)) != 0,
      dt \in [seq `|nth 0 a_l e.1 * nth 0 (face_areas g_h) e.2
                    / (2%:R * nth 0 b e.2)| * nth 0 phi_l e.1 | e <- fc]
    & forall e, e \in fc ->
        dt <= `|nth 0 a_l e.1 * nth 0 (face_areas g_h) e.2
                / (2%:R * nth 0 b e.2)| * nth 0 phi_l e.1].
Proof.
rewrite /cfl bE /=.
case Ebf: (take_idx _ _ _) => [bf|] //=.
have [faces_lt bfE] := take_idx_inv Ebf.
set nz := map _ bf; case: ifP => // /negbFE any_nz.
have size_nz : size nz = size fc by rewrite /nz bfE !size_map.
case El: (take_mask _ _) => [cells_l|] //=.
case Ef: (take_mask _ _) => [faces_h|] //=.
case Ech: (cells_of_faces _ _) => [ch|] //=.
case Ech': (take_mask _ _) => [cells_h|] //=.
have [_ fE] := take_mask_inv Ef.
have size_ch : size ch = count id nz.
  have one f : f \in faces_h -> size (cells_at f) = 1%N.
    by rewrite fE => /mem_mask /mapP [e e_in ->]; exact: one_cell.
  by rewrite (size_cells_of_faces one Ech) fE size_mask // size_map.
have [sz _] := take_mask_inv Ech'.
have all_nz : all id nz by rewrite all_count -size_ch sz.
have b_neq0 e : e \in fc -> nth 0 b e.2 != 0.
  move=> e_in; move/allP: all_nz => /(_ (~~ isclose 0 0 (nth 0 b e.2))).
  rewrite isclose0; apply; rewrite /nz bfE -!map_comp.
  by apply/mapP; exists e => //=; rewrite isclose0.
move: El Ef Ech Ech' => /(take_mask_all all_nz) -> /(take_mask_all all_nz) ->.
rewrite /cells_of_faces; case: ifP => // _ [<-] /(take_mask_all all_nz) ->.
have singletons :
  all (fun f => size (cells_at f) == 1%N) [seq e.2 | e <- fc].
  by rewrite all_map; apply/allP => e /one_cell /= ->.
rewrite (flatten_singletons 0%N singletons) -?map_comp.
case Eah: (take_idx _ _ _) => [apertures_h|] //=.
case Eal: (take_idx _ _ _) => [apertures_l|] //=.
case Ephi: (take_idx _ _ _) => [phis|] //=.
have [_ ->] := take_idx_inv Eah; have [_ ->] := take_idx_inv Eal.
have [_ ->] := take_idx_inv Ephi; rewrite -!map_comp.
rewrite !floats_map np_divide_map /= -map_comp.
case Ebf': (take_idx _ _ _) => [bf'|] //=.
case Ear: (take_idx _ _ _) => [areas|] //=.
have [_ ->] := take_idx_inv Ebf'; have [_ ->] := take_idx_inv Ear.
rewrite -!map_comp zip_with_map /= !floats_map np_divide_map /=.
rewrite np_divide_map /= -map_comp np_multiply_map /=.
set entries := map _ fc.
have -> : entries
          = [seq if nth 0 a_h (head 0%N (cells_at e.2)) == 0 then NaN R
                 else Finite (`|nth 0 a_l e.1 * nth 0 (face_areas g_h) e.2
                                / (2%:R * nth 0 b e.2)| * nth 0 phi_l e.1)
            | e <- fc].
  by apply/eq_in_map => e e_in /=; rewrite cfl_entryE ?b_neq0.
by case/amin_inv=> ah_neq0 dt_in dt_le; split=> // e e_in; split; auto.
Qed.

End Cfl.

Section Value.

Variable R : realFieldType.
Variables (g_h g_l : grid R) (data_h data_l : grid_data R).
Variable data_edge : edge_data R.
Variable b : seq R.

Local Notation fc := (face_cells data_edge).
Local Notation cells_at f := [seq t.1.2 | t <- cell_faces g_h & t.1.1 == f].
Local Notation a_h := (get_default (a data_h) (num_cells g_h)).
Local Notation a_l := (get_default (a data_l) (num_cells g_l)).
Local Notation phi_l := (get_default (phi data_l) (num_cells g_l)).

Hypothesis bE : beta_n data_edge = Some b.
Hypothesis fc_gt0 : (0 < size fc)%N.
Hypothesis wf : forall e, e \in fc ->
  [/\ (e.2 < size b)%N /\ nth 0 b e.2 != 0,
      (e.2 < size (face_areas g_h))%N, (e.2 < num_faces g_h)%N,
      (e.1 < size a_l)%N & (e.1 < size phi_l)%N].
Hypothesis one : forall e, e \in fc ->
  exists2 c_h, cells_at e.2 = [:: c_h] & (c_h < size a_h)%N.

(** On a well-formed interface with flux through all its matched faces,
    [cfl] is the minimum over the matched pairs; a pair whose cell of the
    higher grid has the aperture 0 contributes [nan]. *)
Lemma cfl_value :
  cfl g_h g_l data_h data_l data_edge
  = amin [seq if nth 0 a_h (head 0%N (cells_at e.2)) == 0 then NaN R
              else Finite (`|nth 0 a_l e.1 * nth 0 (face_areas g_h) e.2
                             / (2%:R * nth 0 b e.2)| * nth 0 phi_l e.1)
         | e <- fc].
Proof.
rewrite /cfl bE /=.
pose cell_of (f : nat) := head 0%N (cells_at f).
have take (s : seq R) (F : nat * nat -> nat) :
  (forall e, e \in fc -> (F e < size s)%N) ->
  take_idx 0 s [seq F e | e <- fc] = Ok [seq nth 0 s (F e) | e <- fc].
  move=> F_lt; rewrite /take_idx all_map.
  have -> : all (preim F (fun i => (i < size s)%N)) fc by apply/allP.
  by rewrite -map_comp.
have b_lt e : e \in fc -> (e.2 < size b)%N by case/wf => -[].
have b_neq0 e : e \in fc -> nth 0 b e.2 != 0 by case/wf => -[].
have area_lt e : e \in fc -> (e.2 < size (face_areas g_h))%N by case/wf.
have al_lt e : e \in fc -> (e.1 < size a_l)%N by case/wf.
have phi_lt e : e \in fc -> (e.1 < size phi_l)%N by case/wf.
have ah_lt e : e \in fc -> (cell_of e.2 < size a_h)%N.
  by rewrite /cell_of => /one [c_h ->].
rewrite (take b snd b_lt) /=.
set nz := [seq _ | x <- _].
have nzE : nz = nseq (size fc) true.
  have <- : size nz = size fc by rewrite !size_map.
  apply/all_pred1P; rewrite /nz -map_comp all_map.
  by apply/allP => e /b_neq0 /= b_e; rewrite isclose0 b_e.
have -> /= : np_any nz.
  by rewrite nzE /np_any; case: (size fc) fc_gt0.
have mask_nz (T : Type) (s : seq T) :
  size s = size fc -> take_mask s nz = Ok s.
  by move=> sz; rewrite /take_mask nzE size_nseq sz eqxx mask_true ?sz.
rewrite !mask_nz ?size_map //=.
have -> /= : cells_of_faces g_h [seq e.2 | e <- fc]
          = Ok [seq cell_of e.2 | e <- fc].
  rewrite /cells_of_faces all_map.
  have -> : all (preim snd (fun f => (f < num_faces g_h)%N)) fc.
    by apply/allP => e /wf [].
  have singletons :
    all (fun f => size (cells_at f) == 1%N) [seq e.2 | e <- fc].
    by rewrite all_map; apply/allP => e /one [c_h /= ->].
  by rewrite (flatten_singletons 0%N singletons) -map_comp.
rewrite mask_nz ?size_map //=.
rewrite (take _ (fun e => cell_of e.2) ah_lt) /=.
rewrite (take _ fst al_lt) /= (take _ fst phi_lt) /=.
rewrite !floats_map np_divide_map /= -map_comp (take b snd b_lt) /=.
rewrite (take _ snd area_lt) /= zip_with_map /= !floats_map np_divide_map /=.
rewrite np_divide_map /= -map_comp np_multiply_map /=.
congr amin; apply/eq_in_map => e e_in /=.
by rewrite cfl_entryE ?b_neq0.
Qed.

Lemma cfl_finite :
  (forall e, e \in fc -> nth 0 a_h (head 0%N (cells_at e.2)) != 0) ->
  exists dt, cfl g_h g_l data_h data_l data_edge = Ok (Finite dt).
Proof.
move=> ah_neq0; rewrite cfl_value.
set entries := map _ fc.
have -> : entries
          = [seq Finite (`|nth 0 a_l e.1 * nth 0 (face_areas g_h) e.2
                           / (2%:R * nth 0 b e.2)| * nth 0 phi_l e.1)
            | e <- fc].
  by apply/eq_in_map => e /ah_neq0 /negbTE /= ->.
exact: amin_finite.
Qed.

Lemma cfl_nan :
  (exists2 e, e \in fc & nth 0 a_h (head 0%N (cells_at e.2)) = 0) ->
  cfl g_h g_l data_h data_l data_edge = Ok (NaN R).
Proof.
case=> e e_in ah0; rewrite cfl_value.
case: (fc) e_in => [|e0 s] //= e_in.
rewrite (foldr_fmin_map
           (fun e => nth 0 a_h (head 0%N (cells_at e.2)) == 0) _ e0 s).
suff -> : has (fun e => nth 0 a_h (head 0%N (cells_at e.2)) == 0) (e0 :: s).
  by [].
by apply/hasP; exists e => //; rewrite ah0.
Qed.

End Value.

Section Inputs.

Variable R : realFieldType.

Import Scenario.

Lemma single_pair_one_cell (e : nat * nat) :
  e \in face_cells (single_pair R) ->
  size [seq t.1.2 | t <- cell_faces (matrix2d R) & t.1.1 == e.2] = 1%N.
Proof. by rewrite inE => /eqP ->. Qed.

Lemma single_pair_cfl :
  exists dt, cfl (matrix2d R) (fracture R) (no_data R) (no_data R)
               (single_pair R) = Ok (Finite dt).
Proof.
rewrite /cfl /= /take_idx /= isclose0 pnatr_eq0 /= /take_mask /=.
rewrite /np_divide /np_multiply /map2 /= /zip_with /= /fdiv /fmul /fabs /=.
by rewrite mulr1 !oner_neq0 /= divr1 pnatr_eq0 /=; eexists.
Qed.

(** The interface with two matched pairs, a face of area 0, an aperture 2
    and a porosity 1/2 in the fracture. *)
Lemma flat_one_cell (e : nat * nat) :
  e \in face_cells (flux_two_way R) ->
  size [seq t.1.2 | t <- cell_faces (matrix2d_flat R) & t.1.1 == e.2] = 1%N.
Proof. by rewrite !inE => /orP [] /eqP ->. Qed.

Lemma flat_cfl :
  exists dt, cfl (matrix2d_flat R) (fracture R) (no_data R) (porous R)
               (flux_two_way R) = Ok (Finite dt).
Proof.
apply: (@cfl_finite R _ _ _ _ _ [:: 3%:R; 2%:R]) => // e.
- by rewrite !inE => /orP [] /eqP -> /=; split; rewrite // pnatr_eq0.
- by rewrite !inE => /orP [] /eqP -> /=; [exists 0%N | exists 1%N].
- by rewrite !inE => /orP [] /eqP -> /=; rewrite oner_neq0.
Qed.

(** The same pairs when the cell 0 of the matrix grid has the aperture 0. *)
Lemma sealed_wf (e : nat * nat) :
  e \in face_cells (flux_two_way R) ->
  [/\ (e.2 < size ([:: 3%:R; 2%:R] : seq R)%R)%N
      /\ nth 0 ([:: 3%:R; 2%:R] : seq R) e.2 != 0,
      (e.2 < size (face_areas (matrix2d R)))%N,
      (e.2 < num_faces (matrix2d R))%N,
      (e.1 < size (get_default (a (no_data R)) (num_cells (fracture R))))%N
    & (e.1 < size (get_default (phi (no_data R)) (num_cells (fracture R))))%N].
Proof.
by rewrite !inE => /orP [] /eqP -> /=; split; rewrite // pnatr_eq0.
Qed.

Lemma sealed_cells (e : nat * nat) :
  e \in face_cells (flux_two_way R) ->
  exists2 c_h,
    [seq t.1.2 | t <- cell_faces (matrix2d R) & t.1.1 == e.2] = [:: c_h]
    & (c_h < size (get_default (a (sealed R)) (num_cells (matrix2d R))))%N.
Proof.
by rewrite !inE => /orP [] /eqP -> /=; [exists 0%N | exists 1%N].
Qed.

Lemma sealed_zero :
  exists2 e, e \in face_cells (flux_two_way R)
    & nth 0 (get_default (a (sealed R)) (num_cells (matrix2d R)))
          (head 0%N [seq t.1.2 | t <- cell_faces (matrix2d R) & t.1.1 == e.2])
      = 0.
Proof. by exists (0%N, 0%N). Qed.

End Inputs.

End CflTheory.

(** * The balance of the matched pairs *)

Module UpwindClaims.
Import UpwindCoupling Scenario SparseTheory UpwindTheory UpwindSums CflTheory.

Section Theory.

Variable R : realFieldType.

Implicit Types (q : R) (ch : seq nat) (fc : seq (nat * nat)).

(** What a pair with the flux [q] sends to each block. *)
Lemma outflow_if q : outflow q = if 0 < q then q else 0.
Proof. by rewrite outflowE /clip_min0; case: ltP. Qed.

Lemma clip_min0_if q : - clip_min0 q = if 0 < q then - q else 0.
Proof. by rewrite /clip_min0; case: ltP => // _; rewrite oppr0. Qed.

Lemma inflow_if q : inflow q = if q < 0 then `|q| else 0.
Proof.
rewrite inflowE /clip_max0; case: ltP => [q_lt0|_]; last by rewrite oppr0.
by rewrite ltr0_norm.
Qed.

Lemma clip_max0_if q : clip_max0 q = if q < 0 then q else 0.
Proof. by rewrite /clip_max0; case: ltP. Qed.

(** Sums over the pairs (cell of the higher grid, matched pair). *)
Lemma sum_pairs_higher (F : nat * nat -> R) (P : pred nat) ch fc :
  \sum_(p <- zip ch [seq F e | e <- fc] | P p.1) p.2
  = \sum_(x <- zip ch fc | P x.1) F x.2.
Proof.
elim: ch fc => [|c ch IH] [|e fc] //=; rewrite ?big_nil //.
by rewrite !big_cons IH.
Qed.

Lemma sum_pairs_lower (F : nat * nat -> R) (P : pred nat) ch fc :
  size ch = size fc ->
  \sum_(p <- zip [seq e.1 | e <- fc] [seq F e | e <- fc] | P p.1) p.2
  = \sum_(x <- zip ch fc | P x.2.1) F x.2.
Proof.
elim: ch fc => [|c ch IH] [|e fc] //=; rewrite ?big_nil //.
by case=> sz; rewrite !big_cons IH.
Qed.

Lemma sum_pairs_lh (F : nat * nat -> R) (P : nat -> nat -> bool) ch fc :
  \sum_(e <- zip (zip [seq e.1 | e <- fc] ch) [seq F e | e <- fc]
        | P e.1.1 e.1.2) e.2
  = \sum_(x <- zip ch fc | P x.2.1 x.1) F x.2.
Proof.
elim: ch fc => [|c ch IH] [|e fc] //=; rewrite ?big_nil //.
by rewrite !big_cons IH.
Qed.

Lemma sum_pairs_hl (F : nat * nat -> R) (P : nat -> nat -> bool) ch fc :
  \sum_(e <- zip (zip ch [seq e.1 | e <- fc]) [seq F e | e <- fc]
        | P e.1.1 e.1.2) e.2
  = \sum_(x <- zip ch fc | P x.1 x.2.1) F x.2.
Proof.
elim: ch fc => [|c ch IH] [|e fc] //=; rewrite ?big_nil //.
by rewrite !big_cons IH.
Qed.

Lemma sum_pairs_out (key : nat * (nat * nat) -> nat) (P : pred nat)
    (G : nat * (nat * nat) -> R) ch fc i :
  all (fun x => P (key x)) (zip ch fc) -> ~~ P i ->
  \sum_(x <- zip ch fc | key x == i) G x = 0.
Proof.
move=> /allP Pkey nPi; rewrite big_seq_cond big1 // => x /andP [/Pkey Px].
by move/eqP=> xi; rewrite xi (negbTE nPi) in Px.
Qed.

Lemma all_pairs_higher (P : pred nat) ch fc :
  all P ch -> all (fun x : nat * (nat * nat) => P x.1) (zip ch fc).
Proof.
elim: ch fc => [|c ch IH] [|e fc] //= /andP [-> /=].
exact: IH.
Qed.

Lemma all_pairs_lower (P : pred nat) ch fc :
  all P [seq e.1 | e <- fc] ->
  all (fun x : nat * (nat * nat) => P x.2.1) (zip ch fc).
Proof.
elim: ch fc => [|c ch IH] [|e fc] //= /andP [-> /=].
exact: IH.
Qed.

(** The orientation-corrected fluxes of the matched faces. *)
Lemma signed_flux_same (sgn b : seq R) (f : seq nat) (qs : seq R) :
  signed_flux sgn b f f = Ok qs ->
  qs = [seq nth 0 sgn i * nth 0 b i | i <- f].
Proof.
rewrite /signed_flux /take_idx; case: ifP => //= _; case: ifP => //= _.
by rewrite zip_with_map => -[<-].
Qed.

Lemma flux_two_way_ok :
  exists cc, matrix_rhs (@num_cells R) (matrix2d R) (fracture R)
               (no_data R) (no_data R) (flux_two_way R) = Ok cc.
Proof.
rewrite /matrix_rhs /= /signed_flux /take_idx /= /zip_with /=.
by eexists.
Qed.

End Theory.

(** C4: in the dimension-adjacent case, whenever [matrix_rhs] returns, each
    block is the sum of what the matched pairs generate, whatever their
    number.  The pairs are taken as the source pairs them: the k-th entry
    [c_h] of [cells_h] with the k-th matched pair (cell [c_l] of the lower
    grid, face [f_h] of the higher grid); when every matched face has one
    cell, [c_h] is the cell of [f_h].  A pair with orientation-corrected
    flux [q > 0] adds [q] to the higher diagonal at [c_h] and [-q] to the
    (lower, higher) entry at [(c_l, c_h)]; a pair with [q < 0] adds [|q|] to
    the lower diagonal at [c_l] and [q] to the (higher, lower) entry at
    [(c_h, c_l)]; it adds nothing else.  The off-diagonal entry and the
    diagonal entry of the opposite side that a pair generates thus agree in
    magnitude. *)
Theorem adjacent_pair_balance (R : realFieldType) (ndof : grid R -> nat)
    (g_h g_l : grid R) (data_h data_l : grid_data R)
    (data_edge : edge_data R) (b : seq R) (cc : block_matrix R) :
  dim g_h != dim g_l ->
  beta_n data_edge = Some b ->
  matrix_rhs ndof g_h g_l data_h data_l data_edge = Ok cc ->
  exists2 cells_h,
    [/\ cells_of_faces g_h [seq e.2 | e <- face_cells data_edge] = Ok cells_h,
        size cells_h = size (face_cells data_edge)
      & (forall e, e \in face_cells data_edge ->
           size [seq t.1.2 | t <- cell_faces g_h & t.1.1 == e.2] = 1%N) ->
        cells_h
        = [seq head 0%N [seq t.1.2 | t <- cell_faces g_h & t.1.1 == e.2]
          | e <- face_cells data_edge]]
  & let q (x : nat * (nat * nat)) := pair_flux g_h b x.2.2 in
    forall i j,
    [/\ coeff (cc00 cc) i j
        = \sum_(x <- zip cells_h (face_cells data_edge)
                | (x.1 == i) && (x.1 == j)) (if 0 < q x then q x else 0),
        coeff (cc10 cc) i j
        = \sum_(x <- zip cells_h (face_cells data_edge)
                | (x.2.1 == i) && (x.1 == j)) (if 0 < q x then - q x else 0),
        coeff (cc11 cc) i j
        = \sum_(x <- zip cells_h (face_cells data_edge)
                | (x.2.1 == i) && (x.2.1 == j))
             (if q x < 0 then `|q x| else 0)
      & coeff (cc01 cc) i j
        = \sum_(x <- zip cells_h (face_cells data_edge)
                | (x.1 == i) && (x.2.1 == j)) (if q x < 0 then q x else 0)].
Proof.
move=> dim_neq bE Hcc; move: (Hcc).
rewrite /matrix_rhs bE (negbTE dim_neq) /=.
set fc := face_cells data_edge.
case Eq: (signed_flux _ _ _ _) => [qs|] //=.
case Ec: (cells_of_faces _ _) => [cells_h|] //=.
case E11: (add_at _ _ _) => [d11|] //=.
case E00: (add_at _ _ _) => [d00|] //=.
case E10: (coo_matrix _ _ _ _ _) => [c10|] //=.
case E01: (coo_matrix _ _ _ _ _) => [c01|] //= [ccE].
have qsE : qs = [seq pair_flux g_h b e.2 | e <- fc].
  by rewrite (signed_flux_same Eq) -map_comp.
have [sl10 sh10 l_dof h_dof c10E] := coo_matrix_inv E10.
have [_ _ _ _ c01E] := coo_matrix_inv E01.
have sz_qs : size qs = size fc by rewrite qsE size_map.
have sh : size cells_h = size fc by rewrite sh10 size_map.
have [vs0 Ev0 [h_lt sz00 d00E]] := add_at_inv E00.
have [vs1 Ev1 [l_lt sz11 d11E]] := add_at_inv E11.
have vs0E : vs0 = [seq outflow x | x <- qs].
  move: Ev0; rewrite sh -sz_qs -(size_map (@outflow R)) broadcast_to_size.
  by case.
have vs1E : vs1 = [seq inflow x | x <- qs].
  move: Ev1; rewrite size_map -sz_qs -(size_map (@inflow R)).
  by rewrite broadcast_to_size => -[].
exists cells_h.
  split=> // one; move: Ec; rewrite /cells_of_faces; case: ifP => // _ [<-].
  rewrite (@flatten_singletons _ 0%N) -?map_comp // all_map.
  by apply/allP => e /one /= ->.
move=> i j; rewrite -ccE /=; split.
- rewrite coeff_diaE d00E nth_nseq if_same add0r vs0E qsE -map_comp.
  rewrite (sum_pairs_higher _ (fun k => k == i)) /=.
  case: (eqVneq i j) => [<-|i_neq_j] /=; last first.
    rewrite big_pred0 // => x; apply/negbTE/negP => /andP [/eqP xi /eqP xj].
    by rewrite -xi xj eqxx in i_neq_j.
  under [in RHS]eq_bigl => x do rewrite andbb.
  under [in RHS]eq_bigr => x _ do rewrite -outflow_if.
  case: ifP => // /negbT i_ge.
  pose P c := (c < minn (size d00) (minn (ndof g_h) (ndof g_h)))%N.
  apply/esym/(sum_pairs_out (key := fst) (P := P)) => //.
  apply: (@all_pairs_higher P); apply/allP => c c_in.
  rewrite /P minnn sz00 leq_min (allP h_lt) //.
  exact: (allP h_dof).
- rewrite c10E /coeff /= qsE -map_comp.
  rewrite (sum_pairs_lh _ (fun k l => (k == i) && (l == j))) /=.
  by apply: eq_bigr => x _; rewrite clip_min0_if.
- rewrite coeff_diaE d11E nth_nseq if_same add0r vs1E qsE -map_comp.
  rewrite (sum_pairs_lower _ (fun k => k == i) sh) /=.
  case: (eqVneq i j) => [<-|i_neq_j] /=; last first.
    rewrite big_pred0 // => x; apply/negbTE/negP => /andP [/eqP xi /eqP xj].
    by rewrite -xi xj eqxx in i_neq_j.
  under [in RHS]eq_bigl => x do rewrite andbb.
  under [in RHS]eq_bigr => x _ do rewrite -inflow_if.
  case: ifP => // /negbT i_ge.
  pose P c := (c < minn (size d11) (minn (ndof g_l) (ndof g_l)))%N.
  apply/esym/(sum_pairs_out (key := fun x => x.2.1) (P := P)) => //.
  apply: (@all_pairs_lower P); apply/allP => c c_in.
  rewrite /P minnn sz11 leq_min (allP l_lt) //.
  exact: (allP l_dof).
- rewrite c01E /coeff /= qsE -map_comp.
  rewrite (sum_pairs_hl _ (fun k l => (k == i) && (l == j))) /=.
  by apply: eq_bigr => x _; rewrite clip_max0_if.
Qed.

(** C4 on the interface with two matched pairs: flux 3 out of the cell 0 of
    the matrix grid through its face 0, flux -2 (after the orientation sign)
    into its cell 1 through its face 1. *)
Lemma adjacent_pair_balance_witness :
  exists cc, matrix_rhs (@num_cells rat) (matrix2d rat) (fracture rat)
               (no_data rat) (no_data rat) (flux_two_way rat) = Ok cc
  /\ exists2 cells_h,
    [/\ cells_of_faces (matrix2d rat)
          [seq e.2 | e <- face_cells (flux_two_way rat)] = Ok cells_h,
        size cells_h = size (face_cells (flux_two_way rat))
      & (forall e, e \in face_cells (flux_two_way rat) ->
           size [seq t.1.2 | t <- cell_faces (matrix2d rat) & t.1.1 == e.2]
           = 1%N) ->
        cells_h
        = [seq head 0%N
                 [seq t.1.2 | t <- cell_faces (matrix2d rat) & t.1.1 == e.2]
          | e <- face_cells (flux_two_way rat)]]
  & let q (x : nat * (nat * nat)) :=
      pair_flux (matrix2d rat) [:: 3%:R; 2%:R] x.2.2 in
    forall i j,
    [/\ coeff (cc00 cc) i j
        = \sum_(x <- zip cells_h (face_cells (flux_two_way rat))
                | (x.1 == i) && (x.1 == j)) (if 0 < q x then q x else 0),
        coeff (cc10 cc) i j
        = \sum_(x <- zip cells_h (face_cells (flux_two_way rat))
                | (x.2.1 == i) && (x.1 == j)) (if 0 < q x then - q x else 0),
        coeff (cc11 cc) i j
        = \sum_(x <- zip cells_h (face_cells (flux_two_way rat))
                | (x.2.1 == i) && (x.2.1 == j))
             (if q x < 0 then `|q x| else 0)
      & coeff (cc01 cc) i j
        = \sum_(x <- zip cells_h (face_cells (flux_two_way rat))
                | (x.1 == i) && (x.2.1 == j)) (if q x < 0 then q x else 0)].
Proof.
have [cc Hcc] := flux_two_way_ok rat; exists cc; split; first exact: Hcc.
exact: (@adjacent_pair_balance rat (@num_cells rat) (matrix2d rat)
          (fracture rat) (no_data rat) (no_data rat) (flux_two_way rat)
          [:: 3%:R; 2%:R] cc isT erefl Hcc).
Defined.

End UpwindClaims.

(** * Further properties of the interface coupling *)

Module UpwindExtras.
Import UpwindCoupling Scenario SparseTheory UpwindSums UpwindTheory.

(** X1: in the dimension-adjacent case, whenever [matrix_rhs] returns, every
    column of the block matrix sums to zero: what the diagonal block of a
    grid sends out of a cell is what the off-diagonal block brings into the
    cells of the other grid. *)
Theorem adjacent_columns_sum_to_zero (R : realFieldType)
    (ndof : grid R -> nat) (g_h g_l : grid R) (data_h data_l : grid_data R)
    (data_edge : edge_data R) (cc : block_matrix R) (c : nat) :
  dim g_h != dim g_l ->
  matrix_rhs ndof g_h g_l data_h data_l data_edge = Ok cc ->
  \sum_(i < ndof g_h) coeff (cc00 cc) i c
    + \sum_(i < ndof g_l) coeff (cc10 cc) i c = 0
  /\ \sum_(i < ndof g_h) coeff (cc01 cc) i c
      + \sum_(i < ndof g_l) coeff (cc11 cc) i c = 0.
Proof.
move=> dim_neq /(adjacent_inv dim_neq).
case=> q [cells_h] [d00] [d11] [[size_q E11 E00] E10 E01 -> ->].
have [sl10 sh10 l_lt _ cc10E] := coo_matrix_inv E10.
have [_ _ h_lt _ cc01E] := coo_matrix_inv E01.
have sh : size cells_h = size q by rewrite sh10 size_map.
have sl : size [seq e.1 | e <- face_cells data_edge] = size q.
  by rewrite sl10 size_map.
have [vs0 Ev0 [_ _ d00E]] := add_at_inv E00.
have [vs1 Ev1 [_ _ d11E]] := add_at_inv E11.
have vs0E : vs0 = [seq outflow x | x <- q].
  by move: Ev0; rewrite sh -(size_map (@outflow R)) broadcast_to_size => -[].
have vs1E : vs1 = [seq inflow x | x <- q].
  by move: Ev1; rewrite sl -(size_map (@inflow R)) broadcast_to_size => -[].
have col00 :
  \sum_(i < ndof g_h) coeff (dia_matrix d00 (ndof g_h) (ndof g_h)) i c
  = \sum_(p <- zip cells_h q | p.1 == c) clip_min0 p.2.
  rewrite colsum_dia d00E nth_nseq if_same add0r vs0E.
  rewrite (sum_zip_map (@outflow R) (fun k => k == c)).
  under [in LHS]eq_bigr => p _ do rewrite outflowE.
  by case: ifP => // /negbT c_ge; rewrite (sum_zip_out _ _ h_lt).
have col11 :
  \sum_(i < ndof g_l) coeff (dia_matrix d11 (ndof g_l) (ndof g_l)) i c
  = \sum_(p <- zip [seq e.1 | e <- face_cells data_edge] q | p.1 == c)
       - clip_max0 p.2.
  rewrite colsum_dia d11E nth_nseq if_same add0r vs1E.
  rewrite (sum_zip_map (@inflow R) (fun k => k == c)).
  under [in LHS]eq_bigr => p _ do rewrite inflowE.
  by case: ifP => // /negbT c_ge; rewrite (sum_zip_out _ _ l_lt).
have col10 :
  \sum_(i < ndof g_l) coeff (cc10 cc) i c
  = \sum_(p <- zip cells_h q | p.1 == c) - clip_min0 p.2.
  rewrite cc10E.
  have /= -> := @colsum_entries R (SpMatrix (ndof g_l) (ndof g_h) _) c
                  (all_zip_rows _ _ l_lt).
  rewrite (sum_zip_col (fun k => k == c)) ?sl //.
  by rewrite (sum_zip_map (fun x => - clip_min0 x) (fun k => k == c)).
have col01 :
  \sum_(i < ndof g_h) coeff (cc01 cc) i c
  = \sum_(p <- zip [seq e.1 | e <- face_cells data_edge] q | p.1 == c)
       clip_max0 p.2.
  rewrite cc01E.
  have /= -> := @colsum_entries R (SpMatrix (ndof g_h) (ndof g_l) _) c
                  (all_zip_rows _ _ h_lt).
  rewrite (sum_zip_col (fun k => k == c)) ?sh //.
  by rewrite (sum_zip_map (@clip_max0 R) (fun k => k == c)).
rewrite col00 col10 col01 col11 -!big_split /=.
by split; apply: big1 => p _; rewrite ?subrr ?addrN.
Qed.

(** X1 at the pair (cell 0 of the fracture, face 0 of the matrix grid). *)
Lemma adjacent_columns_sum_to_zero_witness :
  exists cc, matrix_rhs (@num_cells rat) (matrix2d rat) (fracture rat)
               (no_data rat) (no_data rat) (single_pair rat) = Ok cc
  /\ (\sum_(i < 2) coeff (cc00 cc) i 0 + \sum_(i < 1) coeff (cc10 cc) i 0 = 0
      /\ \sum_(i < 2) coeff (cc01 cc) i 0
          + \sum_(i < 1) coeff (cc11 cc) i 0 = 0).
Proof.
have [cc Hcc] := single_pair_ok rat; exists cc; split=> //.
exact: (@adjacent_columns_sum_to_zero rat (@num_cells rat) (matrix2d rat)
          (fracture rat) (no_data rat) (no_data rat) (single_pair rat)
          cc 0 isT Hcc).
Defined.

(** X2: whenever [matrix_rhs] returns, in either branch, the entries of the
    two diagonal blocks are non-negative and the entries of the two
    off-diagonal blocks are non-positive. *)
Theorem block_signs (R : realFieldType)
    (ndof : grid R -> nat) (g_h g_l : grid R) (data_h data_l : grid_data R)
    (data_edge : edge_data R) (cc : block_matrix R) (i j : nat) :
  matrix_rhs ndof g_h g_l data_h data_l data_edge = Ok cc ->
  [/\ 0 <= coeff (cc00 cc) i j, 0 <= coeff (cc11 cc) i j,
      coeff (cc01 cc) i j <= 0 & coeff (cc10 cc) i j <= 0].
Proof.
have zeros_ge0 n k : 0 <= nth 0 (nseq n (0 : R)) k by rewrite nth_nseq if_same.
have out_ge0 (q : seq R) : all (fun x => 0 <= x) [seq outflow x | x <- q].
  by rewrite all_map; apply/allP => x _ /=; rewrite outflowE clip_min0_ge0.
have in_ge0 (q : seq R) : all (fun x => 0 <= x) [seq inflow x | x <- q].
  rewrite all_map; apply/allP => x _ /=.
  by rewrite inflowE oppr_ge0 clip_max0_le0.
have max_le0 (q : seq R) : all (fun x => x <= 0) [seq clip_max0 x | x <- q].
  by rewrite all_map; apply/allP => x _ /=; rewrite clip_max0_le0.
have min_le0 (q : seq R) : all (fun x => x <= 0) [seq - clip_min0 x | x <- q].
  by rewrite all_map; apply/allP => x _ /=; rewrite oppr_le0 clip_min0_ge0.
case: (eqVneq (dim g_h) (dim g_l)) => [dim_eq|dim_neq].
  case/(equal_dim_inv dim_eq) => q_h [q_l] [cells_h] [cells_l] [d] [d11].
  case=> [[E1 E2] E10 E01 -> ->]; split.
  - exact: coeff_dia_ge0.
  - apply: coeff_dia_ge0; apply: (add_at_ge0 _ (out_ge0 q_h) E2).
    exact: (add_at_ge0 _ (out_ge0 q_l) E1).
  - exact: (coeff_coo_le0 _ _ (max_le0 q_h) E01).
  - exact: (coeff_coo_le0 _ _ (max_le0 q_l) E10).
case/(adjacent_inv dim_neq) => q [cells_h] [d00] [d11].
case=> [[_ E11 E00] E10 E01 -> ->]; split.
- by apply: coeff_dia_ge0; apply: (add_at_ge0 _ (out_ge0 q) E00).
- by apply: coeff_dia_ge0; apply: (add_at_ge0 _ (in_ge0 q) E11).
- exact: (coeff_coo_le0 _ _ (max_le0 q) E01).
- exact: (coeff_coo_le0 _ _ (min_le0 q) E10).
Qed.

(** X2 on the two intervals that meet at a point. *)
Lemma block_signs_witness :
  exists cc, matrix_rhs (@num_cells rat) (left rat) (right rat)
               (no_data rat) (no_data rat) (meet rat) = Ok cc
  /\ [/\ 0 <= coeff (cc00 cc) 0 0, 0 <= coeff (cc11 cc) 0 0,
          coeff (cc01 cc) 0 0 <= 0 & coeff (cc10 cc) 0 0 <= 0].
Proof.
eexists; split; first exact: meet_eval.
exact: (@block_signs rat (@num_cells rat) (left rat) (right rat) (no_data rat)
          (no_data rat) (meet rat) _ 0 0 (meet_eval rat)).
Defined.

End UpwindExtras.

Module CflExtras.
Import UpwindCoupling Scenario UpwindTheory CflTheory.

(** X5: when every matched face has one cell in the higher grid and [cfl]
    returns a finite step, the step is the smallest, over the matched pairs
    (cell [c_l], face [f_h]), of [|a_l[c_l] * area[f_h] / (2 * beta_n[f_h])|
    * phi_l[c_l]]; the aperture of the higher grid cancels. *)
Theorem cfl_min_over_pairs (R : realFieldType) (g_h g_l : grid R)
    (data_h data_l : grid_data R) (data_edge : edge_data R) (b : seq R)
    (dt : R) :
  beta_n data_edge = Some b ->
  (forall e, e \in face_cells data_edge ->
     size [seq t.1.2 | t <- cell_faces g_h & t.1.1 == e.2] = 1%N) ->
  cfl g_h g_l data_h data_l data_edge = Ok (Finite dt) ->
  let step (e : nat * nat) :=
    `|nth 0 (get_default (a data_l) (num_cells g_l)) e.1
      * nth 0 (face_areas g_h) e.2 / (2%:R * nth 0 b e.2)|
    * nth 0 (get_default (phi data_l) (num_cells g_l)) e.1 in
  (exists2 e, e \in face_cells data_edge & dt = step e)
  /\ (forall e, e \in face_cells data_edge -> dt <= step e).
Proof.
move=> bE one_cell /(cfl_finite_inv bE one_cell) [_ dt_in dt_le] step; split.
  by case/mapP: dt_in => e e_in ->; exists e.
exact: dt_le.
Qed.

(** X5 on the interface with two matched pairs, fluxes 3 and 2, where the
    face 0 has the area 0 and the fracture the aperture 2 and the porosity
    1/2: the values of the pairs are 0 and 1/4. *)
Lemma cfl_min_over_pairs_witness :
  exists dt, cfl (matrix2d_flat rat) (fracture rat) (no_data rat) (porous rat)
               (flux_two_way rat) = Ok (Finite dt)
  /\ let step (e : nat * nat) :=
       `|nth 0 (get_default (a (porous rat)) (num_cells (fracture rat))) e.1
         * nth 0 (face_areas (matrix2d_flat rat)) e.2
         / (2%:R * nth 0 [:: 3%:R; 2%:R] e.2)|
       * nth 0 (get_default (phi (porous rat)) (num_cells (fracture rat))) e.1
     in
     (exists2 e, e \in face_cells (flux_two_way rat) & dt = step e)
     /\ (forall e, e \in face_cells (flux_two_way rat) -> dt <= step e).
Proof.
have [dt Hdt] := flat_cfl rat; exists dt; split; first exact: Hdt.
exact: (@cfl_min_over_pairs rat (matrix2d_flat rat) (fracture rat)
          (no_data rat) (porous rat) (flux_two_way rat) [:: 3%:R; 2%:R] dt
          erefl (@flat_one_cell rat) Hdt).
Defined.

(** X27: a zero aperture in the higher grid makes the step [nan] without
    any exception: on a well-formed interface with flux through all its
    matched faces, where every index is inside its array and every matched
    face has one cell of the higher grid, if that cell has the aperture 0 at
    some matched face, [cfl] returns [nan]. *)
Theorem cfl_zero_aperture_nan (R : realFieldType) (g_h g_l : grid R)
    (data_h data_l : grid_data R) (data_edge : edge_data R) (b : seq R) :
  beta_n data_edge = Some b ->
  (forall e, e \in face_cells data_edge ->
     [/\ (e.2 < size b)%N /\ nth 0 b e.2 != 0,
         (e.2 < size (face_areas g_h))%N, (e.2 < num_faces g_h)%N,
         (e.1 < size (get_default (a data_l) (num_cells g_l)))%N
       & (e.1 < size (get_default (phi data_l) (num_cells g_l)))%N]) ->
  (forall e, e \in face_cells data_edge ->
     exists2 c_h,
       [seq t.1.2 | t <- cell_faces g_h & t.1.1 == e.2] = [:: c_h]
       & (c_h < size (get_default (a data_h) (num_cells g_h)))%N) ->
  (exists2 e, e \in face_cells data_edge
     & nth 0 (get_default (a data_h) (num_cells g_h))
           (head 0%N [seq t.1.2 | t <- cell_faces g_h & t.1.1 == e.2]) = 0) ->
  cfl g_h g_l data_h data_l data_edge = Ok (NaN R).
Proof.
move=> bE wf one zero; apply: (cfl_nan bE _ wf one zero).
by case: zero => e; case: (face_cells data_edge).
Qed.

(** X27 on the interface with two matched pairs, where the cell 0 of the
    matrix grid has the aperture 0. *)
Lemma cfl_zero_aperture_nan_witness :
  cfl (matrix2d rat) (fracture rat) (sealed rat) (no_data rat)
      (flux_two_way rat) = Ok (NaN rat).
Proof.
exact: (@cfl_zero_aperture_nan rat (matrix2d rat) (fracture rat) (sealed rat)
          (no_data rat) (flux_two_way rat) [:: 3%:R; 2%:R] erefl
          (@sealed_wf rat) (@sealed_cells rat) (@sealed_zero rat)).
Defined.

End CflExtras.

Module UpwindTotal.
Import UpwindCoupling Scenario SparseTheory UpwindTheory UpwindSums CflTheory.

(** X3: in the dimension-adjacent case [matrix_rhs] returns on every
    well-formed interface: a flux value and an orientation sign for each
    matched face, one cell of the higher grid at each matched face, and every
    matched cell inside the arrays and the blocks. *)
Theorem adjacent_returns (R : realFieldType) (ndof : grid R -> nat)
    (g_h g_l : grid R) (data_h data_l : grid_data R)
    (data_edge : edge_data R) (b : seq R) :
  dim g_h != dim g_l ->
  beta_n data_edge = Some b ->
  (forall e, e \in face_cells data_edge ->
     [/\ (e.2 < size b)%N, (e.2 < size (face_signs g_h))%N,
         (e.2 < num_faces g_h)%N, (e.1 < num_cells g_l)%N
       & (e.1 < ndof g_l)%N]) ->
  (forall e, e \in face_cells data_edge ->
     exists2 c_h,
       [seq t.1.2 | t <- cell_faces g_h & t.1.1 == e.2] = [:: c_h]
       & (c_h < num_cells g_h)%N /\ (c_h < ndof g_h)%N) ->
  exists cc, matrix_rhs ndof g_h g_l data_h data_l data_edge = Ok cc.
Proof.
move=> /negbTE dimF bE wf one; rewrite /matrix_rhs bE dimF /=.
set fc := face_cells data_edge in wf one *.
have -> : signed_flux (face_signs g_h) b [seq e.2 | e <- fc] [seq e.2 | e <- fc]
          = Ok [seq nth 0 (face_signs g_h) e.2 * nth 0 b e.2 | e <- fc].
  rewrite /signed_flux /take_idx !all_map.
  have -> : all (preim snd (fun i => (i < size (face_signs g_h))%N)) fc.
    by apply/allP => e /wf [].
  have -> /= : all (preim snd (fun i => (i < size b)%N)) fc.
    by apply/allP => e /wf [].
  by rewrite -!map_comp zip_with_map.
pose cell_of (f : nat) :=
  head 0%N [seq t.1.2 | t <- cell_faces g_h & t.1.1 == f].
have -> /= : cells_of_faces g_h [seq e.2 | e <- fc]
          = Ok [seq cell_of e.2 | e <- fc].
  rewrite /cells_of_faces all_map.
  have -> : all (preim snd (fun f => (f < num_faces g_h)%N)) fc.
    by apply/allP => e /wf [].
  rewrite (@flatten_singletons _ 0%N) -?map_comp // all_map.
  by apply/allP => e /one [c_h /= ->].
have cells_h_lt e : e \in fc ->
  (cell_of e.2 < num_cells g_h)%N /\ (cell_of e.2 < ndof g_h)%N.
  by rewrite /cell_of => /one [c_h ->].
rewrite /add_at /= !size_map /broadcast_to !size_map !eqxx /= !size_nseq.
rewrite !all_map.
have -> /= : all (preim fst (fun i => (i < num_cells g_l)%N)) fc.
  by apply/allP => e /wf [].
have -> /= : all (preim (fun e => cell_of e.2)
                       (fun i => (i < num_cells g_h)%N)) fc.
  by apply/allP => e /cells_h_lt [].
rewrite /coo_matrix !size_map !eqxx /= !all_map.
have -> /= : all (preim fst (fun i => (i < ndof g_l)%N)) fc.
  by apply/allP => e /wf [].
have -> /= : all (preim (fun e => cell_of e.2)
                       (fun i => (i < ndof g_h)%N)) fc.
  by apply/allP => e /cells_h_lt [].
by eexists.
Qed.

Section Inputs.

Variable R : realFieldType.

Lemma single_pair_wf (e : nat * nat) :
  e \in face_cells (single_pair R) ->
  [/\ (e.2 < size ([:: 3%:R; 0] : seq R)%R)%N,
      (e.2 < size (face_signs (matrix2d R)))%N,
      (e.2 < num_faces (matrix2d R))%N, (e.1 < num_cells (fracture R))%N
    & (e.1 < num_cells (fracture R))%N].
Proof. by rewrite inE => /eqP ->. Qed.

Lemma single_pair_cells (e : nat * nat) :
  e \in face_cells (single_pair R) ->
  exists2 c_h,
    [seq t.1.2 | t <- cell_faces (matrix2d R) & t.1.1 == e.2] = [:: c_h]
    & (c_h < num_cells (matrix2d R))%N /\ (c_h < num_cells (matrix2d R))%N.
Proof. by rewrite inE => /eqP ->; exists 0%N. Qed.

Lemma flux_one_face_wf (e : nat * nat) :
  e \in face_cells (flux_one_face R) ->
  (e.2 < size ([:: 0; 1] : seq R)%R)%N
  /\ size [seq t.1.2 | t <- cell_faces (matrix2d R) & t.1.1 == e.2] = 1%N.
Proof. by rewrite !inE => /orP [] /eqP ->. Qed.

End Inputs.

(** X3 at the pair (cell 0 of the fracture, face 0 of the matrix grid). *)
Lemma adjacent_returns_witness :
  exists cc, matrix_rhs (@num_cells rat) (matrix2d rat) (fracture rat)
               (no_data rat) (no_data rat) (single_pair rat) = Ok cc.
Proof.
exact: (@adjacent_returns rat (@num_cells rat) (matrix2d rat) (fracture rat)
          (no_data rat) (no_data rat) (single_pair rat) [:: 3%:R; 0]
          isT erefl (@single_pair_wf rat) (@single_pair_cells rat)).
Defined.

(** X6 on the interface with flux through one of its two faces. *)
Lemma cfl_mixed_flux_witness :
  cfl (matrix2d rat) (fracture rat) (no_data rat) (no_data rat)
      (flux_one_face rat) = Raise IndexError.
Proof.
apply: (@cfl_mixed_flux rat (matrix2d rat) (fracture rat) (no_data rat)
          (no_data rat) (flux_one_face rat) [:: 0; 1] erefl
          (@flux_one_face_wf rat)).
- by exists (0%N, 0%N).
- by exists (0%N, 1%N); rewrite ?inE ?eqxx ?orbT //=; exact: oner_neq0.
Defined.

(** X4 on the two intervals that meet at a point. *)
Lemma equal_dim_cc00_zero_witness :
  exists cc, matrix_rhs (@num_cells rat) (left rat) (right rat)
               (no_data rat) (no_data rat) (meet rat) = Ok cc
  /\ coeff (cc00 cc) 0 0 = 0.
Proof.
eexists; split; first exact: meet_eval.
exact: (@equal_dim_cc00_zero rat (@num_cells rat) (left rat) (right rat)
          (no_data rat) (no_data rat) (meet rat) _ 0 0 erefl (meet_eval rat)).
Defined.

End UpwindTotal.

Module UpwindMore.
Import UpwindCoupling Scenario SparseTheory UpwindTheory UpwindSums CflTheory.

Section Theory.

Variable R : realFieldType.

Implicit Types (q x : R) (M : spmatrix R) (a vals : seq R) (idx : seq nat).

(** Arrays of zeros. *)
Lemma add_at_zero a idx vals b :
  (forall i, nth 0 a i = 0) -> all (fun x => x == 0) vals ->
  add_at a idx vals = Ok b -> forall i, nth 0 b i = 0.
Proof.
move=> a0 vals0 /add_at_inv [vs Ev [_ _ bE]] i.
have /allP vs0 := all_zip_vals idx (all_broadcast_to Ev vals0).
rewrite bE a0 add0r big_seq_cond big1 // => p /andP [p_in _].
exact/eqP/vs0.
Qed.

Lemma coeff_dia_zero (diag : seq R) r c i j :
  (forall k, nth 0 diag k = 0) -> coeff (dia_matrix diag r c) i j = 0.
Proof. by move=> diag0; rewrite coeff_diaE diag0 if_same. Qed.

Lemma coeff_coo_zero (data : seq R) (row col : seq nat) r c M i j :
  all (fun x => x == 0) data -> coo_matrix data row col r c = Ok M ->
  coeff M i j = 0.
Proof.
move=> data0 /coo_matrix_inv [_ _ _ _ ->]; rewrite /coeff /=.
have /allP vs0 := all_zip_vals (zip row col) data0.
rewrite big_seq_cond big1 // => e /andP [e_in _].
exact/eqP/vs0.
Qed.

Lemma signed_flux_zero (sgn b : seq R) (f1 f2 : seq nat) (qs : seq R) :
  all (fun x => x == 0) b -> signed_flux sgn b f1 f2 = Ok qs ->
  all (fun x => x == 0) qs.
Proof.
move=> /allP b0; rewrite /signed_flux /take_idx.
case: ifP => //= _; case: ifP => //= /allP f2_lt.
have q0 : all (fun x => x == 0) [seq nth 0 b i | i <- f2].
  by rewrite all_map; apply/allP => i /f2_lt i_lt /=; rewrite b0 ?mem_nth.
rewrite /zip_with; case: ifP => _.
  case=> <-; rewrite all_map; apply/allP => xy xy_in /=.
  have /allP := all_zip_vals [seq nth 0 sgn i | i <- f1] q0.
  by move=> /(_ xy xy_in) /eqP ->; rewrite mulr0.
case: ifP => _.
  case=> <-; rewrite all_map; apply/allP => y /(allP q0) /eqP -> /=.
  by rewrite mulr0.
case: ifP => // sz1 [<-]; rewrite all_map; apply/allP => x _ /=.
case: [seq nth 0 b i | i <- f2] sz1 q0 => [|y [|z s]] //= _.
by rewrite andbT => /eqP ->; rewrite mulr0.
Qed.

End Theory.

End UpwindMore.

Module UpwindMoreExtras.
Import UpwindCoupling Scenario SparseTheory UpwindTheory UpwindSums CflTheory.
Import UpwindMore.

(** X24: without flux there is no coupling: when [beta_n] is zero at every
    face, the four blocks that [matrix_rhs] returns are zero, in either
    branch. *)
Theorem no_flux_no_coupling (R : realFieldType)
    (ndof : grid R -> nat) (g_h g_l : grid R) (data_h data_l : grid_data R)
    (data_edge : edge_data R) (b : seq R) (cc : block_matrix R) (i j : nat) :
  beta_n data_edge = Some b -> all (fun x => x == 0) b ->
  matrix_rhs ndof g_h g_l data_h data_l data_edge = Ok cc ->
  [/\ coeff (cc00 cc) i j = 0, coeff (cc01 cc) i j = 0,
      coeff (cc10 cc) i j = 0 & coeff (cc11 cc) i j = 0].
Proof.
move=> bE b0; rewrite /matrix_rhs bE /=.
have zeros n k : nth 0 (nseq n (0 : R)) k = 0 by rewrite nth_nseq if_same.
have out0 (q : seq R) :
  all (fun x => x == 0) q -> all (fun x => x == 0) [seq outflow x | x <- q].
  move=> /allP q0; rewrite all_map; apply/allP => x /q0 /eqP -> /=.
  by rewrite /outflow mulr0.
have in0 (q : seq R) :
  all (fun x => x == 0) q -> all (fun x => x == 0) [seq inflow x | x <- q].
  move=> /allP q0; rewrite all_map; apply/allP => x /q0 /eqP -> /=.
  by rewrite /inflow mulr0.
have max0 (q : seq R) :
  all (fun x => x == 0) q -> all (fun x => x == 0) [seq clip_max0 x | x <- q].
  move=> /allP q0; rewrite all_map; apply/allP => x /q0 /eqP -> /=.
  by rewrite /clip_max0 minxx.
have min0 (q : seq R) :
  all (fun x => x == 0) q ->
  all (fun x => x == 0) [seq - clip_min0 x | x <- q].
  move=> /allP q0; rewrite all_map; apply/allP => x /q0 /eqP -> /=.
  by rewrite /clip_min0 maxxx oppr0.
case: ifP => _.
  case Eh: (signed_flux _ _ _ _) => [q_h|] //=.
  case El: (signed_flux _ _ _ _) => [q_l|] //=.
  have qh0 := signed_flux_zero b0 Eh; have ql0 := signed_flux_zero b0 El.
  case: (cells_of_faces _ _) => [cells_h|] //=.
  case: (cells_of_faces _ _) => [cells_l|] //=.
  case E1: (add_at _ _ _) => [d|] //=.
  case E2: (add_at _ _ _) => [d11|] //=.
  case E10: (coo_matrix _ _ _ _ _) => [c10|] //=.
  case E01: (coo_matrix _ _ _ _ _) => [c01|] //= [<-] /=; split.
  - exact: coeff_dia_zero.
  - exact: coeff_coo_zero (max0 _ qh0) E01.
  - exact: coeff_coo_zero (max0 _ ql0) E10.
  - apply: coeff_dia_zero; apply: (add_at_zero _ (out0 _ qh0) E2).
    exact: (add_at_zero _ (out0 _ ql0) E1).
case Eq: (signed_flux _ _ _ _) => [q|] //=.
have q0 := signed_flux_zero b0 Eq.
case: (cells_of_faces _ _) => [cells_h|] //=.
case E11: (add_at _ _ _) => [d11|] //=.
case E00: (add_at _ _ _) => [d00|] //=.
case E10: (coo_matrix _ _ _ _ _) => [c10|] //=.
case E01: (coo_matrix _ _ _ _ _) => [c01|] //= [<-] /=; split.
- by apply: coeff_dia_zero; apply: (add_at_zero _ (out0 _ q0) E00).
- exact: coeff_coo_zero (max0 _ q0) E01.
- exact: coeff_coo_zero (min0 _ q0) E10.
- by apply: coeff_dia_zero; apply: (add_at_zero _ (in0 _ q0) E11).
Qed.

Section Inputs.

Variable R : realFieldType.

Lemma flux_none_ok :
  exists cc, matrix_rhs (@num_cells R) (matrix2d R) (fracture R)
               (no_data R) (no_data R) (flux_none R) = Ok cc.
Proof.
rewrite /matrix_rhs /= /signed_flux /take_idx /= /zip_with /=.
by rewrite /add_at /= /coo_matrix /=; eexists.
Qed.

Lemma flux_none_zero : all (fun x => x == 0) ([:: 0; 0] : seq R).
Proof. by rewrite /= eqxx. Qed.

Lemma single_pair_cfl_wf (e : nat * nat) :
  e \in face_cells (single_pair R) ->
  [/\ (e.2 < size ([:: 3%:R; 0] : seq R)%R)%N
      /\ nth 0 ([:: 3%:R; 0] : seq R) e.2 != 0,
      (e.2 < size (face_areas (matrix2d R)))%N
      /\ nth 0 (face_areas (matrix2d R)) e.2 != 0,
      (e.2 < num_faces (matrix2d R))%N,
      (e.1 < size (get_default (a (no_data R)) (num_cells (fracture R))))%N
    & (e.1 < size (get_default (phi (no_data R)) (num_cells (fracture R))))%N].
Proof.
by rewrite inE => /eqP -> /=; split; rewrite // ?pnatr_eq0 ?oner_neq0.
Qed.

Lemma single_pair_cfl_cells (e : nat * nat) :
  e \in face_cells (single_pair R) ->
  exists2 c_h,
    [seq t.1.2 | t <- cell_faces (matrix2d R) & t.1.1 == e.2] = [:: c_h]
    & (c_h < size (get_default (a (no_data R)) (num_cells (matrix2d R))))%N
      /\ nth 0 (get_default (a (no_data R)) (num_cells (matrix2d R))) c_h
         != 0.
Proof.
by rewrite inE => /eqP ->; exists 0%N => //=; rewrite oner_neq0.
Qed.

End Inputs.

(** X24 on the interface without flux. *)
Lemma no_flux_no_coupling_witness :
  exists cc, matrix_rhs (@num_cells rat) (matrix2d rat) (fracture rat)
               (no_data rat) (no_data rat) (flux_none rat) = Ok cc
  /\ [/\ coeff (cc00 cc) 0 0 = 0, coeff (cc01 cc) 0 0 = 0,
          coeff (cc10 cc) 0 0 = 0 & coeff (cc11 cc) 0 0 = 0].
Proof.
have [cc Hcc] := flux_none_ok rat; exists cc; split; first exact: Hcc.
exact: (@no_flux_no_coupling rat (@num_cells rat) (matrix2d rat)
          (fracture rat) (no_data rat) (no_data rat) (flux_none rat)
          [:: 0; 0] cc 0 0 erefl (flux_none_zero rat) Hcc).
Defined.

(** X26: [cfl] returns a finite step on every well-formed interface with flux
    through all its matched faces: at least one matched pair; at each
    matched face a flux that is not zero, an area that is not zero and
    exactly one cell of the higher grid, whose aperture is not zero; an
    aperture and a porosity for each matched cell of the lower grid. *)
Theorem cfl_returns (R : realFieldType) (g_h g_l : grid R)
    (data_h data_l : grid_data R) (data_edge : edge_data R) (b : seq R) :
  beta_n data_edge = Some b ->
  face_cells data_edge != [::] ->
  (forall e, e \in face_cells data_edge ->
     [/\ (e.2 < size b)%N /\ nth 0 b e.2 != 0,
         (e.2 < size (face_areas g_h))%N /\ nth 0 (face_areas g_h) e.2 != 0,
         (e.2 < num_faces g_h)%N,
         (e.1 < size (get_default (a data_l) (num_cells g_l)))%N
       & (e.1 < size (get_default (phi data_l) (num_cells g_l)))%N]) ->
  (forall e, e \in face_cells data_edge ->
     exists2 c_h,
       [seq t.1.2 | t <- cell_faces g_h & t.1.1 == e.2] = [:: c_h]
       & (c_h < size (get_default (a data_h) (num_cells g_h)))%N
         /\ nth 0 (get_default (a data_h) (num_cells g_h)) c_h != 0) ->
  exists dt, cfl g_h g_l data_h data_l data_edge = Ok (Finite dt).
Proof.
move=> bE fc_neq0 wf one; apply: (cfl_finite bE).
- by case: (face_cells data_edge) fc_neq0.
- by move=> e /wf [b_ok [area_lt _] f_lt al_lt phi_lt].
- by move=> e /one [c_h cE [c_lt _]]; exists c_h.
- by move=> e /one [c_h -> [_ c_neq0]].
Qed.

(** X26 at the pair (cell 0 of the fracture, face 0 of the matrix grid) with
    flux 3. *)
Lemma cfl_returns_witness :
  exists dt, cfl (matrix2d rat) (fracture rat) (no_data rat) (no_data rat)
               (single_pair rat) = Ok (Finite dt).
Proof.
exact: (@cfl_returns rat (matrix2d rat) (fracture rat) (no_data rat)
          (no_data rat) (single_pair rat) [:: 3%:R; 0] erefl isT
          (@single_pair_cfl_wf rat) (@single_pair_cfl_cells rat)).
Defined.

End UpwindMoreExtras.

(** * Further properties of the per-cell kernels *)

Module SimplexTheory.
Import PrimalVEM StiffTheory Interval IntervalTheory.

Section Simplex.

Variable R : realFieldType.
Variables (d m : nat).
Variable c_center : 'rV[R]_d.
Variable c_volume : R.
Variable normals : 'M[R]_(d, m).
Variable diam : R.
Variable coord : 'M[R]_(d, 1 + d).
Variable node_faces : 'M[bool]_(1 + d, m).
Variable A : 'M[R]_(1 + d).

Hypothesis HA :
  stiffH1_local c_center c_volume normals diam coord node_faces = Ok A.
Hypothesis GFD :
  matG c_center c_volume diam coord
  = matF normals diam node_faces *m matD c_center diam coord.

Local Notation D := (matD c_center diam coord).
Local Notation G := (matG c_center c_volume diam coord).
Local Notation F := (matF normals diam node_faces).
Local Notation F1 := (matF1 normals diam node_faces).
Local Notation g := (gcoef c_volume diam).
Local Notation Pi_s := (invmx G *m F).

(** With as many nodes as monomials the projection is the inverse of [D]
    and the stabilisation term vanishes. *)
Lemma simplex_val :
  exists2 Pd : 'M[R]_(d, 1 + d), A = Pd^T *m F1 & g *: Pd = F1.
Proof.
have [_ _ _ Gu AE] := stiffH1_OkE HA.
have PD : Pi_s *m D = 1%:M := Pi_matD HA GFD.
have GP : G *m Pi_s = F by rewrite mulmxA mulmxV // mul1mx.
move: AE PD GP; move: (invmx G *m F) => P AE PD GP.
have DP : D *m P = 1%:M by apply: mulmx1C.
exists (dsubmx P).
  rewrite AE DP subrr mulmx0 addr0 Gtilde_scalar.
  rewrite -{1 2}[P]vsubmxK tr_col_mx mul_block_col !mul0mx !addr0 add0r.
  rewrite mul_row_col mulmx0 add0r mul_scalar_mx.
  have := congr1 dsubmx GP; rewrite matG_col -{1}[P]vsubmxK.
  rewrite mul_col_mx col_mxKd mul_row_col mul0mx add0r mul_scalar_mx /matF.
  by rewrite col_mxKd => ->.
have := congr1 dsubmx GP; rewrite matG_col -{1}[P]vsubmxK.
rewrite mul_col_mx col_mxKd mul_row_col mul0mx add0r mul_scalar_mx /matF.
by rewrite col_mxKd.
Qed.

(** In terms of the data: [F1 = W / diam], with [W] the sums of the face
    normals around each node, scaled by [2^(d-1)]. *)
Lemma matF1E k j :
  F1 k j = diam^-1 * ((2%:R ^ (d%:Z - 1))^-1
                      * \sum_(f < m | node_faces j f) normals k f).
Proof.
rewrite mxE mulrCA big_distrr /= big_distrr /=; apply: eq_bigr => f _.
by rewrite /prod /grad col_mxKd -scalemxAl mul1mx !mxE.
Qed.

Lemma simplex_entry i j :
  c_volume * A i j
  = \sum_k ((2%:R ^ (d%:Z - 1))^-1
             * \sum_(f < m | node_faces i f) normals k f)
           * ((2%:R ^ (d%:Z - 1))^-1
              * \sum_(f < m | node_faces j f) normals k f).
Proof.
have [Pd -> gP] := simplex_val; rewrite mxE big_distrr /=.
apply: eq_bigr => k _; rewrite mxE.
have d_gt0 : (0 < d)%N by exact: leq_ltn_trans (leq0n k) (ltn_ord k).
have [_ /(_ d_gt0) diam_neq0 _ _ _] := stiffH1_OkE HA.
have dg : diam * g = c_volume * diam^-1.
  by rewrite /gcoef mulrCA mulVKf.
have := congr1 (fun M : 'M_(d, 1 + d) => diam * M k i) gP.
rewrite /= !matF1E mxE mulVKf // mulrA dg => <-.
by rewrite !mulrA -[c_volume * _ * _]mulrA [Pd k i * _]mulrC !mulrA.
Qed.

End Simplex.

Section IntervalAt.

Variable R : realFieldType.
Variables (x0 h : R).
Hypothesis h_neq0 : h != 0.

Lemma matD_at :
  matD (center_at x0 h) h (coord_at x0 h) = matD (c_center R) 1 (coord R).
Proof.
apply/matrixP=> j k; rewrite !mxE /mono; case: (split k) => // i.
rewrite !mxE divr1 opprD addrACA subrr add0r mulrBl mulfK //.
by rewrite mulrAC divff.
Qed.

Lemma matDr_at :
  matDr (center_at x0 h) h (coord_at x0 h) = matDr (c_center R) 1 (coord R).
Proof.
apply/matrixP=> j i.
rewrite !mxE divr1 opprD addrACA subrr add0r mulrBl mulfK //.
by rewrite mulrAC divff.
Qed.

Lemma matF1_at s : matF1 (normals s) h node_faces = h^-1 *: normals s.
Proof.
apply/matrixP=> k j; rewrite matF1E subrr expr0z invr1 mul1r [RHS]mxE.
congr (_ * _); rewrite (big_pred1 j) // => f.
by rewrite /= mxE eq_sym.
Qed.

Lemma exact_at :
  matG (center_at x0 h) h h (coord_at x0 h)
  = matF (normals 1) h node_faces
    *m matD (center_at x0 h) h (coord_at x0 h).
Proof.
apply/eqP; rewrite matG_eq_FD matDr_at matF1_at -!scalemxAl.
rewrite -(matF1_interval 1) matF1_ones matF1_matDr scaler0 eqxx /=.
by rewrite /gcoef invr1 !mulr1 scalemx1 mulVKf.
Qed.

Lemma accepted_at :
  exists A,
    stiffH1_local (center_at x0 h) h (normals 1) h (coord_at x0 h) node_faces
    = Ok A.
Proof.
have /eqP := exact_at; rewrite matG_eq_FD => /andP [/eqP F1o /eqP F1D].
apply: stiffH1_accepts => //.
by rewrite /gcoef !mulf_neq0 ?invr_eq0.
Qed.

Lemma interval_val A :
  stiffH1_local (center_at x0 h) h (normals 1) h (coord_at x0 h) node_faces
  = Ok A ->
  A = h^-1 *: \matrix_(i, j) (if i == j then 1 else -1).
Proof.
move=> HA; apply/matrixP=> i j.
have := @simplex_entry R 1 2 _ _ _ _ _ _ A HA exact_at i j.
rewrite big_ord_recl big_ord0 addr0 subrr expr0z invr1 !mul1r.
rewrite (big_pred1 i) ?(big_pred1 j); try by move=> f; rewrite /= mxE eq_sym.
move=> hA; rewrite -[LHS](mulKf h_neq0) hA [RHS]mxE; congr (_ * _).
rewrite !mxE {hA}.
elim/GridTheory.ord2_cases: i; elim/GridTheory.ord2_cases: j;
  by rewrite /= ?mulrNN ?mulr1 ?mulN1r ?mul1r.
Qed.

End IntervalAt.

End SimplexTheory.

Module StiffExtras.
Import PrimalVEM StiffTheory Interval IntervalTheory.

(** X7: under the consistency identity [G = F D], a cell with at least one
    node, a non-zero diameter and a non-zero volume is accepted: the
    assertion passes, [G] is nonsingular and [stiffH1] returns a matrix. *)
Theorem stiffH1_returns (R : realFieldType) (kd d n m : nat)
    (K : 'M[R]_kd) (c_center : 'rV[R]_d) (c_volume : R)
    (normals : 'M[R]_(d, m)) (diam : R) (coord : 'M[R]_(d, n))
    (node_faces : 'M[bool]_(n, m)) :
  (0 < n)%N -> diam != 0 -> c_volume != 0 ->
  matG c_center c_volume diam coord
    = matF normals diam node_faces *m matD c_center diam coord ->
  exists A, stiffH1 K c_center c_volume normals diam coord node_faces = Ok A.
Proof.
move=> n_gt0 diam_neq0 vol_neq0 /eqP.
rewrite matG_eq_FD => /andP [/eqP F1o /eqP F1D].
apply: stiffH1_accepts => //.
by rewrite /gcoef !mulf_neq0 ?invr_eq0 ?orbT.
Qed.

(** X7 at the regular interval cell. *)
Lemma stiffH1_returns_witness :
  exists A, stiffH1 (K rat) (c_center rat) 1 (normals 1) 1 (coord rat)
                    node_faces = Ok A.
Proof.
exact: (@stiffH1_returns rat 1 1 2 2 (K rat) (c_center rat) 1 (normals 1) 1
          (coord rat) node_faces isT (oner_neq0 _) (oner_neq0 _) (exact 1)).
Defined.

(** X8: a cell of volume zero (and of dimension at least 1) is never
    accepted: either the consistency assertion fails, or [G] is singular and
    [np.linalg.solve] raises. *)
Theorem stiffH1_zero_volume (R : realFieldType) (kd d n m : nat)
    (K : 'M[R]_kd) (c_center : 'rV[R]_d) (normals : 'M[R]_(d, m)) (diam : R)
    (coord : 'M[R]_(d, n)) (node_faces : 'M[bool]_(n, m)) :
  (0 < d)%N ->
  stiffH1 K c_center 0 normals diam coord node_faces = Raise AssertionError
  \/ stiffH1 K c_center 0 normals diam coord node_faces = Raise LinAlgError.
Proof.
move=> d_gt0; rewrite /stiffH1 /stiffH1_local /consistent /has_nan.
case n0: (n == 0%N) => /=; first by left.
have n_gt0 : (0 < n)%N by rewrite lt0n n0.
case: ((0 < d)%N && (diam == 0)) => /=; first by left.
case: (allclose _ _) => /=; last by left.
rewrite /linalg_solve matG_unit // /gcoef mul0r eqxx orbF.
by rewrite -[d == 0%N]negbK -lt0n d_gt0 /=; right.
Qed.

(** X8 on the interval cell with the volume replaced by zero. *)
Lemma stiffH1_zero_volume_witness :
  stiffH1 (K rat) (c_center rat) 0 (normals 1) 1 (coord rat) node_faces
    = Raise AssertionError
  \/ stiffH1 (K rat) (c_center rat) 0 (normals 1) 1 (coord rat) node_faces
    = Raise LinAlgError.
Proof.
exact: (@stiffH1_zero_volume rat 1 1 2 2 (K rat) (c_center rat) (normals 1) 1
          (coord rat) node_faces isT).
Defined.

(** X9: whenever [stiffH1] returns, within the tolerance of the consistency
    check, the matrix is symmetric, and positive semidefinite when the cell
    volume is not negative. *)
Theorem stiffH1_sym_psd_tolerance (R : realFieldType) (kd d n m : nat)
    (K : 'M[R]_kd) (c_center : 'rV[R]_d) (c_volume : R)
    (normals : 'M[R]_(d, m)) (diam : R) (coord : 'M[R]_(d, n))
    (node_faces : 'M[bool]_(n, m)) (A : 'M[R]_n) :
  stiffH1 K c_center c_volume normals diam coord node_faces = Ok A ->
  A^T = A
  /\ (0 <= c_volume -> forall v : 'cV[R]_n, 0 <= (v^T *m A *m v) ord0 ord0).
Proof.
move=> HA; split; first exact: stiffH1_sym HA.
by move=> vol_ge0 v; apply: (stiffH1_psd HA).
Qed.

(** X9 at the regular interval cell. *)
Lemma stiffH1_sym_psd_tolerance_witness :
  exists A, stiffH1 (K rat) (c_center rat) 1 (normals 1) 1 (coord rat)
                    node_faces = Ok A
  /\ (A^T = A
      /\ (0 <= 1 :> rat ->
          forall v : 'cV[rat]_2, 0 <= (v^T *m A *m v) ord0 ord0)).
Proof.
have [A HA] := @accepted rat 1 (oner_neq0 _); exists A; split; first exact: HA.
exact: (@stiffH1_sym_psd_tolerance rat 1 1 2 2 (K rat) (c_center rat) 1
          (normals 1) 1 (coord rat) node_faces A HA).
Defined.

(** X10: the result depends on the positions of the nodes and of the cell
    centre through their differences only: translating the cell changes
    nothing. *)
Theorem stiffH1_translation (R : realFieldType) (kd d n m : nat)
    (K : 'M[R]_kd) (c_center : 'rV[R]_d) (c_volume : R)
    (normals : 'M[R]_(d, m)) (diam : R) (coord : 'M[R]_(d, n))
    (node_faces : 'M[bool]_(n, m)) (t : 'cV[R]_d) :
  stiffH1 K (c_center + t^T) c_volume normals diam
          (\matrix_(i, j) (coord i j + t i ord0)) node_faces
  = stiffH1 K c_center c_volume normals diam coord node_faces.
Proof.
have DE : matD (c_center + t^T) diam (\matrix_(i, j) (coord i j + t i ord0))
          = matD c_center diam coord.
  apply/matrixP=> j k; rewrite !mxE /mono; case: (split k) => // i.
  by rewrite !mxE opprD addrACA subrr addr0.
by rewrite /stiffH1 /stiffH1_local /consistent /matG DE.
Qed.

(** X11: under the consistency identity the energy of a linear function is
    exact: for the nodal values [v] of [c0 + sum_i g_i (x_i - c_center_i) /
    diam], [v^T A v] is the cell volume times the squared norm of the
    gradient [g / diam]. *)
Theorem stiffH1_linear_energy (R : realFieldType) (kd d n m : nat)
    (K : 'M[R]_kd) (c_center : 'rV[R]_d) (c_volume : R)
    (normals : 'M[R]_(d, m)) (diam : R) (coord : 'M[R]_(d, n))
    (node_faces : 'M[bool]_(n, m)) (A : 'M[R]_n) (c0 : R) (g : 'cV[R]_d) :
  matG c_center c_volume diam coord
    = matF normals diam node_faces *m matD c_center diam coord ->
  stiffH1 K c_center c_volume normals diam coord node_faces = Ok A ->
  let v : 'cV[R]_n :=
    \col_j (c0 + \sum_i g i ord0 * ((coord i j - c_center ord0 i) / diam)) in
  (v^T *m A *m v) ord0 ord0 = c_volume * \sum_i (g i ord0 / diam) ^+ 2.
Proof.
move=> GFD HA v.
have -> : v = matD c_center diam coord *m col_mx (c0%:M : 'M_1) g.
  rewrite matD_block mul_row_col; apply/matrixP=> j k; rewrite !ord1 !mxE.
  rewrite big_ord_recl big_ord0 addr0 !mxE mul1r mulr1n; congr (_ + _).
  by apply: eq_bigr => i _; rewrite !mxE mulrC.
rewrite -/(quad A _) (stiffH1_quad_poly HA GFD) quad_Gtilde col_mxKd.
rewrite -mulrA; congr (_ * _); rewrite big_distrr /=.
by apply: eq_bigr => i _; rewrite exprMn mulrC -expr2.
Qed.

(** X11 at the regular interval cell. *)
Lemma stiffH1_linear_energy_witness :
  exists A, stiffH1 (K rat) (c_center rat) 1 (normals 1) 1 (coord rat)
                    node_faces = Ok A
  /\ let v : 'cV[rat]_2 :=
       \col_j (0 + \sum_i (1%:M : 'cV[rat]_1) i ord0
                          * ((coord rat i j - c_center rat ord0 i) / 1)) in
     (v^T *m A *m v) ord0 ord0
     = 1 * \sum_i ((1%:M : 'cV[rat]_1) i ord0 / 1) ^+ 2.
Proof.
have [A HA] := @accepted rat 1 (oner_neq0 _); exists A; split; first exact: HA.
exact: (@stiffH1_linear_energy rat 1 1 2 2 (K rat) (c_center rat) 1
          (normals 1) 1 (coord rat) node_faces A 0 1%:M (exact 1) HA).
Defined.

End StiffExtras.

Module SimplexExtras.
Import PrimalVEM StiffTheory Interval IntervalTheory.
Import SimplexTheory.

(** X12: on a cell with as many nodes as monomials (a simplex), under the
    consistency identity, the local matrix is given by the face normals
    alone: [c_volume * A[i, j]] is the scalar product of [W_i] and [W_j],
    where [W_j] is the sum of the normals of the faces at the node [j]
    divided by [2^(d-1)].  The stabilisation term vanishes. *)
Theorem stiffH1_simplex (R : realFieldType) (kd d m : nat)
    (K : 'M[R]_kd) (c_center : 'rV[R]_d) (c_volume : R)
    (normals : 'M[R]_(d, m)) (diam : R) (coord : 'M[R]_(d, 1 + d))
    (node_faces : 'M[bool]_(1 + d, m)) (A : 'M[R]_(1 + d)) (i j : 'I_(1 + d)) :
  matG c_center c_volume diam coord
    = matF normals diam node_faces *m matD c_center diam coord ->
  stiffH1 K c_center c_volume normals diam coord node_faces = Ok A ->
  c_volume * A i j
  = \sum_k ((2%:R ^ (d%:Z - 1))^-1
             * \sum_(f < m | node_faces i f) normals k f)
           * ((2%:R ^ (d%:Z - 1))^-1
              * \sum_(f < m | node_faces j f) normals k f).
Proof. by move=> GFD HA; exact: simplex_entry HA GFD i j. Qed.

(** X12 at the regular interval cell. *)
Lemma stiffH1_simplex_witness :
  exists A, stiffH1 (K rat) (c_center rat) 1 (normals 1) 1 (coord rat)
                    node_faces = Ok A
  /\ 1 * A ord0 ord0
     = \sum_(k < 1) ((2%:R ^ (1%:Z - 1))^-1
                     * \sum_(f < 2 | node_faces ord0 f) normals 1 k f)
                   * ((2%:R ^ (1%:Z - 1))^-1
                      * \sum_(f < 2 | node_faces ord0 f) normals 1 k f).
Proof.
have [A HA] := @accepted rat 1 (oner_neq0 _); exists A; split; first exact: HA.
exact: (@stiffH1_simplex rat 1 1 2 (K rat) (c_center rat) 1 (normals 1) 1
          (coord rat) node_faces A ord0 ord0 (exact 1) HA).
Defined.

(** X13: on the interval [[x0, x0 + h]] of a one-dimensional grid (volume and
    diameter [h], unit normals pointing outward) [stiffH1] returns the
    stiffness matrix of the linear finite element,
    [1/h * [[1, -1], [-1, 1]]]. *)
Theorem stiffH1_interval (R : realFieldType) (kd : nat) (K : 'M[R]_kd)
    (x0 h : R) :
  h != 0 ->
  stiffH1 K (center_at x0 h) h (normals 1) h (coord_at x0 h) node_faces
  = Ok (h^-1 *: \matrix_(i, j) (if i == j then 1 else -1)).
Proof.
move=> h_neq0; have [A HA] := accepted_at x0 h_neq0.
by rewrite /stiffH1 HA (interval_val h_neq0 HA).
Qed.

(** X13 on the interval [[1, 3]]. *)
Lemma stiffH1_interval_witness :
  stiffH1 (K rat) (center_at 1 2%:R) 2%:R (normals 1) 2%:R (coord_at 1 2%:R)
          node_faces
  = Ok (2%:R^-1 *: \matrix_(i, j) (if i == j then 1 else -1)).
Proof.
by apply: (@stiffH1_interval rat 1 (K rat) 1 2%:R); rewrite pnatr_eq0.
Defined.

(** X14: [massH1] never returns a matrix: it raises what [stiffH1] raises on
    the same arguments and, where [stiffH1] returns, it stops on the unbound
    name [H]. *)
Theorem massH1_never_returns (R : realFieldType) (kd d n m : nat)
    (K : 'M[R]_kd) (c_center : 'rV[R]_d) (c_volume : R)
    (normals : 'M[R]_(d, m)) (diam : R) (coord : 'M[R]_(d, n))
    (node_faces : 'M[bool]_(n, m)) :
  massH1 K c_center c_volume normals diam coord node_faces
  = match stiffH1 K c_center c_volume normals diam coord node_faces with
    | Ok _ => NameError
    | Raise e => Raises e
    end.
Proof.
rewrite /massH1 /stiffH1 /stiffH1_local.
by case: (assert _) => [[]|e] //=; case: (linalg_solve _ _).
Qed.

End SimplexExtras.

(** * The rectangle cell and the scaling of a cell *)

Module RectangleTheory.
Import PrimalVEM StiffTheory Rectangle.

Section Cell.

Variable R : realFieldType.

Lemma ord4_cases (P : 'I_4 -> Prop) :
  P ord0 -> P (lift ord0 ord0) -> P (lift ord0 (lift ord0 ord0)) ->
  P (lift ord0 (lift ord0 (lift ord0 ord0))) -> forall j, P j.
Proof.
move=> P0 P1 P2 P3 [[|[|[|[|j]]]] Hj] //.
- by rewrite (_ : Ordinal Hj = ord0) //; apply: val_inj.
- by rewrite (_ : Ordinal Hj = lift ord0 ord0) //; apply: val_inj.
- by rewrite (_ : Ordinal Hj = lift ord0 (lift ord0 ord0)) //; apply: val_inj.
- rewrite (_ : Ordinal Hj = lift ord0 (lift ord0 (lift ord0 ord0))) //.
  exact: val_inj.
Qed.

Lemma prod_rectangle :
  prod (normals R) (diam R) = (10%:R)^-1 *: normals R.
Proof.
rewrite /prod /grad col_mxKd -scalemxAl mul1mx scalerA /diam; congr (_ *: _).
have -> : (2%:Z - 1) = 1%:Z by [].
by rewrite expr1z -invfM -natrM.
Qed.

Lemma matF1_rectangle :
  matF1 (normals R) (diam R) node_faces
  = (10%:R)^-1 *: \matrix_(i, j)
      (if (i : nat) == 0%N
       then (if ((j : nat) == 0%N) || ((j : nat) == 3%N) then - 4%:R
             else 4%:R)
       else (if ((j : nat) == 0%N) || ((j : nat) == 1%N) then - 3%:R
             else 3%:R)).
Proof.
apply/matrixP=> i j; rewrite mxE prod_rectangle big_mkcond /=.
rewrite !big_ord_recl big_ord0 /=.
by elim/GridTheory.ord2_cases: i; elim/ord4_cases: j; rewrite !mxE /=; ring.
Qed.

Lemma matF1_rectangle_ones :
  matF1 (normals R) (diam R) node_faces *m (const_mx 1 : 'cV[R]_4) = 0.
Proof.
rewrite matF1_rectangle; apply/matrixP=> i j; rewrite !mxE.
rewrite !big_ord_recl big_ord0 !mxE /=.
by elim/GridTheory.ord2_cases: i; rewrite /=; ring.
Qed.

Lemma matF1_rectangle_matDr :
  matF1 (normals R) (diam R) node_faces
  *m matDr (c_center R) (diam R) (coord R)
  = (gcoef (c_volume R) (diam R))%:M.
Proof.
rewrite matF1_rectangle; apply/matrixP=> i k; rewrite !mxE.
rewrite !big_ord_recl big_ord0 !mxE /= /gcoef /c_volume /diam.
elim/GridTheory.ord2_cases: i; elim/GridTheory.ord2_cases: k; rewrite /=;
  by field.
Qed.

(** The consistency identity holds on the rectangle, and the kernel accepts
    it. *)
Lemma exact_rectangle :
  matG (c_center R) (c_volume R) (diam R) (coord R)
  = matF (normals R) (diam R) node_faces
    *m matD (c_center R) (diam R) (coord R).
Proof.
by apply/eqP; rewrite matG_eq_FD matF1_rectangle_ones matF1_rectangle_matDr
                      !eqxx.
Qed.

Lemma accepted_rectangle :
  exists A,
    stiffH1 (K R) (c_center R) (c_volume R) (normals R) (diam R) (coord R)
            node_faces = Ok A.
Proof.
apply: stiffH1_accepts => //.
- by rewrite /diam pnatr_eq0.
- exact: matF1_rectangle_ones.
- exact: matF1_rectangle_matDr.
- by rewrite /gcoef /c_volume /diam !mulf_neq0 ?invr_eq0 ?pnatr_eq0.
Qed.

End Cell.

End RectangleTheory.

Module ScalingExtras.
Import PrimalVEM StiffTheory Interval IntervalTheory.

(** X23: in two dimensions the local matrix does not change when the cell is
    scaled: with the coordinates, the cell centre, the diameter and the
    normals (which carry the lengths of the faces) multiplied by [lam] and
    the volume multiplied by [lam^2], [stiffH1] computes the same matrices
    [D], [G] and [F] and returns the same result. *)
Theorem stiffH1_scaling_2d (R : realFieldType) (kd n m : nat)
    (K : 'M[R]_kd) (c_center : 'rV[R]_2) (c_volume : R)
    (normals : 'M[R]_(2, m)) (diam : R) (coord : 'M[R]_(2, n))
    (node_faces : 'M[bool]_(n, m)) (lam : R) :
  lam != 0 ->
  stiffH1 K (lam *: c_center) (lam ^+ 2 * c_volume) (lam *: normals)
          (lam * diam) (lam *: coord) node_faces
  = stiffH1 K c_center c_volume normals diam coord node_faces.
Proof.
move=> lam_neq0.
have DE : matD (lam *: c_center) (lam * diam) (lam *: coord)
          = matD c_center diam coord.
  apply/matrixP=> j k; rewrite !mxE /mono; case: (split k) => // i.
  by rewrite !mxE -mulrBr -mulf_div divff // mul1r.
have GE : Gtilde 2 (lam ^+ 2 * c_volume) (lam * diam)
          = Gtilde 2 c_volume diam.
  rewrite !Gtilde_scalar; congr (block_mx _ _ _ _%:M).
  rewrite invfM [_ * diam^-1 * _]mulrACA mulrACA -invfM -expr2.
  by rewrite divff ?expf_neq0 // mul1r.
have PE : prod (lam *: normals) (lam * diam) = prod normals diam.
  rewrite /prod /grad !col_mxKd -!scalemxAl !mul1mx !scalerA.
  by rewrite invfM -!mulrA [lam^-1 * _]mulrCA mulVf // mulr1.
rewrite /stiffH1 /stiffH1_local /consistent /has_nan /matG /matF DE GE PE.
by rewrite mulf_eq0 (negbTE lam_neq0).
Qed.

(** X23 on the rectangle [[0, 3] x [0, 4]], scaled by 2. *)
Lemma stiffH1_scaling_2d_witness :
  stiffH1 (Rectangle.K rat) (2%:R *: Rectangle.c_center rat)
          (2%:R ^+ 2 * Rectangle.c_volume rat) (2%:R *: Rectangle.normals rat)
          (2%:R * Rectangle.diam rat) (2%:R *: Rectangle.coord rat)
          Rectangle.node_faces
  = stiffH1 (Rectangle.K rat) (Rectangle.c_center rat)
            (Rectangle.c_volume rat) (Rectangle.normals rat)
            (Rectangle.diam rat) (Rectangle.coord rat) Rectangle.node_faces.
Proof.
by apply: stiffH1_scaling_2d; rewrite pnatr_eq0.
Defined.

End ScalingExtras.

(** * Further properties of the global assembly *)

Module AssemblySums.
Import PrimalVEM SparseTheory StiffTheory AssemblyTheory UpwindSums.

Section Theory.

Variable R : realFieldType.
Variables (d kd : nat).

Implicit Types (g : grid R d) (p : parameters R kd) (M : spmatrix R).
Implicit Types (t : seq (triplet R)).

(** Sums over the entries that a cell contributes. *)
Lemma big_allpairs_cond (I : Type) (f : I -> I -> triplet R) (s : seq I)
    (P : pred (triplet R)) (F : triplet R -> R) :
  \sum_(e <- [seq f x y | x <- s, y <- s] | P e) F e
  = \sum_(x <- s) \sum_(y <- s | P (f x y)) F (f x y).
Proof.
rewrite big_mkcond big_allpairs_dep /=; apply: eq_bigr => x _.
by rewrite -big_mkcond.
Qed.

(** What the body of the loop has computed for a cell. *)
Lemma cell_triplets_inv g p c t :
  cell_triplets g p c = Ok t ->
  exists2 A,
    stiffH1_local (nth 0 (c_centers g) c) (nth 0 (cell_volumes g) c)
                  (cell_normals g c) (nth 0 (cell_diameters g) c)
                  (cell_coord g c) (cell_node_faces g c) = Ok A
    & t = allpairs (fun i j : 'I_(size (nodes_loc g c)) =>
                      (nth 0%N (nodes_loc g c) i, nth 0%N (nodes_loc g c) j,
                       A i j))
                   (enum 'I_(size (nodes_loc g c)))
                   (enum 'I_(size (nodes_loc g c))).
Proof.
rewrite /cell_triplets; case: (cell_lookups g c) => //= _.
case: ifP => //= _; rewrite /stiffH1.
by case: (stiffH1_local _ _ _ _ _ _) => //= A [<-]; exists A.
Qed.

(** Induction over the cells of the loop. *)
Lemma loop_cells_ind (P : seq (triplet R) -> Prop) g p cells ts :
  P [::] -> (forall t1 t2, P t1 -> P t2 -> P (t1 ++ t2)) ->
  (forall c t, c \in cells -> cell_triplets g p c = Ok t -> P t) ->
  loop_cells g p cells = Ok ts -> P ts.
Proof.
move=> P0 Pcat; elim: cells ts => [|c cells IH] ts /= Pcell; first by case=> <-.
case Et: (cell_triplets g p c) => [t|] //=.
case Ets: (loop_cells g p cells) => [ts'|] //= [<-].
apply: Pcat; first by apply: Pcell Et; rewrite inE eqxx.
by apply: IH Ets => c' t' c'_in; apply: Pcell; rewrite inE c'_in orbT.
Qed.

Lemma assemble_inv g p M :
  assemble g p = Ok M ->
  [/\ loop_cells g p (iota 0 (num_cells g)) = Ok (entries M),
      all (fun e => (e.1.1 < nrows M)%N) (entries M)
    & all (fun e => (e.1.2 < ncols M)%N) (entries M)].
Proof.
rewrite /assemble; case: (loop_cells _ _ _) => [ts|] //=.
rewrite /csr_matrix; case: ts => [|e ts] // [<-]; split=> //.
  apply/allP => x x_in; rewrite ltnS.
  exact: (@leq_bigmax_seq _ _ xpredT (fun e : triplet R => e.1.1) x x_in).
apply/allP => x x_in; rewrite ltnS.
exact: (@leq_bigmax_seq _ _ xpredT (fun e : triplet R => e.1.2) x x_in).
Qed.

(** The assembled matrix is symmetric. *)
Lemma assemble_sym g p M i j :
  assemble g p = Ok M -> coeff M i j = coeff M j i.
Proof.
case/assemble_inv => loopE _ _; rewrite /coeff; move: i j.
pose P t := forall i j,
  \sum_(e <- t | (e.1.1 == i) && (e.1.2 == j)) e.2
  = \sum_(e <- t | (e.1.1 == j) && (e.1.2 == i)) e.2 :> R.
apply: (@loop_cells_ind P _ _ _ _ _ _ _ loopE) => [i j|t1 t2 IH1 IH2 i j|c t _].
- by rewrite !big_nil.
- by rewrite !big_cat /= IH1 IH2.
case/cell_triplets_inv => A /stiffH1_sym AT -> i j.
rewrite !big_allpairs_cond /=.
under eq_bigr => x _ do rewrite big_mkcond /=.
rewrite exchange_big /=; apply: eq_bigr => x _; rewrite -big_mkcond /=.
apply: eq_big => [y|y _]; first by rewrite andbC.
by rewrite -{1}AT mxE.
Qed.

(** A row outside the index array is left alone by [M[idx, :] *= 0] and
    [M[idx, idx] = v]. *)
Lemma coeff_free_row (M M0 M1 : spmatrix R) (idx : seq nat) (v : R) i j :
  i \notin idx ->
  zero_rows M idx = Ok M0 -> set_diag M0 idx v = Ok M1 ->
  coeff M1 i j = coeff M i j.
Proof.
move=> i_notin; rewrite /zero_rows /set_diag.
case: ifP => // _ [<-] /=; case: ifP => // _ [<-].
rewrite /coeff /= big_cat /= big_map /=.
set diag := (X in X + _); have -> : diag = 0.
  apply: big1_seq => k /andP [/andP [/eqP ki _] k_in].
  by rewrite -ki k_in in i_notin.
rewrite add0r !big_filter_cond; apply: eq_bigl => e.
case: (eqVneq e.1.1 i) => [->|]; rewrite ?andbF //=.
by rewrite (negbTE i_notin) andbF.
Qed.

Lemma shape_dirichlet (M M0 M1 : spmatrix R) (idx : seq nat) (v : R) :
  zero_rows M idx = Ok M0 -> set_diag M0 idx v = Ok M1 ->
  nrows M1 = nrows M /\ ncols M1 = ncols M.
Proof.
rewrite /zero_rows /set_diag.
by case: ifP => // _ [<-] /=; case: ifP => // _ [<-].
Qed.

(** The loop reads the parameters through the apertures and the
    permeabilities only. *)
Lemma assemble_params g p p0 :
  aperture p0 = aperture p -> perm p0 = perm p ->
  assemble g p0 = assemble g p.
Proof.
move=> Ea Ep; rewrite /assemble; congr (bind _ _).
elim: (iota _ _) => [|c cells IH] //=.
by rewrite IH /cell_triplets Ea Ep.
Qed.

(** Sums of a function of the entries over the rows or the columns. *)
Lemma sum_ord_entries (key : triplet R -> nat) (n : nat) t
    (P : pred (triplet R)) (F : nat -> triplet R -> R) :
  all (fun e => (key e < n)%N) t ->
  \sum_(i < n) \sum_(e <- t | (key e == i) && P e) F i e
  = \sum_(e <- t | P e) F (key e) e.
Proof.
move=> /allP key_lt.
rewrite (exchange_big_dep P) /=; first by move=> i e _ /andP [].
rewrite big_seq_cond [RHS]big_seq_cond; apply: eq_bigr => e /andP [e_in Pe].
rewrite (big_pred1 (Ordinal (key_lt e e_in))) // => i /=.
by rewrite Pe andbT -val_eqE /= eq_sym.
Qed.

Lemma rowsum_entries M i :
  all (fun e => (e.1.2 < ncols M)%N) (entries M) ->
  \sum_(j < ncols M) coeff M i j = \sum_(e <- entries M | e.1.1 == i) e.2.
Proof.
move=> cols_lt; rewrite /coeff.
under eq_bigr => j _ do under eq_bigl => e do rewrite andbC.
exact: (sum_ord_entries (fun e => e.1.1 == i) (fun _ e => e.2) cols_lt).
Qed.

Lemma quad_entries M (v w : nat -> R) :
  all (fun e => (e.1.1 < nrows M)%N) (entries M) ->
  all (fun e => (e.1.2 < ncols M)%N) (entries M) ->
  \sum_(i < nrows M) \sum_(j < ncols M) v i * coeff M i j * w j
  = \sum_(e <- entries M) v e.1.1 * e.2 * w e.1.2.
Proof.
move=> rows_lt cols_lt; rewrite /coeff.
under eq_bigr => i _.
  under eq_bigr => j _.
    rewrite big_distrr /= big_distrl /=.
    under eq_bigl => e do rewrite andbC.
    over.
  rewrite (sum_ord_entries (fun e => e.1.1 == (i : nat))
             (fun j e => v i * e.2 * w j) cols_lt).
  under eq_bigl => e do rewrite -[e.1.1 == i]andbT.
  over.
exact: (sum_ord_entries xpredT (fun i e => v i * e.2 * w e.1.2) rows_lt).
Qed.

Section Invariants.

Variables (g : grid R d) (p : parameters R kd) (M : spmatrix R).
Hypothesis asm : assemble g p = Ok M.

(** The matrix couples the nodes of a common cell only. *)
Lemma assemble_pattern (e : triplet R) :
  e \in entries M ->
  exists c, [/\ (c < num_cells g)%N, e.1.1 \in nodes_loc g c
               & e.1.2 \in nodes_loc g c].
Proof.
have [loopE _ _] := assemble_inv asm.
pose P t := forall e : triplet R, e \in t ->
  exists c, [/\ (c < num_cells g)%N, e.1.1 \in nodes_loc g c
               & e.1.2 \in nodes_loc g c].
move: e; apply: (@loop_cells_ind P _ _ _ _ _ _ _ loopE) => //.
- move=> t1 t2 IH1 IH2 e; rewrite mem_cat => /orP [].
    exact: IH1.
  exact: IH2.
move=> c t; rewrite mem_iota /= add0n => c_lt.
case/cell_triplets_inv => A _ -> e /allpairsP [[x y] /= [_ _ ->]] /=.
by exists c; split=> //; rewrite mem_nth.
Qed.

(** Non-negative cell volumes make the quadratic form non-negative. *)
Lemma assemble_psd (v : nat -> R) :
  (forall c, (c < num_cells g)%N -> 0 <= nth 0 (cell_volumes g) c) ->
  0 <= \sum_(e <- entries M) v e.1.1 * e.2 * v e.1.2.
Proof.
move=> vol_ge0; have [loopE _ _] := assemble_inv asm.
pose P t := 0 <= \sum_(e <- t) v e.1.1 * e.2 * v e.1.2 :> R.
apply: (@loop_cells_ind P _ _ _ _ _ _ _ loopE); rewrite /P.
- by rewrite big_nil.
- by move=> t1 t2 IH1 IH2; rewrite big_cat /= addr_ge0.
move=> c t; rewrite mem_iota /= add0n => /vol_ge0 vol_c.
case/cell_triplets_inv => A HA ->; rewrite big_allpairs_dep /=.
pose w : 'cV[R]_(size (nodes_loc g c)) :=
  \col_x v (nth 0%N (nodes_loc g c) x).
have := stiffH1_psd HA w vol_c; rewrite /quad mxE.
congr (_ <= _); rewrite !big_enum /= exchange_big /= big_enum /=.
apply: eq_bigr => y _; rewrite mxE big_distrl /=.
by apply: eq_bigr => x _; rewrite !mxE.
Qed.

(** Under the consistency identity on every cell the rows sum to zero. *)
Lemma assemble_rowsum0 i :
  (forall c, (c < num_cells g)%N ->
     matG (nth 0 (c_centers g) c) (nth 0 (cell_volumes g) c)
          (nth 0 (cell_diameters g) c) (cell_coord g c)
     = matF (cell_normals g c) (nth 0 (cell_diameters g) c)
            (cell_node_faces g c)
       *m matD (nth 0 (c_centers g) c) (nth 0 (cell_diameters g) c)
               (cell_coord g c)) ->
  \sum_(e <- entries M | e.1.1 == i) e.2 = 0.
Proof.
move=> GFD; have [loopE _ _] := assemble_inv asm.
pose P t := \sum_(e <- t | e.1.1 == i) e.2 = 0 :> R.
apply: (@loop_cells_ind P _ _ _ _ _ _ _ loopE); rewrite /P.
- by rewrite big_nil.
- by move=> t1 t2 IH1 IH2; rewrite big_cat /= IH1 IH2 addr0.
move=> c t; rewrite mem_iota /= add0n => /GFD GFDc.
case/cell_triplets_inv => A HA ->; rewrite big_allpairs_cond /=.
apply: big1 => x _; case: eqP => _; last by rewrite big_pred0.
have := congr1 (fun B : 'cV_(size (nodes_loc g c)) => B x ord0)
               (stiffH1_ones HA GFDc).
rewrite !mxE big_enum /= => {2}<-.
by apply: eq_bigr => y _; rewrite mxE mulr1.
Qed.

End Invariants.

(** Assignment through an index array keeps the length. *)
Lemma size_foldl_set_nth (a : seq R) (idx : seq nat) (vals : seq R) :
  all (fun i => (i < size a)%N) idx ->
  size (foldl (fun acc q => set_nth 0 acc q.1 q.2) a (zip idx vals)) = size a.
Proof.
elim: idx vals a => [|k idx IH] [|x vals] a //= /andP [k_lt idx_lt].
have sz : size (set_nth 0 a k x) = size a.
  by rewrite size_set_nth; apply/maxn_idPr.
by rewrite IH sz.
Qed.

End Theory.

End AssemblySums.

Module AssemblyExtras.
Import PrimalVEM SparseTheory StiffTheory AssemblyTheory UpwindSums.
Import AssemblySums Interval GridTheory.

(** X15: on a grid of positive dimension the matrix returned by [matrix] is
    symmetric on the nodes that are not Dirichlet nodes; without Dirichlet
    nodes it is symmetric. *)
Theorem matrix_free_block_symmetric (R : realFieldType) (d kd : nat)
    (g : grid R d) (p : parameters R kd) (bc_weight : bool)
    (M : spmatrix R) (w : option R) (i j : nat) :
  dim g != 0%N -> matrix g p bc_weight = Ok (M, w) ->
  i \notin dirichlet p -> j \notin dirichlet p ->
  coeff M i j = coeff M j i.
Proof.
move=> dim_neq0 /(matrix_inv dim_neq0) [M0 /= [asm _ HM]] i_free j_free.
case: HM => [[_ ->]|[Mz Hz Hs]]; first exact: assemble_sym asm.
rewrite (coeff_free_row _ i_free Hz Hs) (coeff_free_row _ j_free Hz Hs).
exact: assemble_sym asm.
Qed.

(** X16: the Dirichlet conditions change the rows of the Dirichlet nodes
    only: a call with the same apertures and permeabilities and without
    boundary conditions returns the same weight and the same rows at all
    other nodes. *)
Theorem free_rows_unchanged (R : realFieldType) (d kd : nat)
    (g : grid R d) (p p0 : parameters R kd) (bc_weight : bool)
    (M : spmatrix R) (w : option R) :
  dim g != 0%N ->
  bc p0 = None -> aperture p0 = aperture p -> perm p0 = perm p ->
  matrix g p bc_weight = Ok (M, w) ->
  exists2 M0, matrix g p0 bc_weight = Ok (M0, w)
    & forall i j, i \notin dirichlet p -> coeff M i j = coeff M0 i j.
Proof.
move=> dim_neq0 bc0 Ea Ep /(matrix_inv dim_neq0) [M0 /= [asm -> HM]].
exists M0; first by rewrite /matrix (negbTE dim_neq0) (assemble_params g Ea Ep)
                            asm /= bc0.
move=> i j i_free; case: HM => [[_ ->] //|[Mz Hz Hs]].
exact: coeff_free_row i_free Hz Hs.
Qed.

(** X17: the matrix couples the nodes of a common cell only: an entry that is
    not zero is the diagonal entry of a Dirichlet node, or sits at two nodes
    of one cell. *)
Theorem matrix_pattern (R : realFieldType) (d kd : nat)
    (g : grid R d) (p : parameters R kd) (bc_weight : bool)
    (M : spmatrix R) (w : option R) (i j : nat) :
  dim g != 0%N -> matrix g p bc_weight = Ok (M, w) ->
  coeff M i j != 0 ->
  (i = j /\ i \in dirichlet p)
  \/ exists c, [/\ (c < num_cells g)%N, i \in nodes_loc g c
                  & j \in nodes_loc g c].
Proof.
move=> dim_neq0 /(matrix_inv dim_neq0) [M0 /= [asm _ HM]] nz.
have /hasP [e e_in /andP [/eqP ei /eqP ej]] :
  has (fun e => (e.1.1 == i) && (e.1.2 == j)) (entries M).
  by apply: contraR nz => no; rewrite /coeff big_hasC.
have in_M0 : e \in entries M0 ->
  exists c, [/\ (c < num_cells g)%N, i \in nodes_loc g c
               & j \in nodes_loc g c].
  by move=> /(assemble_pattern asm); rewrite ei ej.
case: HM e_in => [[_ ->]|[Mz]]; first by move=> /in_M0; right.
rewrite /zero_rows /set_diag; case: ifP => // _ [<-] /=.
case: ifP => // _ [<-] /=; rewrite mem_cat => /orP [/mapP [k k_in ek]|].
  by left; rewrite -ei -ej ek.
by rewrite !mem_filter => /and3P [_ _ /in_M0]; right.
Qed.

(** X18: under the consistency identity on every cell, the rows of the nodes
    that are not Dirichlet nodes sum to zero: the constant functions solve
    the discrete equations there. *)
Theorem matrix_free_rows_sum_zero (R : realFieldType) (d kd : nat)
    (g : grid R d) (p : parameters R kd) (bc_weight : bool)
    (M : spmatrix R) (w : option R) (i : nat) :
  (forall c, (c < num_cells g)%N ->
     matG (nth 0 (c_centers g) c) (nth 0 (cell_volumes g) c)
          (nth 0 (cell_diameters g) c) (cell_coord g c)
     = matF (cell_normals g c) (nth 0 (cell_diameters g) c)
            (cell_node_faces g c)
       *m matD (nth 0 (c_centers g) c) (nth 0 (cell_diameters g) c)
               (cell_coord g c)) ->
  dim g != 0%N -> matrix g p bc_weight = Ok (M, w) ->
  i \notin dirichlet p ->
  \sum_(j < ncols M) coeff M i j = 0.
Proof.
move=> GFD dim_neq0 /(matrix_inv dim_neq0) [M0 /= [asm _ HM]] i_free.
have [_ _ cols_lt] := assemble_inv asm.
have row0 : \sum_(j < ncols M0) coeff M0 i j = 0.
  by rewrite rowsum_entries // (assemble_rowsum0 asm).
case: HM => [[_ ->] //|[Mz Hz Hs]].
have [_ ->] := shape_dirichlet Hz Hs; rewrite -[RHS]row0.
by apply: eq_bigr => j _; exact: coeff_free_row i_free Hz Hs.
Qed.

(** X19: without Dirichlet nodes and with cell volumes that are not negative,
    the matrix is positive semidefinite. *)
Theorem matrix_psd (R : realFieldType) (d kd : nat)
    (g : grid R d) (p : parameters R kd) (bc_weight : bool)
    (M : spmatrix R) (w : option R) (v : nat -> R) :
  dim g != 0%N -> dirichlet p = [::] ->
  (forall c, (c < num_cells g)%N -> 0 <= nth 0 (cell_volumes g) c) ->
  matrix g p bc_weight = Ok (M, w) ->
  0 <= \sum_(i < nrows M) \sum_(j < ncols M) v i * coeff M i j * v j.
Proof.
move=> dim_neq0 dir0 vol_ge0 /(matrix_inv dim_neq0) [M0 /= [asm _ HM]].
have [_ rows_lt cols_lt] := assemble_inv asm.
have psd0 : 0 <= \sum_(i < nrows M0) \sum_(j < ncols M0)
                    v i * coeff M0 i j * v j.
  by rewrite quad_entries // (assemble_psd asm).
case: HM => [[_ ->] //|[Mz Hz Hs]].
have [-> ->] := shape_dirichlet Hz Hs.
suff -> : \sum_(i < nrows M0) \sum_(j < ncols M0) v i * coeff M i j * v j
          = \sum_(i < nrows M0) \sum_(j < ncols M0) v i * coeff M0 i j * v j.
  by [].
apply: eq_bigr => i _; apply: eq_bigr => j _.
by rewrite (coeff_free_row _ _ Hz Hs) // dir0.
Qed.

(** X21: on a grid of positive dimension, a right-hand side returned by
    [rhs] has one entry per node and is zero at every node that is not a
    Dirichlet node. *)
Theorem rhs_shape (R : realFieldType) (d kd : nat)
    (g : grid R d) (p : parameters R kd) (bc_weight : R) (b : seq R) :
  dim g != 0%N -> rhs g p bc_weight = Ok b ->
  size b = ndof g /\ forall i, i \notin dirichlet p -> nth 0 b i = 0.
Proof.
move=> /negbTE dimF; rewrite /rhs dimF /dirichlet.
case: (assert _) => //= _.
have zeros : size (nseq (ndof g) (0 : R)) = ndof g
             /\ forall i, nth 0 (nseq (ndof g) (0 : R)) i = 0.
  by rewrite size_nseq; split=> // i; rewrite nth_nseq if_same.
case: (bc p) => [bcs|]; last by case=> <-; case: zeros.
case: (bc_val p) => [vals|] //; case: ifP => _; last first.
  by case=> <-; case: zeros.
case: (take_idx _ _ _) => //= vs; rewrite /set_idx.
case: ifP => // _; case: ifP => // idx_lt [<-]; split.
  by rewrite (size_foldl_set_nth _ idx_lt) size_nseq.
by move=> i i_free; rewrite nth_foldl_set_nth_notin // nth_nseq if_same.
Qed.

(** X22: on a grid of dimension 0 [matrix_rhs] returns the matrix without
    entries, of the shape [ndof x ndof], and the source term as right-hand
    side; the weight 1 that [matrix] returns is not used. *)
Theorem matrix_rhs_point_grid (R : realFieldType) (d kd : nat)
    (g : grid R d) (p : parameters R kd) :
  dim g = 0%N ->
  exists2 M, matrix_rhs g p = Ok (M, source p)
    & [/\ nrows M = ndof g, ncols M = ndof g
        & forall i j, coeff M i j = 0].
Proof.
move=> dim0; exists (sp_zeros R (ndof g) (ndof g)).
  by rewrite /matrix_rhs /matrix /rhs dim0.
by split=> // i j; rewrite /coeff big_nil.
Qed.

End AssemblyExtras.

Module GridMore.
Import PrimalVEM SparseTheory StiffTheory AssemblyTheory Interval.
Import IntervalTheory GridTheory AssemblySums.

Section Theory.

Variable R : realFieldType.

Lemma matrix_g1_free bc_weight :
  exists M w, matrix (g1 R) (p1_free R) bc_weight = Ok (M, w).
Proof.
rewrite /matrix /= (@assemble_params _ _ _ (g1 R) (p1 R) (p1_free R)) //.
by have [M0 -> _] := assemble_g1 R; eexists; eexists.
Qed.

Lemma dirichlet_p1 : dirichlet (p1 R) = [:: 0%N].
Proof. by []. Qed.

Lemma matrix_g1_diag :
  exists M w, matrix (g1 R) (p1 R) false = Ok (M, w) /\ coeff M 0 0 = 1.
Proof.
have [M [w Hm]] := matrix_g1 R false; exists M, w; split=> //.
have [M0 /= [_ _ [[]|[Mz Hz Hs]]]] := matrix_inv (isT : dim (g1 R) != 0%N) Hm.
  by rewrite dirichlet_p1.
have in0 : 0%N \in dirichlet (p1 R) by [].
by rewrite (coeff_dirichlet 0%N (uniq_dirichlet (p1 R)) in0 Hz Hs).
Qed.

Lemma exact_g1 c :
  (c < num_cells (g1 R))%N ->
  matG (nth 0 (c_centers (g1 R)) c) (nth 0 (cell_volumes (g1 R)) c)
       (nth 0 (cell_diameters (g1 R)) c) (cell_coord (g1 R) c)
  = matF (cell_normals (g1 R) c) (nth 0 (cell_diameters (g1 R)) c)
         (cell_node_faces (g1 R) c)
    *m matD (nth 0 (c_centers (g1 R)) c) (nth 0 (cell_diameters (g1 R)) c)
            (cell_coord (g1 R) c).
Proof.
case: c => [|c] // _.
rewrite cell_normals_g1 cell_coord_g1 cell_node_faces_g1.
exact: exact.
Qed.

Lemma volumes_g1 c :
  (c < num_cells (g1 R))%N -> 0 <= nth 0 (cell_volumes (g1 R)) c.
Proof. by case: c => [|c] // _; exact: ler01. Qed.

Lemma rhs_g1 (w : R) : exists b, rhs (g1 R) (p1 R) w = Ok b.
Proof. by rewrite /rhs /= /take_idx /= /set_idx /=; eexists. Qed.

End Theory.

End GridMore.

Module AssemblyWitnesses.
Import PrimalVEM SparseTheory StiffTheory AssemblyTheory Interval.
Import IntervalTheory GridTheory AssemblySums GridMore.
Import AssemblyExtras.

(** X15 on the one-cell grid without boundary conditions. *)
Lemma matrix_free_block_symmetric_witness :
  exists M w, matrix (g1 rat) (p1_free rat) true = Ok (M, w)
  /\ coeff M 0 1 = coeff M 1 0.
Proof.
have [M [w Hm]] := matrix_g1_free rat true; exists M, w.
split; first exact: Hm.
exact: (@matrix_free_block_symmetric rat 1 1 (g1 rat) (p1_free rat) true M w
          0 1 isT Hm isT isT).
Defined.

(** X16 on the one-cell grid, with and without its Dirichlet condition. *)
Lemma free_rows_unchanged_witness :
  exists M w, matrix (g1 rat) (p1 rat) true = Ok (M, w)
  /\ exists2 M0, matrix (g1 rat) (p1_free rat) true = Ok (M0, w)
       & forall i j, i \notin dirichlet (p1 rat) -> coeff M i j = coeff M0 i j.
Proof.
have [M [w Hm]] := matrix_g1 rat true; exists M, w; split; first exact: Hm.
exact: (@free_rows_unchanged rat 1 1 (g1 rat) (p1 rat) (p1_free rat) true M w
          isT erefl erefl erefl Hm).
Defined.

(** X17 at the Dirichlet node of the one-cell grid. *)
Lemma matrix_pattern_witness :
  exists M w, matrix (g1 rat) (p1 rat) false = Ok (M, w)
  /\ ((0%N = 0%N /\ 0%N \in dirichlet (p1 rat))
      \/ exists c, [/\ (c < num_cells (g1 rat))%N,
                       0%N \in nodes_loc (g1 rat) c
                     & 0%N \in nodes_loc (g1 rat) c]).
Proof.
have [M [w [Hm M00]]] := matrix_g1_diag rat; exists M, w.
split; first exact: Hm.
apply: (@matrix_pattern rat 1 1 (g1 rat) (p1 rat) false M w 0 0 isT Hm).
by rewrite M00 oner_neq0.
Defined.

(** X18 at the free node of the one-cell grid. *)
Lemma matrix_free_rows_sum_zero_witness :
  exists M w, matrix (g1 rat) (p1 rat) true = Ok (M, w)
  /\ \sum_(j < ncols M) coeff M 1 j = 0.
Proof.
have [M [w Hm]] := matrix_g1 rat true; exists M, w; split; first exact: Hm.
exact: (@matrix_free_rows_sum_zero rat 1 1 (g1 rat) (p1 rat) true M w 1
          (@exact_g1 rat) isT Hm isT).
Defined.

(** X19 on the one-cell grid without boundary conditions. *)
Lemma matrix_psd_witness :
  exists M w, matrix (g1 rat) (p1_free rat) true = Ok (M, w)
  /\ 0 <= \sum_(i < nrows M) \sum_(j < ncols M)
           (i%:R : rat) * coeff M i j * (j%:R : rat).
Proof.
have [M [w Hm]] := matrix_g1_free rat true; exists M, w.
split; first exact: Hm.
exact: (@matrix_psd rat 1 1 (g1 rat) (p1_free rat) true M w
          (fun i => i%:R) isT erefl (@volumes_g1 rat) Hm).
Defined.

(** X21 on the one-cell grid. *)
Lemma rhs_shape_witness :
  exists b, rhs (g1 rat) (p1 rat) 1 = Ok b
  /\ (size b = ndof (g1 rat)
      /\ forall i, i \notin dirichlet (p1 rat) -> nth 0 b i = 0).
Proof.
have [b Hb] := @rhs_g1 rat 1; exists b; split; first exact: Hb.
exact: (@rhs_shape rat 1 1 (g1 rat) (p1 rat) 1 b isT Hb).
Defined.

(** X22 on the grid of dimension 0. *)
Lemma matrix_rhs_point_grid_witness :
  exists2 M, matrix_rhs (g0 rat) (p0_no_values rat)
             = Ok (M, source (p0_no_values rat))
    & [/\ nrows M = ndof (g0 rat), ncols M = ndof (g0 rat)
        & forall i j, coeff M i j = 0].
Proof.
exact: (@matrix_rhs_point_grid rat 1 1 (g0 rat) (p0_no_values rat) erefl).
Defined.

End AssemblyWitnesses.

Module AssemblyMore.
Import PrimalVEM SparseTheory StiffTheory AssemblyTheory.
Import AssemblySums Interval GridTheory GridMore CflTheory.

Section Theory.

Variable R : realFieldType.
Variables (d kd : nat).

Implicit Types (g : grid R d) (p : parameters R kd).

(** The loop reads the apertures and the permeabilities through their
    lengths only: the values are passed to [stiffH1], which ignores them. *)
Lemma assemble_sizes g p p0 :
  size (aperture p0) = size (aperture p) -> size (perm p0) = size (perm p) ->
  assemble g p0 = assemble g p.
Proof.
move=> Ea Ep; rewrite /assemble; congr (bind _ _).
elim: (iota _ _) => [|c cells IH] //=.
by rewrite IH /cell_triplets /stiffH1 Ea Ep.
Qed.

Lemma matrix_sizes g p p0 bc_weight :
  bc p0 = bc p ->
  size (aperture p0) = size (aperture p) -> size (perm p0) = size (perm p) ->
  matrix g p0 bc_weight = matrix g p bc_weight.
Proof. by move=> Eb Ea Ep; rewrite /matrix (assemble_sizes g Ea Ep) Eb. Qed.

End Theory.

End AssemblyMore.

Module AssemblyMoreExtras.
Import PrimalVEM SparseTheory StiffTheory AssemblyTheory.
Import AssemblySums Interval GridTheory GridMore AssemblyMore.

(** X20: on a grid of positive dimension the system returned by
    [matrix_rhs] does not depend on the source term, nor on the values of the
    permeabilities and of the apertures: two sets of parameters with the same
    boundary conditions, and arrays of apertures and of permeabilities of the
    same lengths, give the same matrix and the same right-hand side. *)
Theorem matrix_rhs_ignores_coefficients (R : realFieldType) (d kd : nat)
    (g : grid R d) (p p0 : parameters R kd) :
  dim g != 0%N -> bc p0 = bc p -> bc_val p0 = bc_val p ->
  size (aperture p0) = size (aperture p) -> size (perm p0) = size (perm p) ->
  matrix_rhs g p0 = matrix_rhs g p.
Proof.
move=> /negbTE dimF Eb Ev Ea Ep.
rewrite /matrix_rhs (matrix_sizes g _ Eb Ea Ep).
by case: (matrix g p true) => //= Mw; rewrite /rhs dimF Eb Ev.
Qed.

(** X20 on the one-cell grid, for two sets of parameters that differ in the
    source term and in the aperture. *)
Lemma matrix_rhs_ignores_coefficients_witness :
  matrix_rhs (g1 rat) (p1_source rat) = matrix_rhs (g1 rat) (p1 rat).
Proof.
exact: (@matrix_rhs_ignores_coefficients rat 1 1 (g1 rat) (p1 rat)
          (p1_source rat) isT erefl erefl erefl erefl).
Defined.

(** X25: on a grid of positive dimension with boundary flags and boundary
    values, [rhs] fails exactly when a Dirichlet node has no boundary value
    or lies beyond the [ndof] entries of the right-hand side, and the failure
    is an [IndexError]. *)
Theorem rhs_bounds (R : realFieldType) (d kd : nat)
    (g : grid R d) (p : parameters R kd) (bc_weight : R)
    (b : boundary_condition) (v : seq R) :
  dim g != 0%N -> bc p = Some b -> bc_val p = Some v ->
  if all (fun i => (i < size v)%N && (i < ndof g)%N) (np_where (is_dir b))
  then exists r, rhs g p bc_weight = Ok r
  else rhs g p bc_weight = Raise IndexError.
Proof.
move=> /negbTE dimF bE vE; rewrite /rhs dimF bE vE /=.
case: (boolP (np_any (is_dir b))) => [_|/np_where_none ->] /=; last first.
  by eexists.
rewrite /take_idx /set_idx all_predI.
case: (all _ _) => //=; rewrite !size_map eqxx /= size_nseq.
by case: (all _ _) => //=; eexists.
Qed.

(** X25 on the one-cell grid, whose Dirichlet node has a boundary value. *)
Lemma rhs_bounds_witness :
  if all (fun i => (i < size ([:: 5%:R; 0] : seq rat)%R)%N
                   && (i < ndof (g1 rat))%N)
         (np_where (is_dir (BoundaryCondition [:: true; false])))
  then exists r, rhs (g1 rat) (p1 rat) 1 = Ok r
  else rhs (g1 rat) (p1 rat) 1 = Raise IndexError.
Proof.
exact: (@rhs_bounds rat 1 1 (g1 rat) (p1 rat) 1
          (BoundaryCondition [:: true; false]) [:: 5%:R; 0] isT erefl erefl).
Defined.

End AssemblyMoreExtras.
